(** * unirules: a shallow embedding of the rule engine

    The development follows the layout of the Python package:

    - [unirules/domains/interval/field_ref.py]  ([IntervalFieldRef.coerce]),
    - [unirules/domains/discrete/field_ref.py]  ([DiscreteFieldRef.validate_value]),
    - [unirules/core/fields.py]                 ([FieldRef.normalize_value]),
    - [unirules/domains/interval/conditions.py] ([Between], [Gt], [Ge], [Lt], [Le]),
    - [unirules/engines/_ctx_validation.py]     ([validate_context]).

    Python exceptions are values of an error monad, dictionaries are finite
    maps, and dictionary identity (needed for the aliasing behaviour of
    [validate_context]) is modelled by a store of dictionary objects.

    A finite float is kept as the rational it denotes ([Qc]); the two
    infinities and NaN are separate values, so that [math.isfinite] has its
    meaning.  [float()] of an [int] rounds to the nearest double and raises
    [OverflowError] beyond the range of doubles; what [float()] makes of a
    string or of a [Decimal] is an interface of the model. *)

From Stdlib Require Import QArith Qcanon.
From stdpp Require Import base numbers option list strings gmap sorting.

Set Warnings "-clear-no-such-hyp".
Local Open Scope string_scope.
Local Open Scope list_scope.

(* ===================================================================== *)
(** * Part I: definitions                                                 *)
(* ===================================================================== *)

(** ** Python values *)

Module Py.

(** A Python [float]. *)
Inductive pyfloat :=
| Finite (q : Qc)
| NaN
| PInf
| NInf.

(** The objects that reach the engine as literals or context values. *)
Inductive pyobj :=
| PyNone
| PyBool (b : bool)
| PyInt (z : Z)
| PyFloat (x : pyfloat)
| PyDecimal (x : pyfloat)      (* decimal.Decimal: a number, an infinity or NaN *)
| PyStr (s : string)
| PyUnhashable (id : nat).     (* a list, a dict, ...: hash() raises TypeError *)

#[global] Instance pyfloat_eq_dec : EqDecision pyfloat.
Proof. solve_decision. Defined.

#[global] Instance pyobj_eq_dec : EqDecision pyobj.
Proof. solve_decision. Defined.

(** [math.isfinite]. *)
Definition isfinite (x : pyfloat) : bool :=
  match x with Finite _ => true | _ => false end.

(** [a < b], [a <= b] and [a == b] on numbers (every comparison with NaN is
    false). *)
Definition float_lt (a b : pyfloat) : bool :=
  match a, b with
  | NaN, _ | _, NaN => false
  | Finite p, Finite q => bool_decide (p < q)%Qc
  | NInf, NInf => false
  | NInf, _ => true
  | _, NInf => false
  | PInf, _ => false
  | _, PInf => true
  end.

Definition float_le (a b : pyfloat) : bool :=
  match a, b with
  | NaN, _ | _, NaN => false
  | Finite p, Finite q => bool_decide (p <= q)%Qc
  | NInf, _ => true
  | _, NInf => false
  | _, PInf => true
  | PInf, _ => false
  end.

Definition float_eq (a b : pyfloat) : bool :=
  match a, b with
  | Finite p, Finite q => bool_decide (p = q)
  | PInf, PInf | NInf, NInf => true
  | _, _ => false
  end.

(** The number an object of a numeric type denotes ([bool] is a subtype of
    [int]); Python compares numbers of different types by their exact
    values. *)
Definition numeric (v : pyobj) : option pyfloat :=
  match v with
  | PyBool b => Some (Finite (if b then 1 else 0)%Qc)
  | PyInt z => Some (Finite (Q2Qc (inject_Z z)))
  | PyFloat x => Some x
  | PyDecimal x => Some x
  | PyNone | PyStr _ | PyUnhashable _ => None
  end.

(** [a == b]: numbers by value, whatever their types ([True == 1 == 1.0 ==
    Decimal(1)]); other objects only with their like. *)
Definition py_eq (a b : pyobj) : bool :=
  match numeric a, numeric b with
  | Some x, Some y => float_eq x y
  | None, None => bool_decide (a = b)
  | _, _ => false
  end.

(** Some member of [vs] equals [v].  (A container also takes an object for
    its own member by identity; objects have no identity here, which only
    matters for a NaN that is itself stored in the container.) *)
Definition py_in (vs : list pyobj) (v : pyobj) : bool := existsb (py_eq v) vs.

(** [hash(v)] succeeds. *)
Definition hashable (v : pyobj) : bool :=
  match v with PyUnhashable _ => false | _ => true end.

(** [float(z)] for an [int]: the nearest double, ties to the even mantissa;
    [None] when the result is beyond the largest double ("int too large to
    convert to float"). *)
Definition float_of_int (z : Z) : option Qc :=
  let a := Z.abs z in
  let bits := (Z.log2 a + 1)%Z in
  if bool_decide (bits ≤ 53)%Z then Some (Q2Qc (inject_Z z))
  else
    let shift := (bits - 53)%Z in
    let m := Z.shiftr a shift in
    let r := Z.land a (Z.ones shift) in
    let half := Z.shiftl 1 (shift - 1) in
    let m' := if bool_decide (half < r)%Z || (bool_decide (r = half) && Z.odd m)
              then (m + 1)%Z else m in
    let rounded := Z.shiftl m' shift in
    if bool_decide (2 ^ 1024 ≤ rounded)%Z then None
    else Some (Q2Qc (inject_Z (Z.sgn z * rounded))).

End Py.
Export Py.

(** ** Exceptions and the error monad *)

(** Who asked for a validation: the [role] keyword of [coerce] and
    [validate_value]. *)
Inductive role :=
| LowerBound | UpperBound | ConditionValue | ContextValue.

(** The messages of the [ValueError]s: those the package raises, and that of
    [float()] on a string it cannot read. *)
Inductive error_message :=
| NotNumeric (r : role) (raw : pyobj) (field : string)
| OutsideRange (r : role) (raw : pyobj) (field : string)
| NotAllowed (r : role) (raw : pyobj) (field : string)
| InvalidClosed (closed : string) (field : string)
| BoundsReversed (lo hi : pyobj) (field : string)
| CouldNotConvert (raw : pyobj).

Inductive exn :=
| ValueError (msg : error_message)
| TypeError
| LookupError                    (* "No rule matched" *)
| OverflowError                  (* "int too large to convert to float" *)
| InvalidOperation.              (* decimal.InvalidOperation *)

Inductive res (A : Type) :=
| Ok (a : A)
| Raise (e : exn).
Arguments Ok {A} a.
Arguments Raise {A} e.

(** [x ← r; k] runs [k] on the value of [r] and propagates its exception. *)
#[global] Instance res_ret : MRet res := fun _ a => Ok a.
#[global] Instance res_bind : MBind res := fun _ _ k r =>
  match r with
  | Ok a => k a
  | Raise e => Raise e
  end.

(** The taxonomy of the specification. *)
Definition InvalidValue (e : exn) : Prop :=
  match e with
  | ValueError (NotNumeric _ _ _ | OutsideRange _ _ _ | NotAllowed _ _ _) => True
  | _ => False
  end.

Definition InvalidCondition (e : exn) : Prop :=
  match e with
  | ValueError (InvalidClosed _ _ | BoundsReversed _ _ _) => True
  | _ => False
  end.

Definition NoMatch (e : exn) : Prop := e = LookupError.

(** ** The conversions and comparisons of the runtime *)

(** What [float()] yields on a string ([None] when it raises [ValueError])
    and on a finite [Decimal] (the nearest double, an infinity beyond the
    range of doubles).  Both belong to the Python runtime, so they are an
    interface of the model. *)
Class FloatRuntime := {
  float_of_str : string -> option pyfloat;
  float_of_decimal : Qc -> pyfloat;
}.

(** [float(raw)], with the exception it raises. *)
Definition py_float `{FloatRuntime} (raw : pyobj) : res pyfloat :=
  match raw with
  | PyNone | PyUnhashable _ => Raise TypeError
  | PyBool b => Ok (Finite (if b then 1 else 0)%Qc)
  | PyInt z =>
      match float_of_int z with
      | Some q => Ok (Finite q)
      | None => Raise OverflowError
      end
  | PyFloat x => Ok x
  | PyDecimal (Finite q) => Ok (float_of_decimal q)
  | PyDecimal x => Ok x
  | PyStr s =>
      match float_of_str s with
      | Some x => Ok x
      | None => Raise (ValueError (CouldNotConvert raw))
      end
  end.

(** The left operand of [<], [<=], [>], [>=] against a float: the number it
    is compared as, or the exception the comparison raises, [TypeError] for
    an object that is no number and [decimal.InvalidOperation] for the NaN
    of [Decimal]. *)
Definition as_number (v : pyobj) : res pyfloat :=
  match v with
  | PyDecimal NaN => Raise InvalidOperation
  | _ =>
      match numeric v with
      | Some x => Ok x
      | None => Raise TypeError
      end
  end.

(** ** Domains and field references *)

(** Modelled from the spec: [unirules/domains/interval/domain.py] is not
    part of the sources; section 3 gives
    "IntervalDomain{lo,hi: finite numbers, lo<=hi}". *)
Record IntervalDomain := { dom_lo : Qc; dom_hi : Qc }.

(** Modelled from the spec: [unirules/domains/discrete/domain.py] is not
    part of the sources; section 3 gives
    "DiscreteDomain{vals: set of comparable values}".  The set is kept as the
    list of its elements. *)
Record DiscreteDomain := { vals : list pyobj }.

Record IntervalFieldRef := { iname : string; idomain : IntervalDomain }.
Record DiscreteFieldRef := { dname : string; ddomain : DiscreteDomain }.

#[global] Instance IntervalDomain_eq_dec : EqDecision IntervalDomain.
Proof. solve_decision. Defined.
#[global] Instance DiscreteDomain_eq_dec : EqDecision DiscreteDomain.
Proof. solve_decision. Defined.
#[global] Instance IntervalFieldRef_eq_dec : EqDecision IntervalFieldRef.
Proof. solve_decision. Defined.
#[global] Instance DiscreteFieldRef_eq_dec : EqDecision DiscreteFieldRef.
Proof. solve_decision. Defined.

Section field_refs.
Context `{FloatRuntime}.

(** [IntervalFieldRef.coerce]: the [try] catches the [TypeError] and the
    [ValueError] of [float()], no other exception. *)
Definition coerce (self : IntervalFieldRef) (raw : pyobj) (r : role) : res Qc :=
  match py_float raw with
  | Raise TypeError | Raise (ValueError _) =>
      Raise (ValueError (NotNumeric r raw (iname self)))
  | Raise exc => Raise exc
  | Ok numeric =>
      match numeric with
      | Finite q =>
          if bool_decide (q < dom_lo (idomain self))%Qc
             || bool_decide (dom_hi (idomain self) < q)%Qc
          then Raise (ValueError (OutsideRange r raw (iname self)))
          else Ok q
      | _ => Raise (ValueError (NotNumeric r raw (iname self)))
      end
  end.

(** [IntervalFieldRef.validate_value] *)
Definition interval_validate_value (self : IntervalFieldRef) (value : pyobj) (r : role)
  : res unit :=
  _ ← coerce self value r; Ok tt.

(** [IntervalFieldRef.normalize_value] *)
Definition interval_normalize_value (self : IntervalFieldRef) (value : pyobj) (r : role)
  : res pyobj :=
  q ← coerce self value r; Ok (PyFloat (Finite q)).

(** [value in self.domain.vals]: membership in a Python set hashes the
    value first and then compares with [==]. *)
Definition contains (vs : list pyobj) (value : pyobj) : res bool :=
  if hashable value then Ok (py_in vs value) else Raise TypeError.

(** [DiscreteFieldRef.validate_value] *)
Definition discrete_validate_value (self : DiscreteFieldRef) (value : pyobj) (r : role)
  : res unit :=
  match contains (vals (ddomain self)) value with
  | Ok true => Ok tt
  | Ok false => Raise (ValueError (NotAllowed r value (dname self)))
  | Raise TypeError => Raise (ValueError (NotAllowed r value (dname self)))
  | Raise e => Raise e
  end.

(** [FieldRef.normalize_value], inherited by [DiscreteFieldRef]. *)
Definition discrete_normalize_value (self : DiscreteFieldRef) (value : pyobj) (r : role)
  : res pyobj :=
  _ ← discrete_validate_value self value r; Ok value.

End field_refs.

(** The two subclasses of [FieldRef]. *)
Inductive FieldRef :=
| DiscreteRef (f : DiscreteFieldRef)
| IntervalRef (f : IntervalFieldRef).

#[global] Instance FieldRef_eq_dec : EqDecision FieldRef.
Proof. solve_decision. Defined.

Definition name (f : FieldRef) : string :=
  match f with
  | DiscreteRef d => dname d
  | IntervalRef i => iname i
  end.

Definition validate_value `{FloatRuntime} (f : FieldRef) (value : pyobj) (r : role)
  : res unit :=
  match f with
  | DiscreteRef d => discrete_validate_value d value r
  | IntervalRef i => interval_validate_value i value r
  end.

Definition normalize_value `{FloatRuntime} (f : FieldRef) (value : pyobj) (r : role)
  : res pyobj :=
  match f with
  | DiscreteRef d => discrete_normalize_value d value r
  | IntervalRef i => interval_normalize_value i value r
  end.

(** ** Contexts *)

(** [Context = Mapping[str, object]]. *)
Abbreviation Context := (gmap string pyobj).

(** ** Interval conditions ([domains/interval/conditions.py]) *)

(** [v > x], [v >= x], [v < x], [v <= x] for a context value [v] and a
    coerced literal [x]. *)
Definition py_gt (v : pyobj) (x : Qc) : res bool :=
  f ← as_number v; Ok (float_lt (Finite x) f).

Definition py_ge (v : pyobj) (x : Qc) : res bool :=
  f ← as_number v; Ok (float_le (Finite x) f).

Definition py_lt (v : pyobj) (x : Qc) : res bool :=
  f ← as_number v; Ok (float_lt f (Finite x)).

Definition py_le (v : pyobj) (x : Qc) : res bool :=
  f ← as_number v; Ok (float_le f (Finite x)).

(** The dataclass [Between] after [__post_init__]. *)
Record Between := {
  b_field : IntervalFieldRef;
  lo : Qc;
  hi : Qc;
  closed : string;
  left_closed : bool;
  right_closed : bool;
}.

(** The subclasses of [IntervalCond]. *)
Inductive IntervalCond :=
| CBetween (b : Between)
| Gt (field : IntervalFieldRef) (value : Qc)
| Ge (field : IntervalFieldRef) (value : Qc)
| Lt (field : IntervalFieldRef) (value : Qc)
| Le (field : IntervalFieldRef) (value : Qc).

Definition interval_field (c : IntervalCond) : IntervalFieldRef :=
  match c with
  | CBetween b => b_field b
  | Gt f _ | Ge f _ | Lt f _ | Le f _ => f
  end.

Definition closed_tags : list string := ["both"; "left"; "right"; "none"].

Section interval_conditions.
Context `{FloatRuntime}.

(** [Between(field, lo, hi, closed)]: the generated [__init__] followed by
    [Between.__post_init__]. *)
Definition Between_init (field : IntervalFieldRef) (original_lo original_hi : pyobj)
    (closed : string) : res Between :=
  if bool_decide (closed ∉ closed_tags)
  then Raise (ValueError (InvalidClosed closed (iname field)))
  else
    lo ← coerce field original_lo LowerBound;
    hi ← coerce field original_hi UpperBound;
    if bool_decide (hi < lo)%Qc
    then Raise (ValueError (BoundsReversed original_lo original_hi (iname field)))
    else Ok {| b_field := field; lo := lo; hi := hi; closed := closed;
               left_closed := bool_decide (closed ∈ ["left"; "both"]);
               right_closed := bool_decide (closed ∈ ["right"; "both"]) |}.

(** [Gt.__post_init__] and its three siblings. *)
Definition Gt_init (field : IntervalFieldRef) (value : pyobj) : res IntervalCond :=
  value ← coerce field value ConditionValue; Ok (Gt field value).

Definition Ge_init (field : IntervalFieldRef) (value : pyobj) : res IntervalCond :=
  value ← coerce field value ConditionValue; Ok (Ge field value).

Definition Lt_init (field : IntervalFieldRef) (value : pyobj) : res IntervalCond :=
  value ← coerce field value ConditionValue; Ok (Lt field value).

Definition Le_init (field : IntervalFieldRef) (value : pyobj) : res IntervalCond :=
  value ← coerce field value ConditionValue; Ok (Le field value).

End interval_conditions.

(** [Between.eval] *)
Definition Between_eval (self : Between) (ctx : Context) : res bool :=
  match ctx !! iname (b_field self) with
  | None => Ok false
  | Some v =>
      left_ok ← (if left_closed self then py_gt v (lo self) else py_ge v (lo self));
      right_ok ← (if right_closed self then py_lt v (hi self) else py_le v (hi self));
      Ok (left_ok && right_ok)
  end.

(** [Gt.eval], [Ge.eval], [Lt.eval], [Le.eval] and [Between.eval]. *)
Definition interval_eval (c : IntervalCond) (ctx : Context) : res bool :=
  match c with
  | CBetween b => Between_eval b ctx
  | Gt field value =>
      match ctx !! iname field with None => Ok false | Some v => py_gt v value end
  | Ge field value =>
      match ctx !! iname field with None => Ok false | Some v => py_ge v value end
  | Lt field value =>
      match ctx !! iname field with None => Ok false | Some v => py_lt v value end
  | Le field value =>
      match ctx !! iname field with None => Ok false | Some v => py_le v value end
  end.

(** ** Discrete conditions and the combinators *)

(** Modelled from the spec: [domains/discrete/conditions.py] is not part of
    the sources.  Section 4.2: "Equality: value equality against a
    domain-validated literal.  Membership: every candidate literal validated
    at construction; notin matches when absent from the given set", and
    "Missing field => leaf evaluates false". *)
Inductive DiscreteCond :=
| Equality (field : DiscreteFieldRef) (literal : pyobj)
| Membership (field : DiscreteFieldRef) (items : list pyobj) (negated : bool).

Definition discrete_field (c : DiscreteCond) : DiscreteFieldRef :=
  match c with
  | Equality f _ | Membership f _ _ => f
  end.

(** Modelled from the spec: the constructors of the discrete leaves (see
    [DiscreteCond]); they validate the literals with
    [DiscreteFieldRef.validate_value]. *)
Fixpoint validate_items `{FloatRuntime} (field : DiscreteFieldRef) (items : list pyobj)
  : res unit :=
  match items with
  | [] => Ok tt
  | item :: rest =>
      _ ← discrete_validate_value field item ConditionValue;
      validate_items field rest
  end.

Definition Equality_init `{FloatRuntime} (field : DiscreteFieldRef) (literal : pyobj)
  : res DiscreteCond :=
  _ ← discrete_validate_value field literal ConditionValue; Ok (Equality field literal).

Definition Membership_init `{FloatRuntime} (field : DiscreteFieldRef) (items : list pyobj)
    (negated : bool) : res DiscreteCond :=
  _ ← validate_items field items; Ok (Membership field items negated).

(** Modelled from the spec: evaluation of the discrete leaves (see
    [DiscreteCond]), with Python's [==]. *)
Definition discrete_eval (c : DiscreteCond) (ctx : Context) : res bool :=
  match c with
  | Equality field literal =>
      match ctx !! dname field with
      | None => Ok false
      | Some v => Ok (py_eq v literal)
      end
  | Membership field items negated =>
      match ctx !! dname field with
      | None => Ok false
      | Some v => Ok (xorb negated (py_in items v))
      end
  end.

(** Modelled from the spec: [core/conditions.py] is not part of the sources.
    Section 3: "Condition (variant): {Equality, Membership(in/not-in),
    Between, Gt, Ge, Lt, Le, And, Or, Not}"; [Always] is the always-true
    condition of a fallback rule. *)
Inductive Cond :=
| Discrete (c : DiscreteCond)
| Interval (c : IntervalCond)
| And (a b : Cond)
| Or (a b : Cond)
| Not (a : Cond)
| Always.

(** Modelled from the spec: "And/Or/Not: standard boolean composition", with
    Python's short-circuit evaluation of [and] and [or]. *)
Fixpoint eval (c : Cond) (ctx : Context) : res bool :=
  match c with
  | Discrete d => discrete_eval d ctx
  | Interval i => interval_eval i ctx
  | And a b => x ← eval a ctx; if (x : bool) then eval b ctx else Ok false
  | Or a b => x ← eval a ctx; if (x : bool) then Ok true else eval b ctx
  | Not a => x ← eval a ctx; Ok (negb x)
  | Always => Ok true
  end.

(** Keep the first occurrence of every element. *)
Fixpoint dedup_from {A} `{EqDecision A} (seen : list A) (l : list A) : list A :=
  match l with
  | [] => []
  | x :: l' =>
      if bool_decide (x ∈ seen) then dedup_from seen l'
      else x :: dedup_from (x :: seen) l'
  end.

Definition dedup {A} `{EqDecision A} (l : list A) : list A := dedup_from [] l.

(** Every field reference of a condition, in traversal order. *)
Fixpoint cond_field_refs (c : Cond) : list FieldRef :=
  match c with
  | Discrete d => [DiscreteRef (discrete_field d)]
  | Interval i => [IntervalRef (interval_field i)]
  | And a b | Or a b => cond_field_refs a ++ cond_field_refs b
  | Not a => cond_field_refs a
  | Always => []
  end.

(** Modelled from the spec: [Cond.iter_field_refs] of the combinators
    ("deduplicated, first-seen order"); the leaves yield their field
    ([IntervalCond.iter_field_refs]). *)
Definition cond_iter_field_refs (c : Cond) : list FieldRef :=
  dedup (cond_field_refs c).

(** ** Rule sets *)

(** Modelled from the spec: [core/rules.py] is not part of the sources.
    Section 3: "RuleValue{condition,name,priority,payload}.
    RuleTree{condition,name,priority,subtree: RuleSet}.  RuleSet{rules:
    ordered sequence of RuleValue|RuleTree; fallback: optional always-true
    RuleValue|RuleTree; policy}". *)
Inductive Policy := FIRST_MATCH | PRIORITY.

Inductive Rule (V : Type) :=
| RuleValue (condition : Cond) (rname : string) (priority : Z) (value : V)
| RuleTree (condition : Cond) (rname : string) (priority : Z) (subtree : RuleSet V)
with RuleSet (V : Type) :=
| mkRuleSet (rules : list (Rule V)) (fallback : option (Rule V)) (policy : Policy).
Arguments RuleValue {V} condition rname priority value.
Arguments RuleTree {V} condition rname priority subtree.
Arguments mkRuleSet {V} rules fallback policy.

Definition condition {V} (r : Rule V) : Cond :=
  match r with RuleValue c _ _ _ | RuleTree c _ _ _ => c end.
Definition rname {V} (r : Rule V) : string :=
  match r with RuleValue _ n _ _ | RuleTree _ n _ _ => n end.
Definition priority {V} (r : Rule V) : Z :=
  match r with RuleValue _ _ p _ | RuleTree _ _ p _ => p end.
Definition rules {V} (rs : RuleSet V) : list (Rule V) :=
  match rs with mkRuleSet l _ _ => l end.
Definition fallback {V} (rs : RuleSet V) : option (Rule V) :=
  match rs with mkRuleSet _ f _ => f end.
Definition policy {V} (rs : RuleSet V) : Policy :=
  match rs with mkRuleSet _ _ p => p end.

(** Every field reference of a rule set, in traversal order: for each rule
    its condition, then its subtree; the fallback last. *)
Fixpoint rule_field_refs {V} (r : Rule V) : list FieldRef :=
  match r with
  | RuleValue c _ _ _ => cond_iter_field_refs c
  | RuleTree c _ _ sub => cond_iter_field_refs c ++ ruleset_field_refs sub
  end
with ruleset_field_refs {V} (rs : RuleSet V) : list FieldRef :=
  match rs with
  | mkRuleSet l fb _ =>
      (fix go (l : list (Rule V)) : list FieldRef :=
         match l with
         | [] => []
         | r :: l' => rule_field_refs r ++ go l'
         end) l
      ++ match fb with Some r => rule_field_refs r | None => [] end
  end.

(** Modelled from the spec: [RuleSet.iter_field_refs] "recursively collects
    every distinct FieldRef, deduplicated, first-seen order". *)
Definition iter_field_refs {V} (rs : RuleSet V) : list FieldRef :=
  dedup (ruleset_field_refs rs).

(** ** Context validation ([engines/_ctx_validation.py]) *)

(** The [for] loop of [validate_context]: [normalized] is the dictionary
    under construction; the second component tells whether
    [normalize_value] raised. *)
Fixpoint normalize_fields `{FloatRuntime} (fields : list FieldRef) (ctx : Context)
    (seen_names : gset string) (normalized : Context) : Context * res unit :=
  match fields with
  | [] => (normalized, Ok tt)
  | field :: rest =>
      let name := name field in
      match ctx !! name with
      | None => normalize_fields rest ctx seen_names normalized
      | Some raw =>
          if bool_decide (name ∈ seen_names)
          then normalize_fields rest ctx seen_names normalized
          else
            match normalize_value field raw ContextValue with
            | Raise e => (normalized, Raise e)
            | Ok v =>
                normalize_fields rest ctx ({[name]} ∪ seen_names) (<[name := v]> normalized)
            end
      end
  end.

(** Dictionary objects live in a store and are named by their position, so
    that [normalized is not ctx] can be stated. *)
Abbreviation store := (list Context).
Abbreviation ref := nat.

Definition deref (σ : store) (r : ref) : Context := default ∅ (σ !! r).

(** [validate_context(ruleset, ctx)] on the store: returns the store after
    the call and the reference it returns (or the exception). *)
Definition validate_context_in `{FloatRuntime} {V} (ruleset : RuleSet V) (σ : store)
    (ctx : ref) : store * res ref :=
  if bool_decide (deref σ ctx = ∅)
  then (σ, Ok ctx)
  else
    let '(normalized, r) :=
      normalize_fields (iter_field_refs ruleset) (deref σ ctx) ∅ (deref σ ctx) in
    (σ ++ [normalized], _ ← r; Ok (length σ)).

(** The value [validate_context] returns, for callers that only read it. *)
Definition validate_context `{FloatRuntime} {V} (ruleset : RuleSet V) (ctx : Context)
  : res Context :=
  if bool_decide (ctx = ∅)
  then Ok ctx
  else
    let '(normalized, r) := normalize_fields (iter_field_refs ruleset) ctx ∅ ctx in
    _ ← r; Ok normalized.

(** ** Candidate order *)

Section candidate_order.
Context {A : Type} (key : A -> Z).

(** Insertion keeps an element behind every element of strictly higher
    priority and in front of the others, which were declared after it. *)
Fixpoint insert_by_priority (x : A) (l : list A) : list A :=
  match l with
  | [] => [x]
  | y :: l' =>
      if bool_decide (key y ≤ key x)%Z then x :: y :: l'
      else y :: insert_by_priority x l'
  end.

(** A stable sort by descending priority. *)
Fixpoint sort_by_priority (l : list A) : list A :=
  match l with
  | [] => []
  | x :: l' => insert_by_priority x (sort_by_priority l')
  end.

(** Modelled from the spec: section 4.4, "FIRST_MATCH keeps declaration
    order; PRIORITY stable-sorts by descending priority (ties keep
    declaration order)". *)
Definition candidate_order (p : Policy) (l : list A) : list A :=
  match p with
  | FIRST_MATCH => l
  | PRIORITY => sort_by_priority l
  end.

(** Modelled from the spec: section 4.4, "Walk candidates; evaluate each
    condition against ctx; first true candidate is the match". *)
Fixpoint first_match (cond : A -> Cond) (l : list A) (ctx : Context) : res (option A) :=
  match l with
  | [] => Ok None
  | x :: l' =>
      b ← eval (cond x) ctx;
      if (b : bool) then Ok (Some x) else first_match cond l' ctx
  end.

(** The same walk with the trace of [explain]: a line "name: ×" for every
    rejected candidate and "name: ✓" for the match. *)
Fixpoint test_candidates (cond : A -> Cond) (nm : A -> string) (l : list A)
    (ctx : Context) : res (list string * option A) :=
  match l with
  | [] => Ok ([], None)
  | x :: l' =>
      b ← eval (cond x) ctx;
      if (b : bool) then Ok ([(nm x ++ ": ✓")%string], Some x)
      else
        tm ← test_candidates cond nm l' ctx;
        Ok ((nm x ++ ": ×")%string :: tm.1, tm.2)
  end.

End candidate_order.

(** ** Resolver *)

(** Modelled from the spec: [engines/resolver.py] is not part of the
    sources.  Section 4.4: "first true candidate is the match - RuleValue
    yields its payload; RuleTree recurses into its subtree with the same ctx.
    If none match, the fallback (if present) is selected unconditionally.  If
    nothing matches and no fallback, resolution at this level fails with
    NoMatch, propagating to the caller".  Every candidate is paired with what
    selecting it yields, so that the recursion is structural. *)
Fixpoint resolve_rule {V} (r : Rule V) (ctx : Context) : res V :=
  match r with
  | RuleValue _ _ _ v => Ok v
  | RuleTree _ _ _ sub => resolve_set sub ctx
  end
with resolve_set {V} (rs : RuleSet V) (ctx : Context) : res V :=
  match rs with
  | mkRuleSet l fb pol =>
      let cands :=
        (fix go (l : list (Rule V)) : list (Rule V * res V) :=
           match l with
           | [] => []
           | r :: l' => (r, resolve_rule r ctx) :: go l'
           end) l in
      m ← first_match (λ c, condition c.1)
            (candidate_order (λ c, priority c.1) pol cands) ctx;
      match m with
      | Some c => c.2
      | None =>
          match fb with
          | Some r => resolve_rule r ctx
          | None => Raise LookupError
          end
      end
  end.

(** Modelled from the spec: [Resolver.resolve] (section 4.4, "Before
    resolving, every referenced field present in ctx is normalized via its
    FieldRef"). *)
Definition resolve `{FloatRuntime} {V} (rs : RuleSet V) (ctx : Context) : res V :=
  normalized ← validate_context rs ctx; resolve_set rs normalized.

(** Section 3: "Explanation{matched_rule: name or absent; path: ordered
    names root->leaf (empty if none matched); tested: ordered "name: ✓/×"
    entries; result: payload or absent}". *)
Record Explanation (V : Type) := {
  matched_rule : option string;
  path : list string;
  tested : list string;
  result : option V;
}.
Arguments matched_rule {V} _.
Arguments path {V} _.
Arguments tested {V} _.
Arguments result {V} _.

(** Modelled from the spec: [Resolver.explain] is not part of the sources.
    Section 4.4: "identical walk, but records one "name: ✓/×" trace line per
    candidate tested ...; path accumulates only matched names across
    recursion levels; a level that fails to match contributes only "×" lines
    (plus the fallback's outcome if tried) and nothing to path".  As in the
    example of section 8 (tested == ["High income: ✓"] with a two-level
    path), [tested] holds the lines of the level the explanation is asked
    of. *)
Fixpoint explain_rule {V} (r : Rule V) (ctx : Context) : res (list string * option V) :=
  match r with
  | RuleValue _ n _ v => Ok ([n], Some v)
  | RuleTree _ n _ sub => e ← explain_set sub ctx; Ok (n :: path e, result e)
  end
with explain_set {V} (rs : RuleSet V) (ctx : Context) : res (Explanation V) :=
  match rs with
  | mkRuleSet l fb pol =>
      let cands :=
        (fix go (l : list (Rule V)) : list (Rule V * res (list string * option V)) :=
           match l with
           | [] => []
           | r :: l' => (r, explain_rule r ctx) :: go l'
           end) l in
      tm ← test_candidates (λ c, condition c.1) (λ c, rname c.1)
             (candidate_order (λ c, priority c.1) pol cands) ctx;
      match tm.2 with
      | Some c =>
          pv ← c.2;
          Ok {| matched_rule := Some (rname c.1); path := pv.1;
                tested := tm.1; result := pv.2 |}
      | None =>
          match fb with
          | Some r =>
              pv ← explain_rule r ctx;
              Ok {| matched_rule := Some (rname r); path := pv.1;
                    tested := tm.1 ++ [(rname r ++ ": ✓")%string]; result := pv.2 |}
          | None =>
              Ok {| matched_rule := None; path := []; tested := tm.1; result := None |}
          end
      end
  end.

Definition explain `{FloatRuntime} {V} (rs : RuleSet V) (ctx : Context)
  : res (Explanation V) :=
  normalized ← validate_context rs ctx; explain_set rs normalized.

(** ** Value sets *)

(** Modelled from the spec: [core/values.py] and the two [values.py] of the
    domains are not part of the sources.  Section 2: "ValueSet - per-domain
    symbolic subset representation ... Union, intersection, complement,
    emptiness, equality"; section 4.5: "leaf on the target field -> literal
    ValueSet".  [vs_mem] is the meaning of a set: the domain values it
    holds. *)
Class ValueSet (S : Type) := {
  vs_mem : pyobj -> S -> bool;
  vs_union : S -> S -> S;
  vs_intersection : S -> S -> S;
  vs_complement : S -> S;
  vs_empty : S;
  vs_universe : S;
  vs_is_empty : S -> bool;
  vs_literal : Cond -> S;
}.

(** Modelled from the spec: section 4.3, "DiscreteSet union/intersection =
    set union/intersection; complement = domain.vals − self"; a literal of
    the target field becomes the set of the values it accepts.  The members
    of a Python set are hashable and are told apart by [==]. *)
Definition DiscreteSet (d : DiscreteDomain) : ValueSet (list pyobj) := {|
  vs_mem v s := hashable v && py_in s v;
  vs_union s t := s ++ filter (λ w, py_in s w = false) t;
  vs_intersection s t := filter (λ w, py_in t w = true) s;
  vs_complement s := filter (λ w, py_in s w = false) (vals d);
  vs_empty := [];
  vs_universe := vals d;
  vs_is_empty s := match s with [] => true | _ => false end;
  vs_literal c :=
    match c with
    | Discrete (Equality _ literal) => [literal]
    | Discrete (Membership _ items false) => items
    | Discrete (Membership _ items true) => filter (λ w, py_in items w = false) (vals d)
    | _ => []
    end;
|}.

(** The values of a field's domain, as [normalize_value] returns them: a
    hashable object equal to a member of a discrete domain, a float within
    the bounds of an interval domain. *)
Definition in_domain (f : FieldRef) (v : pyobj) : Prop :=
  match f with
  | DiscreteRef d => hashable v = true ∧ py_in (vals (ddomain d)) v = true
  | IntervalRef i =>
      ∃ q, v = PyFloat (Finite q) ∧
           (dom_lo (idomain i) <= q)%Qc ∧ (q <= dom_hi (idomain i))%Qc
  end.

(** Section 4.3: union, intersection and complement (within the universe)
    are those of sets, and an empty set has no member. *)
Class LawfulValueSet (S : Type) `{ValueSet S} : Prop := {
  mem_empty v : vs_mem v vs_empty = false;
  mem_union v s t : vs_mem v (vs_union s t) = vs_mem v s || vs_mem v t;
  mem_intersection v s t : vs_mem v (vs_intersection s t) = vs_mem v s && vs_mem v t;
  mem_complement v s :
    vs_mem v (vs_complement s) = vs_mem v vs_universe && negb (vs_mem v s);
  is_empty_mem s v : vs_is_empty s = true → vs_mem v s = false;
}.

(** Section 3: a ValueSet is "always a well-formed subset of the
    originating domain's universe", and (glossary) the "exact symbolic
    representation of the subset of a domain satisfying a condition": the
    universe holds the values of the target's domain, and the literal set of
    a leaf on the target holds the values at which the leaf evaluates to
    true. *)
Class ExactValueSet (target : FieldRef) (S : Type) `{ValueSet S} : Prop := {
  exact_lawful :: LawfulValueSet S;
  mem_universe v : vs_mem v vs_universe = true ↔ in_domain target v;
  mem_literal c v (ctx : Context) :
    match c with
    | Discrete d => DiscreteRef (discrete_field d) = target
    | Interval i => IntervalRef (interval_field i) = target
    | _ => False
    end →
    in_domain target v →
    eval c (<[name target := v]> ctx) = Ok (vs_mem v (vs_literal c));
}.

(** ** Analyzer *)

(** What a condition projects to: a boolean or a set of target values. *)
Inductive Projection (S : Type) :=
| PBool (b : bool)
| PSet (s : S).
Arguments PBool {S} b.
Arguments PSet {S} s.

(** Section 3: "by_rule: ordered (index_path, ValueSet, payload)". *)
Record Entry (S V : Type) := {
  index_path : list nat;
  value_set : S;
  payload : V;
}.
Arguments index_path {S V} _.
Arguments value_set {S V} _.
Arguments payload {S V} _.

(** Section 3: "Analysis{by_rule: ...; covered()/uncovered(): aggregate
    native-domain collections}". *)
Record Analysis (S V : Type) := { by_rule : list (Entry S V) }.
Arguments by_rule {S V} _.

Section analyzer.
Context {S : Type} `{ValueSet S}.
Context (target : FieldRef).
(** The boolean taken for a leaf on a field that is neither the target nor
    present in the context (left open by section 9). *)
Context (unresolved : bool).

(** Modelled from the spec: [engines/analyzer.py] is not part of the
    sources.  Section 4.5, [project]: "leaf on a ctx-present field ->
    boolean via eval; leaf on the target field -> literal ValueSet; Not:
    negate boolean, or complement ValueSet; And: True is identity, False
    short-circuits to empty/False; two ValueSets -> intersection; Or: True
    short-circuits to True, False is identity; two ValueSets -> union". *)
Definition project_leaf (c : Cond) (f : FieldRef) (ctx : Context) : res (Projection S) :=
  if bool_decide (f = target) then Ok (PSet (vs_literal c))
  else
    match ctx !! name f with
    | Some _ => b ← eval c ctx; Ok (PBool b)
    | None => Ok (PBool unresolved)
    end.

Fixpoint project (c : Cond) (ctx : Context) : res (Projection S) :=
  match c with
  | Discrete d => project_leaf c (DiscreteRef (discrete_field d)) ctx
  | Interval i => project_leaf c (IntervalRef (interval_field i)) ctx
  | Not a =>
      p ← project a ctx;
      match p with
      | PBool b => Ok (PBool (negb b))
      | PSet s => Ok (PSet (vs_complement s))
      end
  | And a b =>
      p ← project a ctx;
      match p with
      | PBool false => Ok (PBool false)
      | PBool true => project b ctx
      | PSet s =>
          q ← project b ctx;
          match q with
          | PBool false => Ok (PBool false)
          | PBool true => Ok (PSet s)
          | PSet t => Ok (PSet (vs_intersection s t))
          end
      end
  | Or a b =>
      p ← project a ctx;
      match p with
      | PBool true => Ok (PBool true)
      | PBool false => project b ctx
      | PSet s =>
          q ← project b ctx;
          match q with
          | PBool true => Ok (PBool true)
          | PBool false => Ok (PSet s)
          | PSet t => Ok (PSet (vs_union s t))
          end
      end
  | Always => Ok (PBool true)
  end.

(** "boolean False/True map to empty/full-universe ValueSet". *)
Definition to_set (p : Projection S) : S :=
  match p with
  | PBool false => vs_empty
  | PBool true => vs_universe
  | PSet s => s
  end.

(** The raw outcome of a candidate; inside a subtree it is first
    intersected with what the enclosing rule left ([within]). *)
Definition restrict (within : option S) (s : S) : S :=
  match within with
  | None => s
  | Some w => vs_intersection s w
  end.

Definition raw_outcome (c : Cond) (ctx : Context) (within : option S) : res S :=
  p ← project c ctx; Ok (restrict within (to_set p)).

(** [raw − claimed] *)
Definition subtract (raw claimed : S) : S :=
  vs_intersection raw (vs_complement claimed).

(** The claim/subtract cycle over the ordered candidates of one level; a
    candidate is its raw outcome and what it emits for a non-empty
    [remaining]. *)
Fixpoint claim_cycle {E} (cands : list (res S * (S -> res (list E)))) (claimed : S)
  : res (list E) :=
  match cands with
  | [] => Ok []
  | (raw, emit) :: rest =>
      raw ← raw;
      let remaining := subtract raw claimed in
      out ← (if vs_is_empty remaining then Ok [] else emit remaining);
      outs ← claim_cycle rest (vs_union claimed remaining);
      Ok (out ++ outs)
  end.

Fixpoint analyze_rule {V} (r : Rule V) (ctx : Context) (ipath : list nat) (remaining : S)
  : res (list (Entry S V)) :=
  match r with
  | RuleValue _ _ _ v =>
      Ok [{| index_path := ipath; value_set := remaining; payload := v |}]
  | RuleTree _ _ _ sub => analyze_set sub ctx ipath (Some remaining)
  end
with analyze_set {V} (rs : RuleSet V) (ctx : Context) (prefix : list nat)
    (within : option S) : res (list (Entry S V)) :=
  match rs with
  | mkRuleSet l fb pol =>
      let cands :=
        (fix go (i : nat) (l : list (Rule V))
           : list (Rule V * (S -> res (list (Entry S V)))) :=
           match l with
           | [] => []
           | r :: l' => (r, analyze_rule r ctx (prefix ++ [i])) :: go (Datatypes.S i) l'
           end) 0 l in
      let ordered :=
        map (λ c, (raw_outcome (condition c.1) ctx within, c.2))
            (candidate_order (λ c, priority c.1) pol cands) in
      let last :=
        match fb with
        | Some r =>
            [(Ok (restrict within vs_universe),
              analyze_rule r ctx (prefix ++ [length l]))]
        | None => []
        end in
      claim_cycle (ordered ++ last) vs_empty
  end.

(** "covered() = union of every emitted ValueSet across the whole tree;
    uncovered() = target domain universe − covered()". *)
Definition covered {V} (a : Analysis S V) : S :=
  foldr (λ e acc, vs_union (value_set e) acc) vs_empty (by_rule a).

Definition uncovered {V} (a : Analysis S V) : S := vs_complement (covered a).

(** Modelled from the spec: [Analyzer.analyze] (section 4.5, "Inputs: target
    FieldRef; ctx restricted to other fields (target's own entry ...
    ignored)"). *)
Definition analyze {V} (rs : RuleSet V) (ctx : Context) : res (Analysis S V) :=
  entries ← analyze_set rs (delete (name target) ctx) [] None;
  Ok {| by_rule := entries |}.

End analyzer.

(** ** Construction of the leaves *)

(** The arguments a leaf is constructed from. *)
Inductive LeafArgs :=
| BetweenArgs (field : IntervalFieldRef) (lo hi : pyobj) (closed : string)
| GtArgs (field : IntervalFieldRef) (value : pyobj)
| GeArgs (field : IntervalFieldRef) (value : pyobj)
| LtArgs (field : IntervalFieldRef) (value : pyobj)
| LeArgs (field : IntervalFieldRef) (value : pyobj)
| EqualityArgs (field : DiscreteFieldRef) (literal : pyobj)
| MembershipArgs (field : DiscreteFieldRef) (items : list pyobj) (negated : bool).

(** Run the constructor of the leaf. *)
Definition construct `{FloatRuntime} (a : LeafArgs) : res Cond :=
  match a with
  | BetweenArgs f lo hi closed => b ← Between_init f lo hi closed; Ok (Interval (CBetween b))
  | GtArgs f v => c ← Gt_init f v; Ok (Interval c)
  | GeArgs f v => c ← Ge_init f v; Ok (Interval c)
  | LtArgs f v => c ← Lt_init f v; Ok (Interval c)
  | LeArgs f v => c ← Le_init f v; Ok (Interval c)
  | EqualityArgs f v => c ← Equality_init f v; Ok (Discrete c)
  | MembershipArgs f items negated => c ← Membership_init f items negated; Ok (Discrete c)
  end.

(** The comparison literals among the arguments, with the field they are
    compared to. *)
Definition literals (a : LeafArgs) : list (FieldRef * pyobj) :=
  match a with
  | BetweenArgs f lo hi _ => [(IntervalRef f, lo); (IntervalRef f, hi)]
  | GtArgs f v | GeArgs f v | LtArgs f v | LeArgs f v => [(IntervalRef f, v)]
  | EqualityArgs f v => [(DiscreteRef f, v)]
  | MembershipArgs f items _ => map (λ v, (DiscreteRef f, v)) items
  end.

(** The field's domain accepts the literal. *)
Definition valid_literal `{FloatRuntime} (fv : FieldRef * pyobj) : Prop :=
  ∀ r, validate_value fv.1 fv.2 r = Ok tt.

Definition malformed_tag (a : LeafArgs) : Prop :=
  match a with
  | BetweenArgs _ _ _ closed => closed ∉ closed_tags
  | _ => False
  end.

(** [lo > hi] after coercion. *)
Definition bounds_reversed `{FloatRuntime} (a : LeafArgs) : Prop :=
  match a with
  | BetweenArgs f lo hi _ =>
      ∃ l h, coerce f lo LowerBound = Ok l ∧ coerce f hi UpperBound = Ok h ∧ (h < l)%Qc
  | _ => False
  end.

(** The field a leaf refers to. *)
Definition leaf_field (c : Cond) : option FieldRef :=
  match c with
  | Discrete d => Some (DiscreteRef (discrete_field d))
  | Interval i => Some (IntervalRef (interval_field i))
  | _ => None
  end.

(** Section 4.2 in its own words: "leftClosed=tag∈{left,both},
    rightClosed=tag∈{right,both}; leftOk = v>lo if leftClosed else v>=lo;
    rightOk = v<hi if rightClosed else v<=hi; match iff both hold". *)
Definition between_matches (lo hi : Qc) (tag : string) (v : Qc) : Prop :=
  let leftClosed := tag ∈ ["left"; "both"] in
  let rightClosed := tag ∈ ["right"; "both"] in
  ((leftClosed ∧ (lo < v)%Qc) ∨ (¬ leftClosed ∧ (lo <= v)%Qc)) ∧
  ((rightClosed ∧ (v < hi)%Qc) ∨ (¬ rightClosed ∧ (v <= hi)%Qc)).

(** ** Segments *)






(** ** The rule sets of the test-suite *)

Module Fixtures.

(** A runtime for the examples: [float()] reads the strings of unsigned
    decimal digits ([float("75")] is [75.0]) and rejects every other string;
    the decimals of the examples are doubles and convert to themselves. *)
Fixpoint digits_value (s : string) (acc : Z) : option Z :=
  match s with
  | EmptyString => Some acc
  | String a s' =>
      let n := Z.of_nat (Ascii.nat_of_ascii a) in
      if bool_decide (48 ≤ n ≤ 57)%Z then digits_value s' (10 * acc + (n - 48))%Z
      else None
  end.

Definition digits_parser : FloatRuntime := {|
  float_of_str s :=
    match s with
    | EmptyString => None
    | _ => (λ z, Finite (Q2Qc (inject_Z z))) <$> digits_value s 0
    end;
  float_of_decimal q := Finite q;
|}.

Definition num (z : Z) : Qc := Q2Qc (inject_Z z).
Definition fnum (z : Z) : pyobj := PyFloat (Finite (num z)).

(** [tests/credit_scoring.py] *)
Definition credit_score : IntervalFieldRef :=
  {| iname := "credit_score"; idomain := {| dom_lo := num 300; dom_hi := num 850 |} |}.
Definition income_level : DiscreteFieldRef :=
  {| dname := "income_level";
     ddomain := {| vals := [PyStr "LOW"; PyStr "MEDIUM"; PyStr "HIGH"] |} |}.
Definition loan_purpose : DiscreteFieldRef :=
  {| dname := "loan_purpose";
     ddomain := {| vals := [PyStr "MORTGAGE"; PyStr "AUTO"; PyStr "PERSONAL"] |} |}.

(** [field.between(lo, hi, closed)] with integer bounds, as
    [Between.__post_init__] leaves it.  Where a test gives no tag, the
    default of the dataclass, "both", is taken. *)
Definition between (f : IntervalFieldRef) (l h : Z) (tag : string) : Cond :=
  Interval (CBetween {| b_field := f; lo := num l; hi := num h; closed := tag;
                         left_closed := bool_decide (tag ∈ ["left"; "both"]);
                         right_closed := bool_decide (tag ∈ ["right"; "both"]) |}).

Definition equals (f : DiscreteFieldRef) (s : string) : Cond :=
  Discrete (Equality f (PyStr s)).
Definition isin (f : DiscreteFieldRef) (l : list string) : Cond :=
  Discrete (Membership f (PyStr <$> l) false).
Definition notin (f : DiscreteFieldRef) (l : list string) : Cond :=
  Discrete (Membership f (PyStr <$> l) true).

(** [when(cond, name=..., priority=...).then(...)] and [otherwise(...)]. *)
Definition when_value (c : Cond) (n : string) (p : Z) (v : string) : Rule string :=
  RuleValue c n p v.
Definition when_tree (c : Cond) (n : string) (p : Z) (sub : RuleSet string) : Rule string :=
  RuleTree c n p sub.
Definition otherwise (v : string) (n : string) : Rule string :=
  RuleValue Always n 0 v.

(** [build_high_income_ruleset]: [credit_score.between(700, 850)] carries no
    tag.  With the tag "both" a score of 850 falls through to the fallback,
    as [test_explain_nested_fallback] (test_explain.py:57-69) expects of
    [explain]; the case high-income-upper-boundary of test_resolve.py:79-87
    expects the same score to be approved by [resolve], which no tag
    reconciles with the former. *)
Definition high_income_ruleset : RuleSet string :=
  mkRuleSet
    [when_value (between credit_score 700 850 "both") "Top tier approval" 0 "APPROVE 3.5";
     when_value (between credit_score 600 699 "both") "Standard approval" 0 "APPROVE 5.0"]
    (Some (otherwise "REVIEW 7.0" "High income fallback"))
    FIRST_MATCH.

Definition credit_scoring_ruleset : RuleSet string :=
  mkRuleSet
    [when_tree (equals income_level "HIGH") "High income" 0 high_income_ruleset;
     when_value (And (equals income_level "MEDIUM") (equals loan_purpose "MORTGAGE"))
       "Medium mortgage" 0 "APPROVE 4.5";
     when_value (Interval (Lt credit_score (num 500))) "Low credit reject" 0 "REJECT"]
    (Some (otherwise "REVIEW" "Default review"))
    FIRST_MATCH.

Definition ctx_of (l : list (string * pyobj)) : Context := list_to_map l.

(** [tests/test_resolve.py]: the rule set of
    [test_resolve_no_match_raises_lookuperror]. *)
Definition approve_only : RuleSet string :=
  mkRuleSet [when_value (between credit_score 700 850 "both") "" 0 "APPROVE"]
    None FIRST_MATCH.

(** [tests/test_resolve.py]: the two priority rule sets. *)
Definition status : DiscreteFieldRef :=
  {| dname := "status"; ddomain := {| vals := [PyStr "VIP"; PyStr "STD"] |} |}.

Definition priority_ruleset : RuleSet string :=
  mkRuleSet
    [when_value (equals status "VIP") "low" 0 "low";
     when_value (equals status "VIP") "high" 10 "high"]
    None PRIORITY.

Definition equal_priority_ruleset : RuleSet string :=
  mkRuleSet
    [when_value (equals status "VIP") "first" 5 "first";
     when_value (equals status "VIP") "second" 5 "second"]
    None PRIORITY.

(** [tests/test_explain.py]: the rule set of
    [test_explain_no_match_returns_empty_result]. *)
Definition high_income_only : RuleSet string :=
  mkRuleSet
    [when_tree (equals income_level "HIGH") "High income" 0 credit_scoring_ruleset]
    None FIRST_MATCH.

(** A rule set whose only rule leads into a subtree without fallback. *)
Definition nested_gap : RuleSet string :=
  mkRuleSet
    [when_tree (equals income_level "HIGH") "High income" 0 approve_only]
    (Some (otherwise "REVIEW" "Default review"))
    FIRST_MATCH.

(** [tests/test_ctx_validation.py] *)
Definition score : IntervalFieldRef :=
  {| iname := "score"; idomain := {| dom_lo := num 0; dom_hi := num 100 |} |}.
Definition status_level : DiscreteFieldRef :=
  {| dname := "status"; ddomain := {| vals := [PyStr "LOW"; PyStr "HIGH"] |} |}.

Definition score_rules : RuleSet string :=
  mkRuleSet
    [when_value (Interval (Gt score (num 50))) "" 0 "high";
     when_value (equals status_level "HIGH") "" 0 "status"]
    None FIRST_MATCH.

(** [tests/test_analyze.py] *)
Definition country : DiscreteFieldRef :=
  {| dname := "country";
     ddomain := {| vals := [PyStr "US"; PyStr "RU"; PyStr "FR"] |} |}.
Definition program : DiscreteFieldRef :=
  {| dname := "program"; ddomain := {| vals := [PyStr "VIP"; PyStr "STD"] |} |}.

(** The value sets of the target [country]. *)
Definition country_sets : ValueSet (list pyobj) := DiscreteSet (ddomain country).

Definition first_wins : RuleSet string :=
  mkRuleSet
    [when_value (isin country ["US"; "RU"]) "" 0 "A";
     when_value (equals country "US") "" 0 "B"]
    None FIRST_MATCH.

Definition priority_wins : RuleSet string :=
  mkRuleSet
    [when_value (isin country ["US"; "RU"]) "broad" 0 "A";
     when_value (equals country "US") "specific" 10 "B"]
    None PRIORITY.

Definition nested_projection : RuleSet string :=
  mkRuleSet
    [when_tree (equals program "VIP") "" 0
       (mkRuleSet
          [when_value (isin country ["US"; "RU"]) "North" 0 "1";
           when_value (equals country "FR") "French" 0 "2"]
          None FIRST_MATCH);
     when_value (And (equals program "STD") (equals country "FR")) "" 0 "3"]
    None FIRST_MATCH.

Definition with_otherwise : RuleSet string :=
  mkRuleSet [when_value (isin country ["US"; "RU"]) "" 0 "A"]
    (Some (otherwise "DEFAULT" ""))
    FIRST_MATCH.

(** [tests/test_analyze.py]:
    [test_interval_analysis_respects_context_filters]. *)
Definition amount : IntervalFieldRef :=
  {| iname := "amount"; idomain := {| dom_lo := num 0; dom_hi := num 300 |} |}.

Definition amount_rules : RuleSet string :=
  mkRuleSet
    [when_tree (equals program "VIP") "" 0
       (mkRuleSet
          [when_value (between amount 0 100 "right") "" 0 "VIP-LOW";
           when_value (between amount 100 200 "both") "" 0 "VIP-MID"]
          None FIRST_MATCH);
     when_tree (equals program "STD") "" 0
       (mkRuleSet
          [when_value (between amount 50 150 "both") "" 0 "STD-MID";
           when_value (between amount 200 250 "left") "" 0 "STD-HIGH"]
          None FIRST_MATCH)]
    None FIRST_MATCH.




End Fixtures.

(** The field reference that normalizes the key [k]: the first one yielded
    with that name. *)
Definition field_named (fields : list FieldRef) (k : string) : option FieldRef :=
  head (filter (λ f, name f = k) fields).

(** What [validate_context] stores under the key [k] for the caller's value
    [raw]. *)
Definition normalized_as `{FloatRuntime} (fields : list FieldRef) (k : string)
    (raw : pyobj) (v : pyobj) : Prop :=
  match field_named fields k with
  | Some f => normalize_value f raw ContextValue = Ok v
  | None => v = raw
  end.

(** [float()] overflows on no value that the context holds for an interval
    field of [fields]: no such value is an [int] beyond the range of
    doubles. *)
Definition no_float_overflow `{FloatRuntime} (fields : list FieldRef) (ctx : Context)
  : Prop :=
  ∀ i v, IntervalRef i ∈ fields → ctx !! iname i = Some v →
         py_float v ≠ Raise OverflowError.

(** The walk of [resolve_set] ends in a level where no candidate matches
    and there is no fallback: the level itself, or such a level inside the
    subtree of the selected rule. *)
Inductive dead_end {V} (ctx : Context) : RuleSet V → Prop :=
| dead_end_here l pol :
    first_match condition (candidate_order priority pol l) ctx = Ok None →
    dead_end ctx (mkRuleSet l None pol)
| dead_end_below l fb pol c n p sub :
    first_match condition (candidate_order priority pol l) ctx
      = Ok (Some (RuleTree c n p sub)) →
    dead_end ctx sub →
    dead_end ctx (mkRuleSet l fb pol)
| dead_end_fallback l pol c n p sub :
    first_match condition (candidate_order priority pol l) ctx = Ok None →
    dead_end ctx sub →
    dead_end ctx (mkRuleSet l (Some (RuleTree c n p sub)) pol).

(** Section 3: the name of a FieldRef is a "unique string key". *)
Definition unique_names (fields : list FieldRef) : Prop :=
  ∀ f g, f ∈ fields → g ∈ fields → name f = name g → f = g.

(** The trace lines of a level. *)
Definition rejected {V} (r : Rule V) : string := (rname r ++ ": ×")%string.
Definition accepted {V} (r : Rule V) : string := (rname r ++ ": ✓")%string.

(** [explain] and [resolve] walk alike: the explanation carries the payload
    [resolve] returns, has no result where [resolve] raises NoMatch, and
    raises what [resolve] raises otherwise. *)
Definition explains {V A} (r : res V) (e : res A) (result : A → option V) : Prop :=
  match r with
  | Ok v => ∃ a, e = Ok a ∧ result a = Some v
  | Raise LookupError => ∃ a, e = Ok a ∧ result a = None
  | Raise x => e = Raise x
  end.

(** Every interval field that the context binds is bound to a number (as it
    is after [validate_context]), so that comparisons do not raise. *)
Definition numeric_where_interval (fields : list FieldRef) (ctx : Context) : Prop :=
  ∀ i v, IntervalRef i ∈ fields → ctx !! iname i = Some v → ∃ x, as_number v = Ok x.

(** ** Reading an analysis *)

Section analysis_reading.
Context {S : Type} `{ValueSet S} {V : Type}.

(** The value a projection takes at the target value [v]. *)
Definition holds (p : Projection S) (v : pyobj) : bool :=
  match p with
  | PBool b => b
  | PSet s => vs_mem v s
  end.

Definition in_within (v : pyobj) (within : option S) : bool :=
  match within with
  | None => true
  | Some w => vs_mem v w
  end.

(** The entries whose value set holds [v], and their payloads. *)
Definition entries_at (v : pyobj) (out : list (Entry S V)) : list (Entry S V) :=
  filter (λ e, vs_mem v (value_set e) = true) out.

Definition payloads_at (v : pyobj) (out : list (Entry S V)) : list V :=
  payload <$> entries_at v out.

(** What an analysis has to list at a value for which the resolver yields
    [r]. *)
Definition as_list (r : res V) : list V :=
  match r with
  | Ok p => [p]
  | Raise _ => []
  end.

Definition payload_or_no_match (r : res V) : Prop :=
  (∃ p, r = Ok p) ∨ r = Raise LookupError.

(** The payload list of the first candidate that holds at the value. *)
Fixpoint first_hit (sem : list (bool * list V)) : list V :=
  match sem with
  | [] => []
  | (true, X) :: _ => X
  | (false, _) :: rest => first_hit rest
  end.

(** A candidate of the claim cycle: its raw outcome holds [v] iff [hit],
    and for a [remaining] that holds [v] it emits entries with the payloads
    [X] at [v], for any other [remaining] none. *)
Definition candidate_at (v : pyobj) (c : res S * (S → res (list (Entry S V))))
    (hx : bool * list V) : Prop :=
  (∃ raw, c.1 = Ok raw ∧ vs_mem v raw = hx.1) ∧
  ∀ remaining, ∃ out, c.2 remaining = Ok out ∧
    payloads_at v out = if vs_mem v remaining then hx.2 else [].

End analysis_reading.

(** The context fixes every field of [fields] other than the target to a
    value of its domain. *)
Definition fixes_other_fields (target : FieldRef) (fields : list FieldRef)
    (ctx : Context) : Prop :=
  ∀ f, f ∈ fields → f ≠ target →
    ∃ x, delete (name target) ctx !! name f = Some x ∧ in_domain f x.

(** ** Further functions of the sources *)

(** [FieldRef.validate_context] ([core/fields.py]): validate the value the
    context holds for this field, if it holds one. *)
Definition fieldref_validate_context `{FloatRuntime} (self : FieldRef) (ctx : Context)
  : res unit :=
  match ctx !! name self with
  | None => Ok tt
  | Some value => _ ← normalize_value self value ContextValue; Ok tt
  end.
(* ===================================================================== *)
(** * Part II: properties                                                 *)
(* ===================================================================== *)

(** ** Python equality *)

Lemma float_eq_sym x y : float_eq x y = float_eq y x.
Proof.
  destruct x, y; simpl; try done. apply bool_decide_ext. split; by intros ->.
Qed.

Lemma float_eq_trans x y z : float_eq x y = true → float_eq y z = true → float_eq x z = true.
Proof.
  destruct x, y, z; simpl; try done.
  rewrite !bool_decide_eq_true. congruence.
Qed.

Lemma py_eq_sym a b : py_eq a b = py_eq b a.
Proof.
  unfold py_eq. destruct (numeric a), (numeric b); try done.
  - apply float_eq_sym.
  - apply bool_decide_ext. split; by intros ->.
Qed.

Lemma py_eq_trans a b c : py_eq a b = true → py_eq b c = true → py_eq a c = true.
Proof.
  unfold py_eq. destruct (numeric a), (numeric b), (numeric c); try done.
  - apply float_eq_trans.
  - rewrite !bool_decide_eq_true. congruence.
Qed.

(** Equal objects are members of the same containers. *)
Lemma py_in_proper vs v w : py_eq v w = true → py_in vs v = py_in vs w.
Proof.
  intros Hvw. unfold py_in. induction vs as [|u vs IH]; simpl; [done|]. rewrite IH. f_equal.
  destruct (py_eq v u) eqn:Hvu, (py_eq w u) eqn:Hwu; try done.
  - rewrite py_eq_sym in Hvw. by rewrite (py_eq_trans _ _ _ Hvw Hvu) in Hwu.
  - by rewrite (py_eq_trans _ _ _ Hvw Hwu) in Hvu.
Qed.

Lemma py_in_true vs v : py_in vs v = true ↔ ∃ w, w ∈ vs ∧ py_eq v w = true.
Proof.
  unfold py_in. rewrite existsb_exists. setoid_rewrite <- list_elem_of_In. done.
Qed.

Lemma py_in_app vs ws v : py_in (vs ++ ws) v = py_in vs v || py_in ws v.
Proof. unfold py_in. apply existsb_app. Qed.

(** Membership in a selection of a container. *)
Lemma py_in_filter (P : pyobj → bool) vs v :
  (∀ w, py_eq v w = true → P w = P v) →
  py_in (filter (λ w, P w = true) vs) v = py_in vs v && P v.
Proof.
  intros HP. unfold py_in. induction vs as [|u vs IH]; simpl; [done|].
  rewrite filter_cons. destruct (py_eq v u) eqn:Hvu.
  - rewrite <- (HP u Hvu). case_decide as Hu; simpl.
    + by rewrite Hvu, Hu.
    + apply not_true_is_false in Hu. rewrite IH, <- (HP u Hvu), Hu. apply andb_false_r.
  - case_decide; simpl; by rewrite ?Hvu, IH.
Qed.

Lemma py_in_filter_notin ws vs v :
  py_in (filter (λ w, py_in ws w = false) vs) v = py_in vs v && negb (py_in ws v).
Proof.
  rewrite <- (py_in_filter (λ w, negb (py_in ws w))).
  - f_equal. apply list_filter_iff. intros w. by destruct (py_in ws w).
  - intros w Hw. by rewrite (py_in_proper ws v w Hw).
Qed.

(** ** Field references *)

Section field_ref_facts.
Context `{FloatRuntime}.

(** [float()] raises a [TypeError], a [ValueError] or an
    [OverflowError]. *)
Lemma py_float_Raise raw e :
  py_float raw = Raise e →
  e = TypeError ∨ (∃ msg, e = ValueError msg) ∨ e = OverflowError.
Proof.
  destruct raw as [| |z| |[]|s|]; simpl; try done; try (intros [= <-]; eauto).
  - destruct (float_of_int z); [done|]. intros [= <-]. eauto.
  - destruct (float_of_str s); [done|]. intros [= <-]. eauto.
Qed.

(** Only an [int] makes [float()] overflow. *)
Lemma py_float_overflow raw :
  py_float raw = Raise OverflowError ↔ ∃ z, raw = PyInt z ∧ float_of_int z = None.
Proof.
  destruct raw as [| |z| |[]|s|]; simpl;
    try (split; [done | intros (? & ? & _); done]).
  - destruct (float_of_int z) eqn:E; split; try done.
    + intros (z' & [= <-] & ?). congruence.
    + eauto.
  - destruct (float_of_str s); split; try done; intros (? & ? & _); done.
Qed.

Lemma coerce_Ok (f : IntervalFieldRef) raw r q :
  coerce f raw r = Ok q ↔
  py_float raw = Ok (Finite q) ∧
  (dom_lo (idomain f) <= q)%Qc ∧ (q <= dom_hi (idomain f))%Qc.
Proof.
  unfold coerce. destruct (py_float raw) as [[q'| | |]|[]];
    try (split; [done | intros [? _]; done]).
  rewrite !Qcle_ngt. destruct (bool_decide_reflect (q' < dom_lo (idomain f))%Qc) as [Hlo|Hlo];
    destruct (bool_decide_reflect (dom_hi (idomain f) < q')%Qc) as [Hhi|Hhi]; simpl;
    (split; [intros [= <-] | intros ([= <-] & ? & ?)]); done.
Qed.

(** The three ways [coerce] fails. *)
Lemma coerce_Raise (f : IntervalFieldRef) raw r e :
  coerce f raw r = Raise e →
  e = ValueError (NotNumeric r raw (iname f)) ∧
    (py_float raw = Raise TypeError ∨ (∃ msg, py_float raw = Raise (ValueError msg)) ∨
     py_float raw = Ok NaN ∨ py_float raw = Ok PInf ∨ py_float raw = Ok NInf)
  ∨ e = ValueError (OutsideRange r raw (iname f)) ∧
    (∃ q, py_float raw = Ok (Finite q) ∧
          ((q < dom_lo (idomain f))%Qc ∨ (dom_hi (idomain f) < q)%Qc))
  ∨ e = OverflowError ∧ py_float raw = Raise OverflowError.
Proof.
  unfold coerce. destruct (py_float raw) as [[q'| | |]|e'] eqn:E.
  - destruct (bool_decide_reflect (q' < dom_lo (idomain f))%Qc) as [Hlo|Hlo];
      destruct (bool_decide_reflect (dom_hi (idomain f) < q')%Qc) as [Hhi|Hhi]; simpl;
      intros [= <-]; right; left; eauto.
  - intros [= <-]. left. naive_solver.
  - intros [= <-]. left. naive_solver.
  - intros [= <-]. left. naive_solver.
  - destruct (py_float_Raise raw e' E) as [->|[[msg ->]| ->]]; intros [= <-].
    + left. naive_solver.
    + left. naive_solver.
    + right; right. done.
Qed.

(** Apart from the overflow of [float()], every failure of [coerce] is an
    InvalidValue. *)
Lemma coerce_InvalidValue (f : IntervalFieldRef) raw r e :
  coerce f raw r = Raise e → InvalidValue e ∨ e = OverflowError.
Proof. intros [[-> _]|[[-> _]|[-> _]]]%coerce_Raise; simpl; eauto. Qed.

Lemma coerce_overflow (f : IntervalFieldRef) raw r :
  coerce f raw r = Raise OverflowError ↔ py_float raw = Raise OverflowError.
Proof.
  split.
  - intros [[? _]|[[? _]|[_ ?]]]%coerce_Raise; done.
  - unfold coerce. by intros ->.
Qed.

Lemma discrete_validate_value_Ok (f : DiscreteFieldRef) v r :
  discrete_validate_value f v r = Ok tt ↔ contains (vals (ddomain f)) v = Ok true.
Proof.
  unfold discrete_validate_value, contains.
  destruct (hashable v); [|naive_solver]. destruct (py_in _ v); naive_solver.
Qed.

Lemma contains_true vs v :
  contains vs v = Ok true ↔ hashable v = true ∧ py_in vs v = true.
Proof.
  unfold contains. destruct (hashable v); [|naive_solver].
  destruct (py_in vs v); naive_solver.
Qed.

Lemma discrete_validate_value_Raise (f : DiscreteFieldRef) v r e :
  discrete_validate_value f v r = Raise e →
  e = ValueError (NotAllowed r v (dname f)).
Proof.
  unfold discrete_validate_value, contains.
  destruct (hashable v); [destruct (py_in _ v)|]; naive_solver.
Qed.

(** C7.  [coerce] does not turn every failure of [float()] into an
    InvalidValue: an [int] beyond the range of doubles makes [float()] raise
    [OverflowError], which the [try] of [coerce] does not catch; so [coerce]
    and [normalize_value] raise [OverflowError], which is no InvalidValue,
    whatever the field, its bounds and the role. *)
Theorem C7_coerce_overflow (f : IntervalFieldRef) (z : Z) (r : role) :
  float_of_int z = None →
  py_float (PyInt z) = Raise OverflowError ∧
  coerce f (PyInt z) r = Raise OverflowError ∧
  interval_normalize_value f (PyInt z) r = Raise OverflowError ∧
  ¬ InvalidValue OverflowError.
Proof.
  intros Hz.
  assert (py_float (PyInt z) = Raise OverflowError) as Hf by (simpl; by rewrite Hz).
  assert (coerce f (PyInt z) r = Raise OverflowError) as Hc by (by apply coerce_overflow).
  split_and!; [done..| |by intros []].
  unfold interval_normalize_value. by rewrite Hc.
Qed.

End field_ref_facts.

(** ** Conditions *)

Section condition_facts.
Context `{FloatRuntime}.

Lemma coerce_role (f : IntervalFieldRef) raw r r' q :
  coerce f raw r = Ok q → coerce f raw r' = Ok q.
Proof. rewrite !coerce_Ok. done. Qed.

Lemma interval_valid_literal (f : IntervalFieldRef) raw :
  valid_literal (IntervalRef f, raw) ↔ ∃ q, coerce f raw ConditionValue = Ok q.
Proof.
  unfold valid_literal, validate_value, interval_validate_value; simpl. split.
  - intros Hv. specialize (Hv ConditionValue).
    destruct (coerce f raw ConditionValue); [eauto | done].
  - intros [q Hq] r. by rewrite (coerce_role _ _ _ r _ Hq).
Qed.

Lemma discrete_valid_literal (f : DiscreteFieldRef) v :
  valid_literal (DiscreteRef f, v) ↔ discrete_validate_value f v ConditionValue = Ok tt.
Proof.
  unfold valid_literal; simpl. split; [done|].
  intros Hv r. apply discrete_validate_value_Ok. by apply discrete_validate_value_Ok in Hv.
Qed.

Lemma Between_init_Ok (f : IntervalFieldRef) olo ohi tag b :
  Between_init f olo ohi tag = Ok b ↔
  tag ∈ closed_tags ∧
  coerce f olo LowerBound = Ok (lo b) ∧
  coerce f ohi UpperBound = Ok (hi b) ∧
  (lo b <= hi b)%Qc ∧
  b_field b = f ∧ closed b = tag ∧
  left_closed b = bool_decide (tag ∈ ["left"; "both"]) ∧
  right_closed b = bool_decide (tag ∈ ["right"; "both"]).
Proof.
  unfold Between_init. case_bool_decide as Htag.
  { split; [done | intros [? _]; done]. }
  try apply dec_stable in Htag.
  destruct (coerce f olo LowerBound) as [l|e]; simpl; [|naive_solver].
  destruct (coerce f ohi UpperBound) as [h|e]; simpl; [|naive_solver].
  case_bool_decide as Hlt.
  - split; [done|]. intros (_ & [= ->] & [= ->] & Hle & _).
    by apply Qcle_ngt in Hle.
  - apply Qcle_ngt in Hlt. split.
    + intros [= <-]; simpl. done.
    + intros (_ & [= ->] & [= ->] & _ & <- & <- & Hl & Hr).
      destruct b; simpl in *; by subst.
Qed.

Lemma Between_init_Raise (f : IntervalFieldRef) olo ohi tag e :
  Between_init f olo ohi tag = Raise e →
  ((tag ∉ closed_tags) ∧ e = ValueError (InvalidClosed tag (iname f))) ∨
  (tag ∈ closed_tags ∧ coerce f olo LowerBound = Raise e) ∨
  (tag ∈ closed_tags ∧ (∃ l, coerce f olo LowerBound = Ok l) ∧
     coerce f ohi UpperBound = Raise e) ∨
  (tag ∈ closed_tags ∧ e = ValueError (BoundsReversed olo ohi (iname f)) ∧
     ∃ l h, coerce f olo LowerBound = Ok l ∧ coerce f ohi UpperBound = Ok h ∧ (h < l)%Qc).
Proof.
  unfold Between_init. case_bool_decide as Htag.
  { intros [= <-]. by left. }
  try apply dec_stable in Htag.
  destruct (coerce f olo LowerBound) as [l|e']; simpl; [|intros [= <-]; right; by left].
  destruct (coerce f ohi UpperBound) as [h|e']; simpl;
    [|intros [= <-]; right; right; left; eauto].
  case_bool_decide; [|done]. intros [= <-]. right; right; right. eauto 10.
Qed.

Lemma validate_items_Ok (f : DiscreteFieldRef) items :
  validate_items f items = Ok tt ↔
  Forall (λ v, discrete_validate_value f v ConditionValue = Ok tt) items.
Proof.
  induction items as [|v items IH]; simpl.
  - split; [constructor | done].
  - rewrite Forall_cons, <- IH.
    destruct (discrete_validate_value f v ConditionValue) as [[]|]; simpl; naive_solver.
Qed.

Lemma validate_items_Raise (f : DiscreteFieldRef) items e :
  validate_items f items = Raise e → InvalidValue e.
Proof.
  induction items as [|v items IH]; simpl; [done|].
  destruct (discrete_validate_value f v ConditionValue) as [[]|e'] eqn:E; simpl; [done|].
  intros [= <-]. by apply discrete_validate_value_Raise in E as ->.
Qed.

Lemma validate_items_Raise_elem (f : DiscreteFieldRef) items e :
  validate_items f items = Raise e →
  ∃ v, v ∈ items ∧ discrete_validate_value f v ConditionValue ≠ Ok tt.
Proof.
  induction items as [|v items IH]; simpl; [done|].
  destruct (discrete_validate_value f v ConditionValue) as [[]|e'] eqn:E; simpl.
  - intros (w & Hw & Hbad)%IH. exists w. split; [by right | done].
  - intros _. exists v. split; [by left | congruence].
Qed.

Lemma as_number_Raise v e :
  as_number v = Raise e → e = TypeError ∨ e = InvalidOperation.
Proof. destruct v as [| | | |[]| |]; simpl; naive_solver. Qed.

(** A number other than the NaN of [Decimal] is compared as itself. *)
Lemma as_number_finite v q : as_number v = Ok (Finite q) ↔ numeric v = Some (Finite q).
Proof. destruct v as [| | | |[]| |]; simpl; naive_solver. Qed.

(** What an interval condition raises is what the comparison of the context
    value raises. *)
Lemma interval_eval_Raise (c : IntervalCond) (ctx : Context) e :
  interval_eval c ctx = Raise e →
  ∃ v, ctx !! iname (interval_field c) = Some v ∧ as_number v = Raise e.
Proof.
  destruct c as [b| | | |]; simpl; unfold Between_eval;
    (destruct (ctx !! _) as [v|]; [|done]);
    unfold py_gt, py_ge, py_lt, py_le; destruct (as_number v) as [x|e'] eqn:E; simpl;
    try (destruct (left_closed b), (right_closed b); simpl); naive_solver.
Qed.

(** Evaluation has no [raise ValueError]: the only exceptions it can
    propagate are those of a comparison. *)
Lemma interval_eval_no_ValueError (c : IntervalCond) ctx msg :
  interval_eval c ctx ≠ Raise (ValueError msg).
Proof.
  intros (v & _ & [?|?]%as_number_Raise)%interval_eval_Raise; done.
Qed.

(** The exceptions of evaluation are those of the comparisons. *)
Lemma eval_Raise (c : Cond) (ctx : Context) e :
  eval c ctx = Raise e → e = TypeError ∨ e = InvalidOperation.
Proof.
  induction c as [d|i|a IHa b IHb|a IHa b IHb|a IHa|]; simpl; try done.
  - destruct d; simpl; by destruct (ctx !! _).
  - by intros (v & _ & ?%as_number_Raise)%interval_eval_Raise.
  - destruct (eval a ctx) as [[]|]; simpl; naive_solver.
  - destruct (eval a ctx) as [[]|]; simpl; naive_solver.
  - destruct (eval a ctx) as [[]|]; simpl; naive_solver.
Qed.

Lemma eval_no_ValueError (c : Cond) ctx msg :
  eval c ctx ≠ Raise (ValueError msg).
Proof. by intros [?|?]%eval_Raise. Qed.

(** C2.  For a [Between] built from bounds lo<=hi and a tag in
    {both,left,right,none}, and a context binding the field to a number v,
    [eval] returns a boolean, which is true exactly when leftOk and rightOk
    hold, a side whose tag says "closed" being compared strictly. *)
Theorem C2_between_eval (f : IntervalFieldRef) olo ohi tag b (ctx : Context) v q :
  Between_init f olo ohi tag = Ok b →
  ctx !! iname f = Some v →
  as_number v = Ok (Finite q) →
  (lo b <= hi b)%Qc ∧ tag ∈ closed_tags ∧
  (∃ answer, Between_eval b ctx = Ok answer) ∧
  (Between_eval b ctx = Ok true ↔ between_matches (lo b) (hi b) tag q) ∧
  (Between_eval b ctx = Ok true ↔
     (if bool_decide (tag ∈ ["left"; "both"]) then lo b < q else lo b <= q)%Qc ∧
     (if bool_decide (tag ∈ ["right"; "both"]) then q < hi b else q <= hi b)%Qc).
Proof.
  intros (Htag & _ & _ & Hle & <- & <- & Hl & Hr)%Between_init_Ok Hv Hq.
  split_and!; [done..| | |];
    unfold Between_eval, between_matches; rewrite Hv, Hl, Hr;
    unfold py_gt, py_ge, py_lt, py_le; rewrite Hq; simpl.
  - do 2 case_bool_decide; simpl; eauto.
  - do 2 (case_bool_decide; simpl);
      repeat (match goal with |- context [bool_decide ?P] => destruct (bool_decide_reflect P) end);
      simpl; naive_solver.
  - do 2 (case_bool_decide; simpl);
      repeat (match goal with |- context [bool_decide ?P] => destruct (bool_decide_reflect P) end);
      simpl; naive_solver.
Qed.

(** C8.  A leaf whose field is absent from the context evaluates to false
    and raises nothing. *)
Theorem C8_missing_field_is_false (c : Cond) (f : FieldRef) (ctx : Context) :
  leaf_field c = Some f →
  ctx !! name f = None →
  eval c ctx = Ok false.
Proof.
  destruct c as [d|i| | | |]; simpl; try done; intros [= <-]; simpl.
  - destruct d; simpl; by intros ->.
  - destruct i; simpl; unfold Between_eval; by intros ->.
Qed.

(** X24.  Constructing a leaf validates every comparison literal against
    the field's domain: a constructed leaf has valid literals, construction
    fails exactly for an invalid literal, a malformed boundary tag or reversed
    bounds, a failure is an InvalidValue, an InvalidCondition or the
    [OverflowError] of [float()], and evaluation never raises a validation
    error. *)
Theorem X24_literals_validated_at_construction (a : LeafArgs) :
  (∀ c, construct a = Ok c →
     Forall valid_literal (literals a) ∧ ¬ malformed_tag a ∧ ¬ bounds_reversed a) ∧
  (∀ e, construct a = Raise e →
     InvalidValue e ∨ InvalidCondition e ∨
     e = OverflowError ∧ Exists (λ fv, py_float fv.2 = Raise OverflowError) (literals a)) ∧
  ((∃ e, construct a = Raise e) ↔
     Exists (λ fv, ¬ valid_literal fv) (literals a) ∨ malformed_tag a ∨ bounds_reversed a) ∧
  (∀ c (ctx : Context) msg, eval c ctx ≠ Raise (ValueError msg)).
Proof.
  assert (Hok : ∀ c, construct a = Ok c →
     Forall valid_literal (literals a) ∧ ¬ malformed_tag a ∧ ¬ bounds_reversed a).
  { intros c. destruct a as [f olo ohi tag|f v|f v|f v|f v|f v|f items neg]; simpl.
    - destruct (Between_init f olo ohi tag) as [b|] eqn:E; [|done]. intros _.
      apply Between_init_Ok in E as (Htag & Hlo & Hhi & Hle & _).
      split_and!.
      + repeat constructor; apply interval_valid_literal;
          eauto using coerce_role.
      + by intros ?.
      + intros (l & h & Hl & Hh & Hlt). rewrite Hlo in Hl. rewrite Hhi in Hh.
        simplify_eq. apply Qclt_nge in Hlt. contradiction.
    - unfold Gt_init. destruct (coerce f v ConditionValue) eqn:E; [|done]. intros _.
      split_and!; [|intros []..]. repeat constructor. apply interval_valid_literal. eauto.
    - unfold Ge_init. destruct (coerce f v ConditionValue) eqn:E; [|done]. intros _.
      split_and!; [|intros []..]. repeat constructor. apply interval_valid_literal. eauto.
    - unfold Lt_init. destruct (coerce f v ConditionValue) eqn:E; [|done]. intros _.
      split_and!; [|intros []..]. repeat constructor. apply interval_valid_literal. eauto.
    - unfold Le_init. destruct (coerce f v ConditionValue) eqn:E; [|done]. intros _.
      split_and!; [|intros []..]. repeat constructor. apply interval_valid_literal. eauto.
    - unfold Equality_init.
      destruct (discrete_validate_value f v ConditionValue) as [[]|] eqn:E; [|done]. intros _.
      split_and!; [|intros []..]. repeat constructor. by apply discrete_valid_literal.
    - unfold Membership_init. destruct (validate_items f items) as [[]|] eqn:E; [|done].
      intros _. split_and!; [|intros []..].
      apply validate_items_Ok in E. apply Forall_map.
      eapply Forall_impl; [exact E|]. intros v Hv. by apply discrete_valid_literal. }
  assert (Hraise : ∀ e, construct a = Raise e →
     (InvalidValue e ∨ InvalidCondition e ∨
      e = OverflowError ∧ Exists (λ fv, py_float fv.2 = Raise OverflowError) (literals a)) ∧
     (Exists (λ fv, ¬ valid_literal fv) (literals a) ∨ malformed_tag a ∨ bounds_reversed a)).
  { intros e. destruct a as [f olo ohi tag|f v|f v|f v|f v|f v|f items neg]; simpl.
    - destruct (Between_init f olo ohi tag) as [|e'] eqn:E; [done|]. intros [= <-].
      apply Between_init_Raise in E
        as [[? ->]|[[? E]|[(? & [l Hl] & E)|(? & -> & Hrev)]]].
      + split; [by right; left | by right; left].
      + split.
        * destruct (coerce_InvalidValue _ _ _ _ E) as [?| ->]; [by left|].
          right; right. split; [done|]. apply Exists_cons_hd. by apply coerce_overflow in E.
        * left. apply Exists_cons_hd. rewrite interval_valid_literal. intros [q Hq].
          apply (coerce_role _ _ _ LowerBound) in Hq. congruence.
      + split.
        * destruct (coerce_InvalidValue _ _ _ _ E) as [?| ->]; [by left|].
          right; right. split; [done|]. apply Exists_cons_tl, Exists_cons_hd.
          by apply coerce_overflow in E.
        * left. apply Exists_cons_tl, Exists_cons_hd. rewrite interval_valid_literal.
          intros [q Hq]. apply (coerce_role _ _ _ UpperBound) in Hq. congruence.
      + split; [by right; left | by right; right].
    - unfold Gt_init. destruct (coerce f v ConditionValue) as [|e'] eqn:E; [done|].
      intros [= <-]. split.
      + destruct (coerce_InvalidValue _ _ _ _ E) as [?| ->]; [by left|].
        right; right. split; [done|]. apply Exists_cons_hd. by apply coerce_overflow in E.
      + left. apply Exists_cons_hd. rewrite interval_valid_literal. intros [q Hq]. congruence.
    - unfold Ge_init. destruct (coerce f v ConditionValue) as [|e'] eqn:E; [done|].
      intros [= <-]. split.
      + destruct (coerce_InvalidValue _ _ _ _ E) as [?| ->]; [by left|].
        right; right. split; [done|]. apply Exists_cons_hd. by apply coerce_overflow in E.
      + left. apply Exists_cons_hd. rewrite interval_valid_literal. intros [q Hq]. congruence.
    - unfold Lt_init. destruct (coerce f v ConditionValue) as [|e'] eqn:E; [done|].
      intros [= <-]. split.
      + destruct (coerce_InvalidValue _ _ _ _ E) as [?| ->]; [by left|].
        right; right. split; [done|]. apply Exists_cons_hd. by apply coerce_overflow in E.
      + left. apply Exists_cons_hd. rewrite interval_valid_literal. intros [q Hq]. congruence.
    - unfold Le_init. destruct (coerce f v ConditionValue) as [|e'] eqn:E; [done|].
      intros [= <-]. split.
      + destruct (coerce_InvalidValue _ _ _ _ E) as [?| ->]; [by left|].
        right; right. split; [done|]. apply Exists_cons_hd. by apply coerce_overflow in E.
      + left. apply Exists_cons_hd. rewrite interval_valid_literal. intros [q Hq]. congruence.
    - unfold Equality_init.
      destruct (discrete_validate_value f v ConditionValue) as [|e'] eqn:E; [done|].
      intros [= <-]. split.
      + left. by apply discrete_validate_value_Raise in E as ->.
      + left. apply Exists_cons_hd. rewrite discrete_valid_literal. congruence.
    - unfold Membership_init. destruct (validate_items f items) as [|e'] eqn:E; [done|].
      intros [= <-]. split.
      + left. by apply validate_items_Raise in E.
      + left. apply Exists_exists.
        apply validate_items_Raise_elem in E as (v & Hin & Hv).
        exists (DiscreteRef f, v). split; [apply list_elem_of_fmap; by exists v|].
        by rewrite discrete_valid_literal. }
  split_and!.
  - exact Hok.
  - intros e He. by apply Hraise in He as [? _].
  - split.
    + intros [e He]. by apply Hraise in He as [_ ?].
    + intros Hbad. destruct (construct a) as [c|e] eqn:E; [|eauto].
      destruct (Hok c eq_refl) as (Hall & Htag & Hrev).
      destruct Hbad as [Hex|[?|?]]; [|done..].
      apply Exists_exists in Hex as (fv & Hin & Hfv).
      rewrite Forall_forall in Hall. by apply Hall in Hin.
  - intros c ctx msg. apply eval_no_ValueError.
Qed.

(** C6.  Construction does not fail with InvalidValue or
    InvalidCondition for every literal outside the domain: a literal that is
    an [int] beyond the range of doubles is not valid for the field, and the
    constructors of [Between] (whatever the other bound and the well-formed
    tag) and of [Gt], [Ge], [Lt] and [Le] raise the [OverflowError] of
    [float()], which is neither. *)
Theorem C6_overflowing_literal (f : IntervalFieldRef) (z : Z) (other : pyobj) (tag : string) :
  float_of_int z = None →
  tag ∈ closed_tags →
  ¬ valid_literal (IntervalRef f, PyInt z) ∧
  construct (BetweenArgs f (PyInt z) other tag) = Raise OverflowError ∧
  (∀ a, a ∈ [GtArgs f (PyInt z); GeArgs f (PyInt z); LtArgs f (PyInt z); LeArgs f (PyInt z)] →
        construct a = Raise OverflowError) ∧
  ¬ InvalidValue OverflowError ∧ ¬ InvalidCondition OverflowError.
Proof.
  intros Hz Htag.
  assert (∀ r, coerce f (PyInt z) r = Raise OverflowError) as Hc.
  { intros r. apply coerce_overflow. simpl. by rewrite Hz. }
  split_and!; [| | |by intros []..].
  - intros Hv. specialize (Hv ConditionValue). simpl in Hv.
    unfold interval_validate_value in Hv. by rewrite Hc in Hv.
  - simpl. unfold Between_init. rewrite bool_decide_eq_false_2 by (by intros ?).
    by rewrite Hc.
  - intros a Ha. repeat (apply elem_of_cons in Ha as [->|Ha]);
      [..|by apply not_elem_of_nil in Ha]; simpl;
      unfold Gt_init, Ge_init, Lt_init, Le_init; by rewrite Hc.
Qed.

End condition_facts.

(** ** Rule sets: induction and the walk *)

Section ruleset_induction.
Context {V : Type} (P : RuleSet V → Prop) (Q : Rule V → Prop).
Hypothesis HValue : ∀ c n p v, Q (RuleValue c n p v).
Hypothesis HTree : ∀ c n p sub, P sub → Q (RuleTree c n p sub).
Hypothesis HSet : ∀ l fb pol,
  Forall Q l → from_option Q True fb → P (mkRuleSet l fb pol).

Fixpoint Rule_ind' (r : Rule V) : Q r :=
  match r with
  | RuleValue c n p v => HValue c n p v
  | RuleTree c n p sub => HTree c n p sub (RuleSet_ind' sub)
  end
with RuleSet_ind' (rs : RuleSet V) : P rs :=
  match rs with
  | mkRuleSet l fb pol =>
      HSet l fb pol
        ((fix go (l : list (Rule V)) : Forall Q l :=
            match l with
            | [] => @List.Forall_nil _ Q
            | r :: l' => @List.Forall_cons _ Q r l' (Rule_ind' r) (go l')
            end) l)
        (match fb return from_option Q True fb with
         | Some r => Rule_ind' r
         | None => I
         end)
  end.

End ruleset_induction.

Section order_facts.
Context {A : Type} (key : A → Z).

Lemma insert_by_priority_Permutation x (l : list A) :
  insert_by_priority key x l ≡ₚ x :: l.
Proof.
  induction l as [|y l IH]; simpl; [done|].
  case_bool_decide; [done|]. rewrite IH. apply Permutation_swap.
Qed.

Lemma sort_by_priority_Permutation (l : list A) : sort_by_priority key l ≡ₚ l.
Proof.
  induction l as [|x l IH]; simpl; [done|].
  by rewrite insert_by_priority_Permutation, IH.
Qed.

(** Descending order of the priorities. *)
Definition descending (a b : A) : Prop := (key b ≤ key a)%Z.

Lemma insert_by_priority_sorted x (l : list A) :
  StronglySorted descending l → StronglySorted descending (insert_by_priority key x l).
Proof.
  induction 1 as [|y l Hl IH Hy]; simpl; [repeat constructor|].
  case_bool_decide as Hxy.
  - constructor; [by constructor|]. constructor; [done|].
    eapply Forall_impl; [exact Hy|]. unfold descending. intros z ?. lia.
  - constructor; [done|].
    rewrite insert_by_priority_Permutation. constructor; [|done].
    unfold descending. lia.
Qed.

Lemma sort_by_priority_sorted (l : list A) :
  StronglySorted descending (sort_by_priority key l).
Proof.
  induction l as [|x l IH]; simpl; [constructor|]. by apply insert_by_priority_sorted.
Qed.

(** Stability: the candidates of one priority keep their declaration
    order. *)
Lemma insert_by_priority_filter p x (l : list A) :
  StronglySorted descending l →
  filter (λ a, key a = p) (insert_by_priority key x l)
  = filter (λ a, key a = p) (x :: l).
Proof.
  induction 1 as [|y l Hl IH Hy]; simpl; [done|].
  case_bool_decide as Hxy; [done|].
  rewrite !filter_cons. rewrite IH. rewrite !filter_cons.
  destruct (decide (key y = p)) as [Hyp|Hyp], (decide (key x = p)) as [Hxp|Hxp]; try done.
  lia.
Qed.

Lemma sort_by_priority_stable p (l : list A) :
  filter (λ a, key a = p) (sort_by_priority key l) = filter (λ a, key a = p) l.
Proof.
  induction l as [|x l IH]; simpl; [done|].
  rewrite insert_by_priority_filter by apply sort_by_priority_sorted.
  by rewrite !filter_cons, IH.
Qed.

Lemma candidate_order_Permutation pol (l : list A) : candidate_order key pol l ≡ₚ l.
Proof. destruct pol; simpl; [done | apply sort_by_priority_Permutation]. Qed.

End order_facts.

Section order_map.
Context {A B : Type} (f : A → B) (key : B → Z).

Lemma insert_by_priority_map x (l : list A) :
  insert_by_priority key (f x) (map f l) = map f (insert_by_priority (key ∘ f) x l).
Proof.
  induction l as [|y l IH]; simpl; [done|].
  case_bool_decide; simpl; [done|]. by rewrite IH.
Qed.

Lemma sort_by_priority_map (l : list A) :
  sort_by_priority key (map f l) = map f (sort_by_priority (key ∘ f) l).
Proof.
  induction l as [|x l IH]; simpl; [done|]. by rewrite IH, insert_by_priority_map.
Qed.

Lemma candidate_order_map pol (l : list A) :
  candidate_order key pol (map f l) = map f (candidate_order (key ∘ f) pol l).
Proof. destruct pol; simpl; [done | apply sort_by_priority_map]. Qed.

Lemma first_match_map (cond : B → Cond) (l : list A) ctx :
  first_match cond (map f l) ctx
  = match first_match (cond ∘ f) l ctx with
    | Ok o => Ok (f <$> o)
    | Raise e => Raise e
    end.
Proof.
  induction l as [|x l IH]; simpl; [done|].
  destruct (eval (cond (f x)) ctx) as [[]|]; simpl; [done| |done].
  by rewrite IH.
Qed.

Lemma test_candidates_map (cond : B → Cond) (nm : B → string) (l : list A) ctx :
  test_candidates cond nm (map f l) ctx
  = match test_candidates (cond ∘ f) (nm ∘ f) l ctx with
    | Ok tm => Ok (tm.1, f <$> tm.2)
    | Raise e => Raise e
    end.
Proof.
  induction l as [|x l IH]; simpl; [done|].
  destruct (eval (cond (f x)) ctx) as [[]|]; simpl; [done| |done].
  rewrite IH. by destruct (test_candidates (cond ∘ f) (nm ∘ f) l ctx) as [[??]|].
Qed.

End order_map.

(** What the first match of a walk is: the candidates before it evaluate
    to false, the match to true. *)
Lemma first_match_Some {A} (cond : A → Cond) (l : list A) ctx x :
  first_match cond l ctx = Ok (Some x) ↔
  ∃ pre post, l = pre ++ x :: post ∧
              Forall (λ y, eval (cond y) ctx = Ok false) pre ∧
              eval (cond x) ctx = Ok true.
Proof.
  induction l as [|y l IH]; simpl.
  - split; [done|]. intros (pre & post & E & _). by destruct pre.
  - destruct (eval (cond y) ctx) as [[]|e] eqn:Ey; simpl.
    + split.
      * intros [= ->]. exists [], l. by repeat split.
      * intros ([|z pre] & post & E & Hpre & Hx); simplify_eq/=; [done|].
        apply Forall_cons in Hpre as [? _]. congruence.
    + rewrite IH. split.
      * intros (pre & post & -> & Hpre & Hx). exists (y :: pre), post.
        split_and!; [done| by constructor | done].
      * intros ([|z pre] & post & E & Hpre & Hx); simplify_eq/=; [congruence|].
        apply Forall_cons in Hpre as [_ ?]. eauto.
    + split; [done|].
      intros ([|z pre] & post & E & Hpre & Hx); simplify_eq/=; [congruence|].
      apply Forall_cons in Hpre as [? _]. congruence.
Qed.

Lemma first_match_None {A} (cond : A → Cond) (l : list A) ctx :
  first_match cond l ctx = Ok None ↔ Forall (λ y, eval (cond y) ctx = Ok false) l.
Proof.
  induction l as [|y l IH]; simpl; [by split; [constructor|]|].
  rewrite Forall_cons.
  destruct (eval (cond y) ctx) as [[]|e] eqn:Ey; simpl; [naive_solver| |naive_solver].
  rewrite IH. naive_solver.
Qed.

Section resolver_facts.
Context {V : Type}.

(** The walk of [resolve_set] read on the rules themselves. *)
Lemma resolve_set_unfold (l : list (Rule V)) fb pol ctx :
  resolve_set (mkRuleSet l fb pol) ctx =
  m ← first_match condition (candidate_order priority pol l) ctx;
  match m with
  | Some r => resolve_rule r ctx
  | None =>
      match fb with
      | Some r => resolve_rule r ctx
      | None => Raise LookupError
      end
  end.
Proof.
  simpl.
  replace ((fix go (l0 : list (Rule V)) : list (Rule V * res V) :=
             match l0 with
             | [] => []
             | r :: l' => (r, resolve_rule r ctx) :: go l'
             end) l)
    with (map (λ r, (r, resolve_rule r ctx)) l) by (induction l; simpl; congruence).
  rewrite (candidate_order_map (λ r, (r, resolve_rule r ctx)) (λ c, priority c.1)).
  rewrite (first_match_map (λ r, (r, resolve_rule r ctx)) (λ c, condition c.1)).
  unfold compose; simpl.
  change (λ x : Rule V, condition x) with (@condition V).
  change (λ x : Rule V, priority x) with (@priority V).
  by destruct (first_match condition (candidate_order priority pol l) ctx) as [[r|]|].
Qed.

Lemma explain_set_unfold (l : list (Rule V)) fb pol ctx :
  explain_set (mkRuleSet l fb pol) ctx =
  tm ← test_candidates condition rname (candidate_order priority pol l) ctx;
  match tm.2 with
  | Some r =>
      pv ← explain_rule r ctx;
      Ok {| matched_rule := Some (rname r); path := pv.1;
            tested := tm.1; result := pv.2 |}
  | None =>
      match fb with
      | Some r =>
          pv ← explain_rule r ctx;
          Ok {| matched_rule := Some (rname r); path := pv.1;
                tested := tm.1 ++ [(rname r ++ ": ✓")%string]; result := pv.2 |}
      | None =>
          Ok {| matched_rule := None; path := []; tested := tm.1; result := None |}
      end
  end.
Proof.
  simpl.
  replace ((fix go (l0 : list (Rule V)) : list (Rule V * res (list string * option V)) :=
             match l0 with
             | [] => []
             | r :: l' => (r, explain_rule r ctx) :: go l'
             end) l)
    with (map (λ r, (r, explain_rule r ctx)) l) by (induction l; simpl; congruence).
  rewrite (candidate_order_map (λ r, (r, explain_rule r ctx)) (λ c, priority c.1)).
  rewrite (test_candidates_map (λ r, (r, explain_rule r ctx))
             (λ c, condition c.1) (λ c, rname c.1)).
  unfold compose; simpl.
  change (λ x : Rule V, condition x) with (@condition V).
  change (λ x : Rule V, priority x) with (@priority V).
  change (λ x : Rule V, rname x) with (@rname V).
  by destruct (test_candidates condition rname (candidate_order priority pol l) ctx)
    as [[t [r|]]|].
Qed.

End resolver_facts.

(** ** Context validation *)

Section ctx_validation_facts.
Context `{FloatRuntime}.

(** A value is rejected with an InvalidValue, unless [float()] overflows on
    it. *)
Lemma normalize_value_Raise (f : FieldRef) raw r e :
  normalize_value f raw r = Raise e →
  InvalidValue e ∨
  e = OverflowError ∧ py_float raw = Raise OverflowError ∧ ∃ i, f = IntervalRef i.
Proof.
  destruct f as [d|i]; simpl.
  - unfold discrete_normalize_value.
    destruct (discrete_validate_value d raw r) as [|e'] eqn:E; simpl; [done|].
    intros [= <-]. left. by apply discrete_validate_value_Raise in E as ->.
  - unfold interval_normalize_value.
    destruct (coerce i raw r) as [|e'] eqn:E; simpl; [done|].
    intros [= <-]. destruct (coerce_InvalidValue _ _ _ _ E) as [?| ->]; [by left|].
    right. split_and!; [done| |eauto]. by apply coerce_overflow in E.
Qed.

Lemma field_named_cons (f : FieldRef) fields k :
  field_named (f :: fields) k
  = if decide (name f = k) then Some f else field_named fields k.
Proof. unfold field_named. rewrite filter_cons. by destruct (decide (name f = k)). Qed.

Lemma field_named_Some fields k f :
  field_named fields k = Some f → f ∈ fields ∧ name f = k.
Proof.
  unfold field_named. intros Hh%head_Some_elem_of.
  by apply list_elem_of_filter in Hh as [? ?].
Qed.

Lemma field_named_None fields k :
  field_named fields k = None ↔ ∀ f, f ∈ fields → name f ≠ k.
Proof.
  unfold field_named. rewrite head_None. split.
  - intros Hnil f Hf Hk. assert (f ∈ filter (λ f, name f = k) fields) as Hin
      by (by apply list_elem_of_filter).
    rewrite Hnil in Hin. by apply not_elem_of_nil in Hin.
  - intros Hall. induction fields as [|f fields IH]; [done|].
    rewrite filter_cons. destruct (decide (name f = k)) as [Hf|Hf].
    + exfalso. apply (Hall f); [by left | done].
    + apply IH. intros f' ?. apply Hall. by right.
Qed.

(** The loop on success: a key that is seen, absent from the caller's
    context or not a field name keeps what [normalized] holds; any other key
    holds the normalized form of the caller's value. *)
Lemma normalize_fields_Ok fields (ctx : Context) seen nz n' :
  normalize_fields fields ctx seen nz = (n', Ok tt) →
  ∀ k,
    (k ∈ seen ∨ ctx !! k = None ∨ field_named fields k = None → n' !! k = nz !! k) ∧
    (k ∉ seen → ∀ raw f, ctx !! k = Some raw → field_named fields k = Some f →
       ∃ v, normalize_value f raw ContextValue = Ok v ∧ n' !! k = Some v).
Proof.
  revert seen nz. induction fields as [|f fields IH]; intros seen nz; simpl.
  { intros [= <-] k. split; [done|]. intros _ raw f _ Hf. by unfold field_named in Hf. }
  destruct (ctx !! name f) as [raw0|] eqn:Hctx; [case_bool_decide as Hseen|].
  - intros Hrun k. destruct (IH _ _ Hrun k) as [IH1 IH2]. rewrite field_named_cons. split.
    + intros [?|[?|Hn]]; apply IH1; eauto. case_decide; [subst; by left | eauto].
    + intros Hk raw f' Hraw. case_decide as Hname; [by subst|]. by apply IH2.
  - destruct (normalize_value f raw0 ContextValue) as [v0|e] eqn:Hnorm; [|done].
    intros Hrun k. destruct (IH _ _ Hrun k) as [IH1 IH2]. rewrite field_named_cons.
    destruct (decide (name f = k)) as [<-|Hname].
    + split; [intros [?|[?|?]]; congruence|].
      intros _ raw f' Hraw [= <-]. exists v0. split; [congruence|].
      rewrite IH1 by (left; set_solver). by rewrite lookup_insert_eq.
    + split.
      * intros Hc. rewrite IH1 by set_solver. by rewrite lookup_insert_ne.
      * intros Hk raw f' Hraw Hf'. apply (IH2 ltac:(set_solver) raw f' Hraw Hf').
  - intros Hrun k. destruct (IH _ _ Hrun k) as [IH1 IH2]. rewrite field_named_cons. split.
    + intros [?|[?|Hn]]; apply IH1; eauto. case_decide; [subst; eauto | eauto].
    + intros Hk raw f' Hraw. case_decide as Hname; [subst; congruence|]. by apply IH2.
Qed.

(** The loop on failure: some field's value was rejected. *)
Lemma normalize_fields_Raise fields (ctx : Context) seen nz n' e :
  normalize_fields fields ctx seen nz = (n', Raise e) →
  ∃ f raw, f ∈ fields ∧ ctx !! name f = Some raw ∧
           normalize_value f raw ContextValue = Raise e.
Proof.
  revert seen nz. induction fields as [|f fields IH]; intros seen nz; simpl; [done|].
  destruct (ctx !! name f) as [raw0|] eqn:Hctx; [case_bool_decide as Hseen|].
  - intros (f' & raw & ? & ? & ?)%IH. exists f', raw. split; [by right | done].
  - destruct (normalize_value f raw0 ContextValue) as [v0|e'] eqn:Hnorm.
    + intros (f' & raw & ? & ? & ?)%IH. exists f', raw. split; [by right | done].
    + intros [= _ <-]. exists f, raw0. split; [by left | done].
  - intros (f' & raw & ? & ? & ?)%IH. exists f', raw. split; [by right | done].
Qed.

Lemma normalize_fields_total fields (ctx : Context) seen nz :
  (∃ n', normalize_fields fields ctx seen nz = (n', Ok tt)) ∨
  (∃ n' e, normalize_fields fields ctx seen nz = (n', Raise e)).
Proof. destruct (normalize_fields fields ctx seen nz) as [n' [[]|e]]; eauto. Qed.

(** A key that names no field does not influence the loop. *)
Lemma normalize_fields_insert fields (ctx : Context) seen nz k v :
  (∀ f, f ∈ fields → name f ≠ k) →
  normalize_fields fields (<[k:=v]> ctx) seen (<[k:=v]> nz)
  = (<[k:=v]> (normalize_fields fields ctx seen nz).1,
     (normalize_fields fields ctx seen nz).2).
Proof.
  revert seen nz. induction fields as [|f fields IH]; intros seen nz Hk; simpl; [done|].
  assert (name f ≠ k) as Hf by (apply Hk; by left).
  assert (∀ f', f' ∈ fields → name f' ≠ k) as Hk' by (intros f' ?; apply Hk; by right).
  rewrite lookup_insert_ne by done.
  destruct (ctx !! name f) as [raw0|] eqn:Hctx; [case_bool_decide as Hseen|]; [by apply IH| |by apply IH].
  destruct (normalize_value f raw0 ContextValue) as [v0|e] eqn:Hnorm; [|done].
  rewrite insert_insert_ne by done. by apply IH.
Qed.

Lemma normalize_fields_empty fields seen nz :
  normalize_fields fields ∅ seen nz = (nz, Ok tt).
Proof.
  revert seen nz. induction fields as [|f fields IH]; intros seen nz; simpl; [done|].
  by rewrite lookup_empty.
Qed.

(** [validate_context] as a function of the caller's dictionary. *)
Lemma validate_context_Ok {V} (rs : RuleSet V) (ctx n : Context) :
  validate_context rs ctx = Ok n →
  ∀ k, match ctx !! k with
       | Some raw => ∃ v, n !! k = Some v ∧ normalized_as (iter_field_refs rs) k raw v
       | None => n !! k = None
       end.
Proof.
  unfold validate_context. case_bool_decide as Hempty.
  { intros [= <-] k. subst. by rewrite lookup_empty. }
  destruct (normalize_fields (iter_field_refs rs) ctx ∅ ctx) as [n' [[]|e]] eqn:Hrun;
    simpl; [|done].
  intros [= <-] k. destruct (normalize_fields_Ok _ _ _ _ _ Hrun k) as [H1 H2].
  unfold normalized_as.
  destruct (ctx !! k) as [raw|] eqn:Hk; [|rewrite H1; eauto].
  destruct (field_named (iter_field_refs rs) k) as [f|] eqn:Hf.
  - destruct (H2 ltac:(set_solver) raw f eq_refl eq_refl) as (v & ? & ?). eauto.
  - exists raw. split; [|done]. rewrite H1; eauto.
Qed.

Lemma validate_context_Raise {V} (rs : RuleSet V) (ctx : Context) e :
  validate_context rs ctx = Raise e →
  (no_float_overflow (iter_field_refs rs) ctx → InvalidValue e) ∧
  ∃ f raw, f ∈ iter_field_refs rs ∧ ctx !! name f = Some raw ∧
           normalize_value f raw ContextValue = Raise e.
Proof.
  unfold validate_context. case_bool_decide as Hempty; [done|].
  destruct (normalize_fields (iter_field_refs rs) ctx ∅ ctx) as [n' [[]|e']] eqn:Hrun;
    simpl; [done|].
  intros [= <-]. apply normalize_fields_Raise in Hrun as (f & raw & Hf & Hraw & Hn).
  split; [|eauto]. intros Hconv.
  destruct (normalize_value_Raise _ _ _ _ Hn) as [?|(_ & Hover & i & ->)]; [done|].
  by destruct (Hconv i raw Hf Hraw).
Qed.

(** The store version returns what the value version computes. *)
Lemma validate_context_in_value {V} (rs : RuleSet V) (σ : store) (ctx : ref) :
  match (validate_context_in rs σ ctx).2 with
  | Ok r => validate_context rs (deref σ ctx) = Ok (deref (validate_context_in rs σ ctx).1 r)
  | Raise e => validate_context rs (deref σ ctx) = Raise e
  end.
Proof.
  unfold validate_context_in, validate_context. case_bool_decide as Hempty; simpl; [done|].
  destruct (normalize_fields (iter_field_refs rs) (deref σ ctx) ∅ (deref σ ctx))
    as [n' [[]|e]]; simpl; [|done].
  do 2 f_equal. unfold deref. by rewrite lookup_app_r, Nat.sub_diag by done.
Qed.

Lemma validate_context_insert_unreferenced {V} (rs : RuleSet V) (ctx : Context) k v :
  (∀ f, f ∈ iter_field_refs rs → name f ≠ k) →
  validate_context rs (<[k:=v]> ctx)
  = match validate_context rs ctx with
    | Ok n => Ok (<[k:=v]> n)
    | Raise e => Raise e
    end.
Proof.
  intros Hk. unfold validate_context.
  rewrite bool_decide_eq_false_2 by apply insert_non_empty.
  rewrite normalize_fields_insert by done.
  case_bool_decide as Hempty.
  - subst. by rewrite normalize_fields_empty.
  - by destruct (normalize_fields (iter_field_refs rs) ctx ∅ ctx) as [n' [[]|e]].
Qed.

End ctx_validation_facts.

(** ** Resolver *)

Lemma elem_of_dedup_from {A} `{EqDecision A} (seen l : list A) x :
  x ∈ dedup_from seen l ↔ x ∈ l ∧ x ∉ seen.
Proof.
  revert seen. induction l as [|y l IH]; intros seen; simpl.
  - set_solver.
  - case_bool_decide as Hy.
    + rewrite IH. set_solver.
    + rewrite elem_of_cons, IH. rewrite !elem_of_cons.
      destruct (decide (x = y)) as [->|]; naive_solver.
Qed.

Lemma elem_of_dedup {A} `{EqDecision A} (l : list A) x : x ∈ dedup l ↔ x ∈ l.
Proof. unfold dedup. rewrite elem_of_dedup_from. set_solver. Qed.

Lemma first_match_elem {A} (cond : A → Cond) (l : list A) ctx x :
  first_match cond l ctx = Ok (Some x) → x ∈ l.
Proof.
  intros (pre & post & -> & _)%first_match_Some. set_solver.
Qed.

Lemma first_match_no_ValueError {A} (cond : A → Cond) (l : list A) ctx msg :
  first_match cond l ctx ≠ Raise (ValueError msg).
Proof.
  induction l as [|x l IH]; simpl; [done|].
  destruct (eval (cond x) ctx) as [[]|e] eqn:E; simpl; [done|done|].
  intros [= ->]. by apply eval_no_ValueError in E.
Qed.

Lemma first_match_Raise {A} (cond : A → Cond) (l : list A) ctx e :
  first_match cond l ctx = Raise e → e = TypeError ∨ e = InvalidOperation.
Proof.
  induction l as [|x l IH]; simpl; [done|].
  destruct (eval (cond x) ctx) as [[]|e'] eqn:E; simpl; [done|done|].
  intros [= ->]. by apply eval_Raise in E.
Qed.

Lemma first_match_no_LookupError {A} (cond : A → Cond) (l : list A) ctx :
  first_match cond l ctx ≠ Raise LookupError.
Proof. by intros [?|?]%first_match_Raise. Qed.

(** The trace of [explain] follows the walk of [resolve]. *)
Lemma test_candidates_first_match {A} (cond : A → Cond) (nm : A → string) (l : list A) ctx :
  match first_match cond l ctx with
  | Ok None =>
      test_candidates cond nm l ctx = Ok ((λ y, (nm y ++ ": ×")%string) <$> l, None)
  | Ok (Some x) =>
      ∃ pre post, l = pre ++ x :: post ∧
        test_candidates cond nm l ctx
        = Ok (((λ y, (nm y ++ ": ×")%string) <$> pre) ++ [(nm x ++ ": ✓")%string], Some x)
  | Raise e => test_candidates cond nm l ctx = Raise e
  end.
Proof.
  induction l as [|y l IH]; simpl; [done|].
  destruct (eval (cond y) ctx) as [[]|e] eqn:E; simpl; [|..|done].
  - by exists [], l.
  - destruct (first_match cond l ctx) as [[x|]|e].
    + destruct IH as (pre & post & -> & ->). exists (y :: pre), post. done.
    + by rewrite IH.
    + by rewrite IH.
Qed.

Section resolver_theorems.
Context {V : Type}.

Lemma resolve_no_ValueError :
  (∀ (rs : RuleSet V) ctx msg, resolve_set rs ctx ≠ Raise (ValueError msg)) ∧
  (∀ (r : Rule V) ctx msg, resolve_rule r ctx ≠ Raise (ValueError msg)).
Proof.
  assert (Hrs : ∀ rs : RuleSet V, ∀ ctx msg, resolve_set rs ctx ≠ Raise (ValueError msg)).
  { apply (RuleSet_ind' (λ rs, ∀ ctx msg, resolve_set rs ctx ≠ Raise (ValueError msg))
                        (λ r, ∀ ctx msg, resolve_rule r ctx ≠ Raise (ValueError msg))).
    - done.
    - intros c n p sub IH ctx msg. simpl. apply IH.
    - intros l fb pol Hl Hfb ctx msg. rewrite resolve_set_unfold.
      destruct (first_match condition (candidate_order priority pol l) ctx)
        as [[r|]|e] eqn:E; simpl.
      + apply first_match_elem in E. rewrite candidate_order_Permutation in E.
        rewrite Forall_forall in Hl. by apply Hl.
      + destruct fb as [r|]; [apply Hfb | done].
      + intros [= ->]. by apply first_match_no_ValueError in E. }
  split; [done|]. intros [c n p v|c n p sub] ctx msg; simpl; [done | apply Hrs].
Qed.

Lemma explain_follows_resolve :
  (∀ (rs : RuleSet V) ctx, explains (resolve_set rs ctx) (explain_set rs ctx) result) ∧
  (∀ (r : Rule V) ctx, explains (resolve_rule r ctx) (explain_rule r ctx) snd).
Proof.
  assert (Hrs : ∀ rs : RuleSet V, ∀ ctx,
             explains (resolve_set rs ctx) (explain_set rs ctx) result).
  { apply (RuleSet_ind'
             (λ rs, ∀ ctx, explains (resolve_set rs ctx) (explain_set rs ctx) result)
             (λ r, ∀ ctx, explains (resolve_rule r ctx) (explain_rule r ctx) snd)).
    - intros c n p v ctx; simpl. eauto.
    - intros c n p sub IH ctx; simpl. specialize (IH ctx). unfold explains in *.
      destruct (resolve_set sub ctx) as [v|[]]; simpl;
        first [by rewrite IH | destruct IH as (a & -> & ?); simpl; eauto].
    - intros l fb pol Hl Hfb ctx.
      rewrite resolve_set_unfold, explain_set_unfold.
      pose proof (test_candidates_first_match condition rname
                    (candidate_order priority pol l) ctx) as Ht.
      destruct (first_match condition (candidate_order priority pol l) ctx)
        as [[r|]|e] eqn:E; simpl.
      + destruct Ht as (pre & post & Hsplit & ->); simpl.
        apply first_match_elem in E. rewrite candidate_order_Permutation in E.
        rewrite Forall_forall in Hl. specialize (Hl r E ctx). unfold explains in *.
        destruct (resolve_rule r ctx) as [v|[]]; simpl;
          first [by rewrite Hl | destruct Hl as (a & -> & ?); simpl; eauto].
      + rewrite Ht; simpl. destruct fb as [r|]; simpl; [|eauto].
        specialize (Hfb ctx). unfold explains in *.
        destruct (resolve_rule r ctx) as [v|[]]; simpl;
          first [by rewrite Hfb | destruct Hfb as (a & -> & ?); simpl; eauto].
      + rewrite Ht; simpl. destruct (first_match_Raise _ _ _ _ E) as [-> | ->]; done. }
  split; [done|]. intros [c n p v|c n p sub] ctx; simpl; [eauto|].
  specialize (Hrs sub ctx). unfold explains in *.
  destruct (resolve_set sub ctx) as [v|[]]; simpl;
    first [by rewrite Hrs | destruct Hrs as (a & -> & ?); simpl; eauto].
Qed.

(** NoMatch is raised exactly at a dead end of the walk. *)
Lemma resolve_set_LookupError (rs : RuleSet V) ctx :
  resolve_set rs ctx = Raise LookupError ↔ dead_end ctx rs.
Proof.
  split.
  - revert ctx.
    apply (RuleSet_ind'
             (λ rs, ∀ ctx, resolve_set rs ctx = Raise LookupError → dead_end ctx rs)
             (λ r, ∀ ctx, resolve_rule r ctx = Raise LookupError →
                   match r with
                   | RuleValue _ _ _ _ => False
                   | RuleTree _ _ _ sub => dead_end ctx sub
                   end)).
    + done.
    + intros c n p sub IH ctx; simpl. apply IH.
    + intros l fb pol Hl Hfb ctx. rewrite resolve_set_unfold.
      destruct (first_match condition (candidate_order priority pol l) ctx)
        as [[r|]|e] eqn:E; simpl.
      * intros Hr. pose proof E as Hin. apply first_match_elem in Hin.
        rewrite candidate_order_Permutation in Hin.
        rewrite Forall_forall in Hl. specialize (Hl r Hin ctx Hr).
        destruct r as [|c n p sub]; [done|]. by eapply dead_end_below.
      * destruct fb as [r|]; [|intros _; by apply dead_end_here].
        intros Hr. specialize (Hfb ctx Hr).
        destruct r as [|c n p sub]; [done|]. by apply dead_end_fallback.
      * intros [= ->]. by apply first_match_no_LookupError in E.
  - induction 1 as [l pol E|l fb pol c n p sub E _ IH|l pol c n p sub E _ IH];
      rewrite resolve_set_unfold, E; simpl; done.
Qed.

End resolver_theorems.

Section typed_contexts.
Context `{FloatRuntime} {V : Type}.

Lemma eval_Ok (c : Cond) (ctx : Context) :
  numeric_where_interval (cond_field_refs c) ctx → ∃ b, eval c ctx = Ok b.
Proof.
  induction c as [d|i|a IHa b IHb|a IHa b IHb|a IHa|]; simpl; intros Hnum.
  - destruct d; simpl; destruct (ctx !! _); eauto.
  - assert (∀ v, ctx !! iname (interval_field i) = Some v → ∃ x, as_number v = Ok x) as Hv.
    { intros v. apply Hnum. set_solver. }
    destruct i as [b| | | |]; simpl in *; unfold Between_eval;
      destruct (ctx !! _) as [v|]; eauto;
      destruct (Hv v eq_refl) as [x Hx];
      unfold py_gt, py_ge, py_lt, py_le; rewrite Hx; simpl; eauto.
    destruct (left_closed b), (right_closed b); simpl; eauto.
  - destruct IHa as [x ->]; [intros i v ?; apply Hnum; set_solver|].
    destruct IHb as [y Hy]; [intros i v ?; apply Hnum; set_solver|].
    simpl. destruct x; eauto.
  - destruct IHa as [x ->]; [intros i v ?; apply Hnum; set_solver|].
    destruct IHb as [y Hy]; [intros i v ?; apply Hnum; set_solver|].
    simpl. destruct x; eauto.
  - destruct IHa as [x ->]; [done|]. simpl. eauto.
  - eauto.
Qed.

Lemma first_match_Ok {A} (cond : A → Cond) (l : list A) ctx :
  Forall (λ x, ∃ b, eval (cond x) ctx = Ok b) l → ∃ m, first_match cond l ctx = Ok m.
Proof.
  induction 1 as [|x l [b Hb] _ IH]; simpl; [eauto|].
  rewrite Hb; simpl. destruct b; eauto.
Qed.

Lemma rule_field_refs_condition (r : Rule V) f :
  f ∈ cond_field_refs (condition r) → f ∈ rule_field_refs r.
Proof.
  destruct r; simpl; unfold cond_iter_field_refs; rewrite ?elem_of_app, elem_of_dedup; eauto.
Qed.

Lemma ruleset_field_refs_rule (l : list (Rule V)) fb pol r f :
  r ∈ l → f ∈ rule_field_refs r → f ∈ ruleset_field_refs (mkRuleSet l fb pol).
Proof.
  intros Hr Hf. simpl. apply elem_of_app. left.
  induction l as [|r' l IH]; [by apply not_elem_of_nil in Hr|].
  apply elem_of_app. apply elem_of_cons in Hr as [<-|Hr]; eauto.
Qed.

Lemma ruleset_field_refs_fallback (l : list (Rule V)) pol r f :
  f ∈ rule_field_refs r → f ∈ ruleset_field_refs (mkRuleSet l (Some r) pol).
Proof. intros Hf. simpl. apply elem_of_app. by right. Qed.

Lemma rule_field_refs_subtree c n p (sub : RuleSet V) f :
  f ∈ ruleset_field_refs sub → f ∈ rule_field_refs (RuleTree c n p sub).
Proof. intros Hf. simpl. apply elem_of_app. by right. Qed.

Lemma numeric_where_interval_mono fields fields' ctx :
  (∀ f, f ∈ fields' → f ∈ fields) →
  numeric_where_interval fields ctx → numeric_where_interval fields' ctx.
Proof. intros Hsub Hnum i v Hi. apply Hnum. by apply Hsub. Qed.

(** On a context whose interval fields are numbers the walk returns a
    payload or raises NoMatch. *)
Lemma resolve_set_total (rs : RuleSet V) ctx :
  numeric_where_interval (ruleset_field_refs rs) ctx →
  (∃ v, resolve_set rs ctx = Ok v) ∨ resolve_set rs ctx = Raise LookupError.
Proof.
  revert ctx.
  apply (RuleSet_ind'
           (λ rs, ∀ ctx, numeric_where_interval (ruleset_field_refs rs) ctx →
                  (∃ v, resolve_set rs ctx = Ok v) ∨ resolve_set rs ctx = Raise LookupError)
           (λ r, ∀ ctx, numeric_where_interval (rule_field_refs r) ctx →
                  (∃ v, resolve_rule r ctx = Ok v) ∨ resolve_rule r ctx = Raise LookupError)).
  - intros c n p v ctx _. simpl. eauto.
  - intros c n p sub IH ctx Hnum. simpl. apply IH.
    eapply numeric_where_interval_mono; [|exact Hnum].
    intros f. apply rule_field_refs_subtree.
  - intros l fb pol Hl Hfb ctx Hnum. rewrite resolve_set_unfold.
    destruct (first_match_Ok condition (candidate_order priority pol l) ctx) as [m Hm].
    { apply Forall_forall. intros r Hr. rewrite candidate_order_Permutation in Hr.
      apply eval_Ok. eapply numeric_where_interval_mono; [|exact Hnum].
      intros f Hf. eapply ruleset_field_refs_rule; [exact Hr|].
      by apply rule_field_refs_condition. }
    rewrite Hm; simpl. destruct m as [r|].
    + apply first_match_elem in Hm. rewrite candidate_order_Permutation in Hm.
      rewrite Forall_forall in Hl. apply (Hl r Hm).
      eapply numeric_where_interval_mono; [|exact Hnum].
      intros f. by apply ruleset_field_refs_rule.
    + destruct fb as [r|]; [|by right]. apply Hfb.
      eapply numeric_where_interval_mono; [|exact Hnum].
      intros f. apply ruleset_field_refs_fallback.
Qed.

Lemma normalize_value_numeric (i : IntervalFieldRef) raw r v :
  normalize_value (IntervalRef i) raw r = Ok v → ∃ x, as_number v = Ok x.
Proof.
  simpl. unfold interval_normalize_value.
  destruct (coerce i raw r); simpl; [intros [= <-]; simpl; eauto | done].
Qed.

(** After [validate_context] every interval field holds a number, when
    field names are unique. *)
Lemma validate_context_numeric (rs : RuleSet V) (ctx n : Context) :
  unique_names (iter_field_refs rs) →
  validate_context rs ctx = Ok n →
  numeric_where_interval (ruleset_field_refs rs) n.
Proof.
  intros Huniq Hval i v Hi Hv.
  apply elem_of_dedup in Hi. fold (iter_field_refs rs) in Hi.
  pose proof (validate_context_Ok rs ctx n Hval (iname i)) as Hk.
  destruct (ctx !! iname i) as [raw|]; [|congruence].
  destruct Hk as (v' & Hv' & Hnorm). assert (v' = v) as -> by congruence.
  unfold normalized_as in Hnorm.
  destruct (field_named (iter_field_refs rs) (iname i)) as [f|] eqn:Hf.
  - apply field_named_Some in Hf as [Hfin Hname].
    assert (f = IntervalRef i) as -> by (by apply Huniq).
    by eapply normalize_value_numeric.
  - rewrite field_named_None in Hf. by destruct (Hf (IntervalRef i) Hi).
Qed.

End typed_contexts.

Section resolver_claims.
Context `{FloatRuntime} {V : Type}.

(** C3.  At each level the resolver tests the candidates in declaration
    order under FIRST_MATCH and in descending, stable priority order under
    PRIORITY, and selects the first candidate whose condition is true: a
    RuleValue yields its payload, a RuleTree the result of its subtree on the
    same context. *)
Theorem C3_resolver_candidate_order (rs : RuleSet V) (ctx : Context) :
  let order := candidate_order priority (policy rs) (rules rs) in
  (policy rs = FIRST_MATCH → order = rules rs) ∧
  (policy rs = PRIORITY →
     order ≡ₚ rules rs ∧
     StronglySorted (λ a b, (priority b ≤ priority a)%Z) order ∧
     ∀ p, filter (λ r, priority r = p) order = filter (λ r, priority r = p) (rules rs)) ∧
  (∀ pre r post,
     order = pre ++ r :: post →
     Forall (λ y, eval (condition y) ctx = Ok false) pre →
     eval (condition r) ctx = Ok true →
     match r with
     | RuleValue _ _ _ v => resolve_set rs ctx = Ok v
     | RuleTree _ _ _ sub => resolve_set rs ctx = resolve_set sub ctx
     end).
Proof.
  destruct rs as [l fb pol]; simpl. split_and!.
  - by intros ->.
  - intros ->. simpl. split_and!.
    + apply sort_by_priority_Permutation.
    + apply (sort_by_priority_sorted priority).
    + intros p. apply sort_by_priority_stable.
  - intros pre r post Hsplit Hpre Hr.
    assert (first_match condition (candidate_order priority pol l) ctx = Ok (Some r)) as Hm.
    { apply first_match_Some. eauto. }
    pose proof (resolve_set_unfold l fb pol ctx) as Hu. rewrite Hm in Hu. simpl in Hu.
    by destruct r.
Qed.

(** C5 (as amended).  When the validation of the context fails, [resolve]
    and [explain] fail with the same error, which is an InvalidValue as long
    as [float()] overflows on no value of an interval field.  On a valid
    context
    (field names being unique) [resolve] returns a payload or fails with
    NoMatch, and it fails with NoMatch exactly when the walk ends in a level
    where no rule matches and there is no fallback, in particular when that
    is so at the top level; [explain] never fails with NoMatch: its result is
    the payload of [resolve], or absent when [resolve] raises NoMatch, and
    when nothing matches at the top level and there is no fallback it returns
    the explanation without matched rule, with empty path and with one "×"
    line for every candidate. *)
Theorem C5_no_match_and_invalid_value (rs : RuleSet V) (ctx : Context) :
  (∀ e, validate_context rs ctx = Raise e →
     (no_float_overflow (iter_field_refs rs) ctx → InvalidValue e) ∧
     resolve rs ctx = Raise e ∧ explain rs ctx = Raise e) ∧
  (∀ n, validate_context rs ctx = Ok n →
     resolve rs ctx = resolve_set rs n ∧
     explain rs ctx = explain_set rs n ∧
     (unique_names (iter_field_refs rs) →
        (∃ v, resolve rs ctx = Ok v) ∨ resolve rs ctx = Raise LookupError) ∧
     (resolve rs ctx = Raise LookupError ↔ dead_end n rs) ∧
     (first_match condition (candidate_order priority (policy rs) (rules rs)) n = Ok None →
      fallback rs = None →
        resolve rs ctx = Raise LookupError ∧
        explain rs ctx =
          Ok {| matched_rule := None; path := [];
                tested := rejected <$> candidate_order priority (policy rs) (rules rs);
                result := None |}) ∧
     explain rs ctx ≠ Raise LookupError ∧
     (∀ v, resolve rs ctx = Ok v ↔ ∃ x, explain rs ctx = Ok x ∧ result x = Some v) ∧
     (resolve rs ctx = Raise LookupError ↔ ∃ x, explain rs ctx = Ok x ∧ result x = None)).
Proof.
  split.
  - intros e He. unfold resolve, explain. rewrite He. simpl.
    by apply validate_context_Raise in He as [? _].
  - intros n Hn. unfold resolve, explain. rewrite Hn. simpl.
    pose proof (proj1 explain_follows_resolve rs n) as Hex. unfold explains in Hex.
    split_and!; try done.
    + intros Huniq. apply resolve_set_total. by eapply validate_context_numeric.
    + apply resolve_set_LookupError.
    + clear Hex Hn. destruct rs as [l fb pol]. intros Hm Hfb. simpl in Hm, Hfb. subst fb.
      change (rules (mkRuleSet l None pol)) with l.
      change (policy (mkRuleSet l None pol)) with pol.
      rewrite resolve_set_unfold, explain_set_unfold, Hm. simpl.
      pose proof (test_candidates_first_match condition rname
                    (candidate_order priority pol l) n) as Ht.
      rewrite Hm in Ht. rewrite Ht. done.
    + destruct (resolve_set rs n) as [v|[]];
        first [by rewrite Hex | by destruct Hex as (a & -> & _)].
    + intros v. destruct (resolve_set rs n) as [w|[]];
        try (rewrite Hex; split; [done | by intros (? & ? & _)]).
      * destruct Hex as (a & -> & Ha). split.
        -- intros [= ->]. eauto.
        -- intros (x & [= <-] & Hx). congruence.
      * destruct Hex as (a & -> & Ha). split; [done|].
        intros (x & [= <-] & Hx). congruence.
    + destruct (resolve_set rs n) as [w|[]];
        try (rewrite Hex; split; [done | by intros (? & ? & _)]).
      * destruct Hex as (a & -> & Ha). split; [done|].
        intros (x & [= <-] & Hx). congruence.
      * destruct Hex as (a & -> & Ha). split; [eauto | done].
Qed.

End resolver_claims.

Section ctx_claims.
Context `{FloatRuntime} {V : Type}.

Lemma explain_set_no_ValueError (rs : RuleSet V) ctx msg :
  explain_set rs ctx ≠ Raise (ValueError msg).
Proof.
  intros He. pose proof (proj1 explain_follows_resolve rs ctx) as Hex.
  unfold explains in Hex. destruct (resolve_set rs ctx) as [v|[msg'| | | |]] eqn:Hr;
    try congruence; try (destruct Hex as (? & ? & _); congruence).
  by apply (proj1 resolve_no_ValueError) in Hr.
Qed.

Lemma resolve_InvalidValue (rs : RuleSet V) ctx e :
  InvalidValue e → resolve rs ctx = Raise e → validate_context rs ctx = Raise e.
Proof.
  unfold resolve. destruct (validate_context rs ctx) as [n|e']; simpl; [|by intros ? [= ->]].
  intros He Hr. destruct e as [msg| | | |]; try done.
  by apply (proj1 resolve_no_ValueError) in Hr.
Qed.

Lemma explain_InvalidValue (rs : RuleSet V) ctx e :
  InvalidValue e → explain rs ctx = Raise e → validate_context rs ctx = Raise e.
Proof.
  unfold explain. destruct (validate_context rs ctx) as [n|e']; simpl; [|by intros ? [= ->]].
  intros He Hr. destruct e as [msg| | | |]; try done.
  by apply explain_set_no_ValueError in Hr.
Qed.

(** C9 (as amended).  [validate_context] never mutates a dictionary of the
    caller; for an empty context it returns the caller's own dictionary, and
    for a non-empty one a fresh dictionary, in which every key of the context
    that names a field holds the value normalized by the first FieldRef
    yielded with that name and every other key its original value; it fails
    exactly when one of these normalizations fails, with the error of that
    normalization, which is an InvalidValue as long as [float()] overflows
    on no value of an interval field. *)
Theorem C9_validate_context_effects (rs : RuleSet V) (σ : store) (ctx : ref) (m : Context) :
  σ !! ctx = Some m →
  let out := validate_context_in rs σ ctx in
  (∀ r o, σ !! r = Some o → out.1 !! r = Some o) ∧
  (m = ∅ → out = (σ, Ok ctx)) ∧
  (m ≠ ∅ → ∀ r, out.2 = Ok r → r ≠ ctx ∧ σ !! r = None ∧ is_Some (out.1 !! r)) ∧
  (∀ r, out.2 = Ok r →
     ∀ k, match m !! k with
          | Some raw => ∃ v, deref out.1 r !! k = Some v ∧
                             normalized_as (iter_field_refs rs) k raw v
          | None => deref out.1 r !! k = None
          end) ∧
  (∀ e, out.2 = Raise e →
     (no_float_overflow (iter_field_refs rs) m → InvalidValue e) ∧
     ∃ f raw, f ∈ iter_field_refs rs ∧ m !! name f = Some raw ∧
              normalize_value f raw ContextValue = Raise e) ∧
  (∀ f raw e, field_named (iter_field_refs rs) (name f) = Some f →
     m !! name f = Some raw →
     normalize_value f raw ContextValue = Raise e →
     ∃ e', out.2 = Raise e').
Proof.
  intros Hctx out.
  assert (deref σ ctx = m) as Hderef by (unfold deref; by rewrite Hctx).
  pose proof (validate_context_in_value rs σ ctx) as Hval. fold out in Hval.
  rewrite Hderef in Hval.
  assert (∀ r, out.2 = Ok r →
     ∀ k, match m !! k with
          | Some raw => ∃ v, deref out.1 r !! k = Some v ∧
                             normalized_as (iter_field_refs rs) k raw v
          | None => deref out.1 r !! k = None
          end) as Hnorm.
  { intros r Hr. rewrite Hr in Hval. by apply validate_context_Ok. }
  split_and!; [..|exact Hnorm| |].
  - intros r o Hr. unfold out, validate_context_in. case_bool_decide; [done|].
    destruct (normalize_fields _ _ _ _) as [n' res0]; simpl.
    by apply lookup_app_l_Some.
  - intros ->. unfold out, validate_context_in.
    by rewrite bool_decide_eq_true_2 by done.
  - intros Hne r. unfold out, validate_context_in.
    rewrite bool_decide_eq_false_2 by (by rewrite Hderef).
    destruct (normalize_fields _ _ _ _) as [n' [[]|e]]; simpl; [|done].
    intros [= <-]. split_and!.
    + apply lookup_lt_Some in Hctx. lia.
    + by apply lookup_ge_None.
    + rewrite lookup_app_r, Nat.sub_diag by done. eauto.
  - intros e He. rewrite He in Hval. by apply validate_context_Raise.
  - intros f raw e Hf Hraw He. destruct (out.2) as [r|e'] eqn:Hout; [|eauto].
    specialize (Hnorm r eq_refl (name f)). rewrite Hraw in Hnorm.
    destruct Hnorm as (v & _ & Hv). unfold normalized_as in Hv. rewrite Hf in Hv. congruence.
Qed.

(** C10.  A context entry whose key is not the name of any FieldRef of the
    rule set is copied as it is and never validated: whatever its value,
    [validate_context] behaves as without the entry, and [resolve] and
    [explain] fail with an InvalidValue only if they do so for every other
    value under that key. *)
Theorem C10_unreferenced_keys_are_copied (rs : RuleSet V) (ctx : Context) k v :
  (∀ f, f ∈ iter_field_refs rs → name f ≠ k) →
  validate_context rs (<[k:=v]> ctx)
    = match validate_context rs ctx with
      | Ok n => Ok (<[k:=v]> n)
      | Raise e => Raise e
      end ∧
  (∀ n, validate_context rs (<[k:=v]> ctx) = Ok n → n !! k = Some v) ∧
  (∀ e, InvalidValue e →
     resolve rs (<[k:=v]> ctx) = Raise e ∨ explain rs (<[k:=v]> ctx) = Raise e →
     validate_context rs ctx = Raise e ∧
     ∀ v', resolve rs (<[k:=v']> ctx) = Raise e ∧ explain rs (<[k:=v']> ctx) = Raise e).
Proof.
  intros Hk. pose proof (validate_context_insert_unreferenced rs ctx k) as Hins.
  split_and!.
  - by apply Hins.
  - intros n. rewrite Hins by done.
    destruct (validate_context rs ctx); [|done]. intros [= <-]. by rewrite lookup_insert_eq.
  - intros e He Hfail.
    assert (validate_context rs (<[k:=v]> ctx) = Raise e) as Hval.
    { destruct Hfail; [by apply resolve_InvalidValue | by apply explain_InvalidValue]. }
    rewrite Hins in Hval by done.
    destruct (validate_context rs ctx) as [n|e'] eqn:Hctx; [done|].
    injection Hval as ->. split; [done|].
    intros v'. unfold resolve, explain. rewrite !Hins by done. done.
Qed.

End ctx_claims.

(** ** Analyzer *)

(** The discrete sets are an exact algebra. *)
Lemma DiscreteSet_exact (d : DiscreteFieldRef) :
  @ExactValueSet (DiscreteRef d) (list pyobj) (DiscreteSet (ddomain d)).
Proof.
  split; [split|..].
  - intros v. cbn -[py_in]. apply andb_false_r.
  - intros v s t. cbn -[py_in]. destruct (hashable v); cbn -[py_in]; [|done].
    rewrite py_in_app, py_in_filter_notin. by destruct (py_in s v), (py_in t v).
  - intros v s t. cbn -[py_in]. destruct (hashable v); cbn -[py_in]; [|done].
    apply (py_in_filter (py_in t)). intros w Hw. by rewrite (py_in_proper t v w Hw).
  - intros v s. cbn -[py_in]. destruct (hashable v); cbn -[py_in]; [|done]. apply py_in_filter_notin.
  - intros [|x s] v; cbn -[py_in]; [|done]. intros _. apply andb_false_r.
  - intros v. cbn -[py_in]. by rewrite andb_true_iff.
  - intros c v ctx Hc [Hh Hv]. cbn -[py_in] in Hv.
    destruct c as [[f lit|f items [|]]| | | | |]; try done;
      injection Hc as ->; cbn -[py_in]; rewrite lookup_insert_eq, Hh; cbn -[py_in]; f_equal.
    + unfold py_in. simpl. by rewrite orb_false_r.
    + rewrite py_in_filter_notin, Hv. by destruct (py_in items v).
Qed.

Lemma candidate_order_Forall2 {A B} (R : A → B → Prop) (keyA : A → Z) (keyB : B → Z)
    pol (l : list A) (k : list B) :
  (∀ a b, R a b → keyA a = keyB b) →
  Forall2 R l k →
  Forall2 R (candidate_order keyA pol l) (candidate_order keyB pol k).
Proof.
  intros Hkey Hlk. destruct pol; simpl; [done|].
  induction Hlk as [|a b l k Hab _ IH]; simpl; [constructor|].
  revert IH. generalize (sort_by_priority keyA l) (sort_by_priority keyB k).
  intros l' k'. induction 1 as [|a' b' l' k' Hab' Htl IH']; simpl.
  - by repeat constructor.
  - rewrite (Hkey _ _ Hab), (Hkey _ _ Hab'). case_bool_decide.
    + by repeat constructor.
    + by constructor.
Qed.

Section lawful_facts.
Context {S : Type} `{ValueSet S} `{!LawfulValueSet S}.
Context (target : FieldRef) (unresolved : bool) {V : Type}.

#[local] Abbreviation analyze_rule := (analyze_rule target unresolved).
#[local] Abbreviation analyze_set := (analyze_set target unresolved).
#[local] Abbreviation project := (project target unresolved).
#[local] Abbreviation raw_outcome := (raw_outcome target unresolved).

(** The candidates of a level, as the analyzer builds them. *)
Lemma analyze_set_candidates (l : list (Rule V)) fb pol ctx prefix within :
  ∃ cands,
    Forall2 (λ r c, c.1 = r ∧ ∃ j, c.2 = analyze_rule r ctx (prefix ++ [j])) l cands ∧
    analyze_set (mkRuleSet l fb pol) ctx prefix within
    = claim_cycle
        (map (λ c, (raw_outcome (condition c.1) ctx within, c.2))
             (candidate_order (λ c, priority c.1) pol cands)
         ++ match fb with
            | Some r => [(Ok (restrict within vs_universe),
                          analyze_rule r ctx (prefix ++ [length l]))]
            | None => []
            end)
        vs_empty.
Proof.
  simpl. eexists. split; [|reflexivity].
  generalize 0. induction l as [|r l IH]; intros i; constructor; eauto.
Qed.

Lemma mem_subtract v raw claimed :
  vs_mem v (subtract raw claimed)
  = vs_mem v raw && (vs_mem v vs_universe && negb (vs_mem v claimed)).
Proof. unfold subtract. by rewrite mem_intersection, mem_complement. Qed.

Lemma mem_restrict v within s :
  vs_mem v (restrict within s) = vs_mem v s && in_within v within.
Proof.
  destruct within as [w|]; simpl; [apply mem_intersection | by rewrite andb_true_r].
Qed.

Lemma payloads_at_app v (a b : list (Entry S V)) :
  payloads_at v (a ++ b) = payloads_at v a ++ payloads_at v b.
Proof. unfold payloads_at, entries_at. by rewrite filter_app, fmap_app. Qed.

End lawful_facts.

Section analyzer_facts.
Context {S : Type} `{ValueSet S} (target : FieldRef) `{!ExactValueSet target S}.
Context (unresolved : bool) {V : Type}.

Lemma in_domain_universe v : in_domain target v → vs_mem v vs_universe = true.
Proof. apply mem_universe. Qed.

Lemma mem_to_set v (p : Projection S) :
  in_domain target v → vs_mem v (to_set p) = holds p v.
Proof.
  intros Hv. destruct p as [[]|s]; simpl; [by apply in_domain_universe | apply mem_empty | done].
Qed.

(** The claim/subtract cycle lists, at a value of the domain, the payloads
    of the first candidate that holds there, unless the value is already
    claimed. *)
Lemma claim_cycle_at v (cs : list (res S * (S → res (list (Entry S V))))) sem claimed :
  in_domain target v →
  Forall2 (candidate_at v) cs sem →
  ∃ outs, claim_cycle cs claimed = Ok outs ∧
          payloads_at v outs = if vs_mem v claimed then [] else first_hit sem.
Proof.
  intros Hv Hcs. revert claimed.
  induction Hcs as [|[raw emit] [hit X] cs sem [(r & Hraw & Hhit) Hemit] _ IH];
    intros claimed; simpl in *.
  { exists []. split; [done|]. by destruct (vs_mem v claimed). }
  subst raw. simpl.
  destruct (Hemit (subtract r claimed)) as (out & Hout & Hpay).
  destruct (IH (vs_union claimed (subtract r claimed))) as (outs & Houts & Hpays).
  rewrite Houts.
  assert (vs_mem v (subtract r claimed) = hit && negb (vs_mem v claimed)) as Hrem.
  { by rewrite mem_subtract, Hhit, (in_domain_universe v Hv). }
  rewrite mem_union, Hrem in Hpays. rewrite Hrem in Hpay.
  destruct (vs_is_empty (subtract r claimed)) eqn:Hempty; simpl.
  - apply (is_empty_mem _ v) in Hempty. rewrite Hrem in Hempty.
    eexists. split; [reflexivity|]. simpl. rewrite Hpays.
    destruct (vs_mem v claimed), hit; simpl in *; done.
  - rewrite Hout. simpl. eexists. split; [reflexivity|].
    rewrite payloads_at_app, Hpay, Hpays.
    destruct (vs_mem v claimed), hit; simpl in *; by rewrite ?app_nil_r.
Qed.

End analyzer_facts.

Lemma leaf_eval_ext (c : Cond) (f : FieldRef) (ctx1 ctx2 : Context) :
  leaf_field c = Some f →
  ctx1 !! name f = ctx2 !! name f →
  eval c ctx1 = eval c ctx2.
Proof.
  destruct c as [d|i| | | |]; simpl; try done; intros [= <-]; simpl.
  - destruct d; simpl; by intros ->.
  - destruct i; simpl; unfold Between_eval; by intros ->.
Qed.

Lemma leaf_eval_in_domain (c : Cond) (f : FieldRef) (ctx : Context) x :
  leaf_field c = Some f →
  ctx !! name f = Some x →
  in_domain f x →
  ∃ b, eval c ctx = Ok b.
Proof.
  destruct c as [d|i| | | |]; simpl; try done; intros [= <-]; simpl.
  - intros Hx _. destruct d; simpl in *; rewrite Hx; eauto.
  - intros Hx (q & -> & _).
    destruct i as [b| | | |]; simpl in *; unfold Between_eval; rewrite Hx;
      unfold py_gt, py_ge, py_lt, py_le; simpl; eauto.
    destruct (left_closed b), (right_closed b); simpl; eauto.
Qed.

Lemma fixes_other_fields_mono target fields fields' ctx :
  (∀ f, f ∈ fields' → f ∈ fields) →
  fixes_other_fields target fields ctx → fixes_other_fields target fields' ctx.
Proof. intros Hsub Hfix f Hf. apply Hfix. by apply Hsub. Qed.

Section analysis_at_a_value.
Context {S : Type} `{ValueSet S} (target : FieldRef) `{!ExactValueSet target S}.
Context (unresolved : bool) {V : Type}.
Context (ctx : Context) (v : pyobj) (Hv : in_domain target v).

#[local] Abbreviation analyze_rule := (analyze_rule target unresolved).
#[local] Abbreviation analyze_set := (analyze_set target unresolved).
#[local] Abbreviation project := (project target unresolved).
#[local] Abbreviation raw_outcome := (raw_outcome target unresolved).
#[local] Abbreviation ctx_a := (delete (name target) ctx).
#[local] Abbreviation ctx_v := (<[name target := v]> ctx).

Lemma project_leaf_holds (c : Cond) (f : FieldRef) :
  leaf_field c = Some f →
  fixes_other_fields target [f] ctx →
  ∃ p, project_leaf target unresolved c f ctx_a = Ok p ∧ eval c ctx_v = Ok (holds p v).
Proof.
  intros Hc Hfix. unfold project_leaf. case_bool_decide as Hf.
  - subst f. eexists. split; [reflexivity|]. simpl. apply mem_literal; [|done].
    destruct c; simpl in *; try done; congruence.
  - destruct (Hfix f) as (x & Hx & Hdom); [set_solver|done|].
    rewrite Hx. apply lookup_delete_Some in Hx as [Hname Hx'].
    destruct (leaf_eval_in_domain c f ctx_a x Hc) as [b Hb]; [|done|].
    { by rewrite lookup_delete_ne. }
    rewrite Hb. simpl. eexists. split; [reflexivity|]. simpl. rewrite <- Hb.
    apply (leaf_eval_ext c f); [done|].
    by rewrite lookup_insert_ne, lookup_delete_ne.
Qed.

(** The projection of a condition, read at [v], is what the condition
    evaluates to once the target is [v]. *)
Lemma project_holds (c : Cond) :
  fixes_other_fields target (cond_field_refs c) ctx →
  ∃ p, project c ctx_a = Ok p ∧ eval c ctx_v = Ok (holds p v).
Proof.
  induction c as [d|i|a IHa b IHb|a IHa b IHb|a IHa|]; simpl; intros Hfix.
  - by apply project_leaf_holds.
  - by apply project_leaf_holds.
  - destruct IHa as (pa & -> & ->);
      [eapply fixes_other_fields_mono; [|exact Hfix]; set_solver|].
    destruct IHb as (pb & Hpb & Heb);
      [eapply fixes_other_fields_mono; [|exact Hfix]; set_solver|].
    simpl. destruct pa as [[]|s]; simpl.
    + eauto.
    + eauto.
    + rewrite Hpb, Heb. simpl. destruct pb as [[]|t]; simpl;
        (eexists; split; [reflexivity|]); simpl;
        rewrite ?mem_intersection; by destruct (vs_mem v s).
  - destruct IHa as (pa & -> & ->);
      [eapply fixes_other_fields_mono; [|exact Hfix]; set_solver|].
    destruct IHb as (pb & Hpb & Heb);
      [eapply fixes_other_fields_mono; [|exact Hfix]; set_solver|].
    simpl. destruct pa as [[]|s]; simpl.
    + eauto.
    + eauto.
    + rewrite Hpb, Heb. simpl. destruct pb as [[]|t]; simpl;
        (eexists; split; [reflexivity|]); simpl;
        rewrite ?mem_union; by destruct (vs_mem v s).
  - destruct IHa as (pa & -> & ->); [done|]. simpl.
    destruct pa as [b|s]; simpl; (eexists; split; [reflexivity|]); simpl; [done|].
    by rewrite mem_complement, (in_domain_universe target v Hv).
  - eauto.
Qed.

Lemma raw_outcome_holds (c : Cond) within :
  fixes_other_fields target (cond_field_refs c) ctx →
  ∃ raw b, raw_outcome c ctx_a within = Ok raw ∧
           eval c ctx_v = Ok b ∧
           vs_mem v raw = b && in_within v within.
Proof.
  intros (p & Hp & He)%project_holds. unfold raw_outcome. rewrite Hp. simpl.
  eexists _, _. split_and!; [reflexivity|exact He|].
  by rewrite mem_restrict, (mem_to_set target v p Hv).
Qed.

(** The resolver's side of a level: the candidate that holds first is the
    first match. *)
Lemma first_hit_first_match (order : list (Rule V)) sem (w : bool) tail :
  Forall2 (λ r hx, ∃ b, eval (condition r) ctx_v = Ok b ∧
                        hx = (b && w, as_list (resolve_rule r ctx_v))) order sem →
  ∃ m, first_match condition order ctx_v = Ok m ∧
       first_hit (sem ++ tail)
       = if w then match m with
                   | Some r => as_list (resolve_rule r ctx_v)
                   | None => first_hit tail
                   end
         else first_hit tail.
Proof.
  induction 1 as [|r hx order sem (b & Hb & ->) _ (m & Hm & IH)]; simpl.
  { exists None. split; [done|]. by destruct w. }
  rewrite Hb. simpl. destruct b; simpl.
  - exists (Some r). split; [done|]. destruct w; simpl; [done|]. rewrite IH. done.
  - exists m. split; [done|]. rewrite IH. done.
Qed.

(** At a value of the target domain, what the analysis of a rule set lists
    is what the resolver returns there. *)
Lemma analysis_at :
  (∀ rs : RuleSet V,
     fixes_other_fields target (ruleset_field_refs rs) ctx →
     (∀ prefix within, ∃ out,
        analyze_set rs ctx_a prefix within = Ok out ∧
        payloads_at v out
        = if in_within v within then as_list (resolve_set rs ctx_v) else []) ∧
     payload_or_no_match (resolve_set rs ctx_v)).
Proof.
  apply (RuleSet_ind'
    (λ rs, fixes_other_fields target (ruleset_field_refs rs) ctx →
       (∀ prefix within, ∃ out,
          analyze_set rs ctx_a prefix within = Ok out ∧
          payloads_at v out
          = if in_within v within then as_list (resolve_set rs ctx_v) else []) ∧
       payload_or_no_match (resolve_set rs ctx_v))
    (λ r, fixes_other_fields target (rule_field_refs r) ctx →
       (∀ ipath remaining, ∃ out,
          analyze_rule r ctx_a ipath remaining = Ok out ∧
          payloads_at v out
          = if vs_mem v remaining then as_list (resolve_rule r ctx_v) else []) ∧
       payload_or_no_match (resolve_rule r ctx_v))).
  - intros c n p x _. split; [|left; simpl; eauto].
    intros ipath remaining. eexists. split; [reflexivity|].
    unfold payloads_at, entries_at. rewrite filter_cons. simpl.
    destruct (vs_mem v remaining); by case_decide.
  - intros c n p sub IH Hfix.
    destruct IH as [IHa IHr].
    { eapply fixes_other_fields_mono; [|exact Hfix]. intros f. apply rule_field_refs_subtree. }
    split; [|exact IHr]. intros ipath remaining. simpl.
    apply (IHa ipath (Some remaining)).
  - intros l fb pol Hl Hfb Hfix.
    destruct (analyze_set_candidates target unresolved l fb pol ctx_a [] None)
      as (_ & _ & _).
    assert (Hfb' : ∀ r, fb = Some r →
              (∀ ipath remaining, ∃ out,
                 analyze_rule r ctx_a ipath remaining = Ok out ∧
                 payloads_at v out
                 = if vs_mem v remaining then as_list (resolve_rule r ctx_v) else []) ∧
              payload_or_no_match (resolve_rule r ctx_v)).
    { intros r ->. apply Hfb. eapply fixes_other_fields_mono; [|exact Hfix].
      intros f. apply ruleset_field_refs_fallback. }
    assert (Hl' : ∀ r, r ∈ candidate_order priority pol l →
              fixes_other_fields target (cond_field_refs (condition r)) ctx ∧
              (∀ ipath remaining, ∃ out,
                 analyze_rule r ctx_a ipath remaining = Ok out ∧
                 payloads_at v out
                 = if vs_mem v remaining then as_list (resolve_rule r ctx_v) else []) ∧
              payload_or_no_match (resolve_rule r ctx_v)).
    { intros r Hr. rewrite candidate_order_Permutation in Hr. split.
      - eapply fixes_other_fields_mono; [|exact Hfix]. intros f Hf.
        eapply ruleset_field_refs_rule; [exact Hr|]. by apply rule_field_refs_condition.
      - rewrite Forall_forall in Hl. apply (Hl r Hr).
        eapply fixes_other_fields_mono; [|exact Hfix]. intros f.
        by apply ruleset_field_refs_rule. }
    clear Hl Hfb.
    assert (Hres : payload_or_no_match (resolve_set (mkRuleSet l fb pol) ctx_v)).
    { rewrite resolve_set_unfold.
      destruct (first_match_Ok condition (candidate_order priority pol l) ctx_v) as [m Hm].
      { apply Forall_forall. intros r Hr. destruct (Hl' r Hr) as [Hc _].
        destruct (project_holds _ Hc) as (? & _ & ?). eauto. }
      rewrite Hm. simpl. destruct m as [r|].
      - apply first_match_elem in Hm. by apply Hl'.
      - destruct fb as [r|]; [by apply Hfb' | by right]. }
    split; [|exact Hres]. intros prefix within.
    destruct (analyze_set_candidates target unresolved l fb pol ctx_a prefix within)
      as (cands & Hcands & ->).
    assert (Horder :
      Forall2 (λ r c, c.1 = r ∧ ∃ j, c.2 = analyze_rule r ctx_a (prefix ++ [j]))
        (candidate_order priority pol l)
        (candidate_order (λ c, priority c.1) pol cands)).
    { apply candidate_order_Forall2; [|done]. by intros r c [<- _]. }
    assert (∃ sem,
      Forall2 (candidate_at v)
        (map (λ c, (raw_outcome (condition c.1) ctx_a within, c.2))
             (candidate_order (λ c, priority c.1) pol cands)) sem ∧
      Forall2 (λ r hx, ∃ b, eval (condition r) ctx_v = Ok b ∧
                 hx = (b && in_within v within, as_list (resolve_rule r ctx_v)))
        (candidate_order priority pol l) sem) as (sem & Hsem1 & Hsem2).
    { revert Hl'. generalize (candidate_order priority pol l)
        (candidate_order (λ c, priority c.1) pol cands) Horder.
      induction 1 as [|r c order corder [Hc1 [j Hc2]] _ IH]; intros Hall.
      { exists []. split; constructor. }
      destruct IH as (sem & IH1 & IH2); [intros r' ?; apply Hall; by right|].
      destruct (Hall r) as (Hfixc & Hemit & _); [by left|].
      destruct (raw_outcome_holds (condition r) within Hfixc) as (raw & b & Hraw & Hb & Hmem).
      exists ((b && in_within v within, as_list (resolve_rule r ctx_v)) :: sem). split.
      - simpl. constructor; [|done]. split; simpl.
        + exists raw. rewrite Hc1. done.
        + rewrite Hc2. apply Hemit.
      - constructor; [|done]. eauto. }
    set (tail := match fb with
                 | Some r => [(in_within v within, as_list (resolve_rule r ctx_v))]
                 | None => []
                 end).
    edestruct (claim_cycle_at target v
                 (map (λ c, (raw_outcome (condition c.1) ctx_a within, c.2))
                      (candidate_order (λ c, priority c.1) pol cands)
                  ++ match fb with
                     | Some r => [(Ok (restrict within vs_universe),
                                   analyze_rule r ctx_a (prefix ++ [length l]))]
                     | None => []
                     end)
                 (sem ++ tail) vs_empty Hv) as (outs & Houts & Hpay).
    { apply Forall2_app; [done|]. unfold tail. destruct fb as [r|]; constructor; [|constructor].
      split; simpl.
      - eexists. split; [reflexivity|].
        by rewrite mem_restrict, (in_domain_universe target v Hv).
      - by apply Hfb'. }
    exists outs. split; [done|]. rewrite Hpay, mem_empty.
    destruct (first_hit_first_match _ _ _ tail Hsem2) as (m & Hm & Hhit).
    rewrite Hhit, resolve_set_unfold, Hm. simpl. unfold tail.
    destruct (in_within v within); [|by destruct fb].
    destruct m as [r|]; [done|]. by destruct fb.
Qed.

End analysis_at_a_value.

Section contexts_of_domain_values.
Context `{FloatRuntime} {V : Type}.

Lemma normalize_value_in_domain (f : FieldRef) x r :
  in_domain f x → normalize_value f x r = Ok x.
Proof.
  destruct f as [d|i]; simpl.
  - intros [Hh Hx]. unfold discrete_normalize_value.
    assert (discrete_validate_value d x r = Ok tt) as ->; [|done].
    apply discrete_validate_value_Ok, contains_true. done.
  - intros (q & -> & Hlo & Hhi). unfold interval_normalize_value.
    assert (coerce i (PyFloat (Finite q)) r = Ok q) as ->; [|done].
    by apply coerce_Ok.
Qed.

(** A context of domain values is its own normal form. *)
Lemma validate_context_in_domain (rs : RuleSet V) (ctx : Context) :
  (∀ f x, f ∈ iter_field_refs rs → ctx !! name f = Some x → in_domain f x) →
  validate_context rs ctx = Ok ctx.
Proof.
  intros Hdom. destruct (validate_context rs ctx) as [n|e] eqn:Hval.
  - f_equal. apply map_eq. intros k.
    pose proof (validate_context_Ok rs ctx n Hval k) as Hk.
    destruct (ctx !! k) as [raw|] eqn:Hraw; [|done].
    destruct Hk as (x & -> & Hnorm). f_equal. unfold normalized_as in Hnorm.
    destruct (field_named (iter_field_refs rs) k) as [f|] eqn:Hf; [|done].
    apply field_named_Some in Hf as [Hin <-].
    rewrite (normalize_value_in_domain f raw) in Hnorm by eauto. congruence.
  - apply validate_context_Raise in Hval as (_ & f & raw & Hf & Hraw & Hnorm).
    rewrite (normalize_value_in_domain f raw) in Hnorm by eauto. done.
Qed.

End contexts_of_domain_values.

Section partition_law.
Context {S : Type} `{ValueSet S} `{!LawfulValueSet S}.
Context (target : FieldRef) (unresolved : bool) {V : Type}.

Lemma mem_covered (a : Analysis S V) v :
  vs_mem v (covered a) = true ↔ ∃ e, e ∈ by_rule a ∧ vs_mem v (value_set e) = true.
Proof.
  unfold covered. induction (by_rule a) as [|e l IH]; simpl.
  - rewrite mem_empty. split; [done|]. intros (e & He & _). by apply not_elem_of_nil in He.
  - rewrite mem_union, orb_true_iff, IH. split.
    + intros [?|(e' & ? & ?)]; [exists e | exists e']; set_solver.
    + intros (e' & [->|?]%elem_of_cons & ?); eauto.
Qed.

Lemma claim_cycle_within (cs : list (res S * (S → res (list (Entry S V))))) claimed outs :
  Forall (λ c, ∀ remaining out,
            (∀ v, vs_mem v remaining = true → vs_mem v vs_universe = true) →
            c.2 remaining = Ok out →
            Forall (λ e, ∀ v, vs_mem v (value_set e) = true → vs_mem v vs_universe = true)
                   out) cs →
  claim_cycle cs claimed = Ok outs →
  Forall (λ e, ∀ v, vs_mem v (value_set e) = true → vs_mem v vs_universe = true) outs.
Proof.
  intros Hcs. revert claimed outs.
  induction Hcs as [|[raw emit] cs Hc _ IH]; intros claimed outs; simpl.
  { intros [= <-]. constructor. }
  destruct raw as [r|]; simpl; [|done].
  assert (∀ v, vs_mem v (subtract r claimed) = true → vs_mem v vs_universe = true) as Hsub.
  { intros v Hm. rewrite mem_subtract in Hm.
    apply andb_true_iff in Hm as [_ Hm]. by apply andb_true_iff in Hm as [Hm _]. }
  destruct (vs_is_empty (subtract r claimed)); simpl.
  - destruct (claim_cycle cs _) as [outs'|] eqn:Hrest; simpl; [|done].
    intros [= <-]. by eapply IH.
  - destruct (emit (subtract r claimed)) as [out|] eqn:Hemit; simpl; [|done].
    destruct (claim_cycle cs _) as [outs'|] eqn:Hrest; simpl; [|done].
    intros [= <-]. apply Forall_app. split; [by eapply Hc | by eapply IH].
Qed.

(** Every emitted value set lies within the universe of the target. *)
Lemma analyze_set_within (rs : RuleSet V) ctx prefix within out :
  analyze_set target unresolved rs ctx prefix within = Ok out →
  Forall (λ e, ∀ v, vs_mem v (value_set e) = true → vs_mem v vs_universe = true) out.
Proof.
  revert ctx prefix within out.
  apply (RuleSet_ind'
    (λ rs, ∀ ctx prefix within out,
       analyze_set target unresolved rs ctx prefix within = Ok out →
       Forall (λ e, ∀ v, vs_mem v (value_set e) = true → vs_mem v vs_universe = true) out)
    (λ r, ∀ ctx ipath remaining out,
       (∀ v, vs_mem v remaining = true → vs_mem v vs_universe = true) →
       analyze_rule target unresolved r ctx ipath remaining = Ok out →
       Forall (λ e, ∀ v, vs_mem v (value_set e) = true → vs_mem v vs_universe = true) out)).
  - intros c n p x ctx ipath remaining out Hrem [= <-]. by repeat constructor.
  - intros c n p sub IH ctx ipath remaining out _. simpl. apply IH.
  - intros l fb pol Hl Hfb ctx prefix within out.
    destruct (analyze_set_candidates target unresolved l fb pol ctx prefix within)
      as (cands & Hcands & ->).
    apply claim_cycle_within. apply Forall_app. split.
    + apply Forall_map. apply Forall_forall. intros c Hc.
      rewrite candidate_order_Permutation in Hc.
      apply list_elem_of_lookup in Hc as [i Hi].
      destruct (Forall2_lookup_r _ _ _ i c Hcands Hi) as (r & Hr & <- & j & Hemit).
      simpl. rewrite Hemit. intros remaining out'. rewrite Forall_forall in Hl.
      apply Hl. by eapply list_elem_of_lookup_2.
    + destruct fb as [r|]; constructor; [|constructor]. simpl. intros remaining out'.
      apply Hfb.
Qed.

(** With a value-set algebra that obeys the laws of sets (the discrete sets
    do), the analysis partitions the universe of the target: covered and
    uncovered together hold exactly the values of the universe, and no value
    lies in both. *)
Theorem partition_law_of_lawful_sets (rs : RuleSet V) (ctx : Context) (a : Analysis S V) :
  analyze target unresolved rs ctx = Ok a →
  (∀ v, vs_mem v (vs_union (covered a) (uncovered a)) = vs_mem v vs_universe) ∧
  (∀ v, vs_mem v (vs_intersection (covered a) (uncovered a)) = false) ∧
  (∀ v, vs_mem v vs_universe = true ↔
        vs_mem v (covered a) = true ∨ vs_mem v (uncovered a) = true).
Proof.
  unfold analyze.
  destruct (analyze_set target unresolved rs (delete (name target) ctx) [] None)
    as [out|] eqn:Hout; simpl; [|done].
  intros [= <-]. apply analyze_set_within in Hout.
  assert (∀ v, vs_mem v (covered {| by_rule := out |}) = true →
               vs_mem v vs_universe = true) as Hcov.
  { intros v (e & He & Hv)%mem_covered. simpl in He.
    rewrite Forall_forall in Hout. by apply (Hout e). }
  split_and!.
  - intros v. unfold uncovered. rewrite mem_union, mem_complement.
    specialize (Hcov v). destruct (vs_mem v (covered _)); simpl.
    + by rewrite Hcov.
    + by rewrite andb_true_r.
  - intros v. unfold uncovered. rewrite mem_intersection, mem_complement.
    by destruct (vs_mem v (covered _)), (vs_mem v vs_universe).
  - intros v. unfold uncovered. rewrite mem_complement.
    specialize (Hcov v). destruct (vs_mem v (covered _)), (vs_mem v vs_universe);
      simpl in *; naive_solver.
Qed.

End partition_law.

Section analyzer_claims.
Context `{FloatRuntime}.
Context {S : Type} `{ValueSet S} (target : FieldRef) `{!ExactValueSet target S}.
Context (unresolved : bool) {V : Type}.

(** With a value-set algebra that is exact for the target (the discrete
    sets are), for a context that fixes every field of the rules other than
    the target to a value of its domain, and a value v of the target's
    domain: the analysis exists; resolving the context extended with target=v
    returns the payload p iff by_rule has an entry whose value set holds v
    and whose payload is p; at most one entry holds v; and resolution fails
    with NoMatch iff v lies in uncovered(). *)
Theorem analysis_mirrors_resolution (rs : RuleSet V) (ctx : Context) (v : pyobj) :
  fixes_other_fields target (ruleset_field_refs rs) ctx →
  in_domain target v →
  ∃ a, analyze target unresolved rs ctx = Ok a ∧
    (∀ p, resolve rs (<[name target := v]> ctx) = Ok p ↔
          ∃ e, e ∈ by_rule a ∧ vs_mem v (value_set e) = true ∧ payload e = p) ∧
    (length (entries_at v (by_rule a)) ≤ 1)%nat ∧
    (resolve rs (<[name target := v]> ctx) = Raise LookupError ↔
       vs_mem v (uncovered a) = true).
Proof.
  intros Hfix Hv.
  assert (resolve rs (<[name target := v]> ctx)
          = resolve_set rs (<[name target := v]> ctx)) as ->.
  { unfold resolve. rewrite validate_context_in_domain; [done|].
    intros f x Hf Hx. unfold iter_field_refs in Hf. rewrite elem_of_dedup in Hf.
    destruct (decide (f = target)) as [->|Hne].
    - rewrite lookup_insert_eq in Hx. congruence.
    - destruct (Hfix f Hf Hne) as (y & Hy & Hdom).
      apply lookup_delete_Some in Hy as [Hname Hy].
      rewrite lookup_insert_ne in Hx by done. congruence. }
  destruct (analysis_at target unresolved ctx v Hv rs Hfix) as [Han Hres].
  destruct (Han [] None) as (out & Hout & Hpay). simpl in Hpay.
  exists {| by_rule := out |}. unfold analyze. rewrite Hout. simpl.
  split; [done|].
  assert (∀ p, p ∈ payloads_at v out ↔
               ∃ e, e ∈ out ∧ vs_mem v (value_set e) = true ∧ payload e = p) as Hin.
  { intros p. unfold payloads_at, entries_at. rewrite list_elem_of_fmap.
    setoid_rewrite list_elem_of_filter. naive_solver. }
  split_and!.
  - intros p. rewrite <- Hin, Hpay.
    destruct Hres as [[q ->]| ->]; simpl; set_solver.
  - apply (f_equal length) in Hpay. unfold payloads_at in Hpay.
    rewrite length_fmap in Hpay. rewrite Hpay.
    destruct Hres as [[q ->]| ->]; simpl; lia.
  - unfold uncovered. rewrite mem_complement, (in_domain_universe target v Hv). simpl.
    rewrite negb_true_iff, <- not_true_iff_false, mem_covered. simpl.
    split.
    + intros Hr (e & He & Hmem).
      assert (payload e ∈ payloads_at v out) as Hp by (apply Hin; eauto).
      rewrite Hpay, Hr in Hp. simpl in Hp. by apply not_elem_of_nil in Hp.
    + intros Hnone. destruct Hres as [[q Hq]|?]; [|done]. exfalso. apply Hnone.
      assert (q ∈ payloads_at v out) as Hp by (rewrite Hpay, Hq; set_solver).
      apply Hin in Hp as (e & ? & ? & _). eauto.
Qed.

End analyzer_claims.

(** ** The test-suite replayed, and the theorems at concrete inputs *)

#[local] Existing Instance Fixtures.digits_parser.

Section replay.
Import Fixtures.

(** [tests/test_resolve.py] *)
Example resolve_high_income_top_tier :
  resolve credit_scoring_ruleset
    (ctx_of [("income_level", PyStr "HIGH"); ("credit_score", PyInt 750);
             ("loan_purpose", PyStr "AUTO")]) = Ok "APPROVE 3.5".
Proof. vm_compute. reflexivity. Qed.

Example resolve_missing_fields :
  resolve credit_scoring_ruleset (ctx_of [("income_level", PyStr "LOW")]) = Ok "REVIEW".
Proof. vm_compute. reflexivity. Qed.

Example resolve_no_match :
  resolve approve_only (ctx_of [("credit_score", PyInt 600)]) = Raise LookupError.
Proof. vm_compute. reflexivity. Qed.

Example resolve_invalid_discrete :
  resolve credit_scoring_ruleset (ctx_of [("income_level", PyStr "ULTRA_HIGH")])
  = Raise (ValueError (NotAllowed ContextValue (PyStr "ULTRA_HIGH") "income_level")).
Proof. vm_compute. reflexivity. Qed.

Example resolve_invalid_interval :
  resolve credit_scoring_ruleset (ctx_of [("credit_score", PyStr "not-a-number")])
  = Raise (ValueError (NotNumeric ContextValue (PyStr "not-a-number") "credit_score")).
Proof. vm_compute. reflexivity. Qed.

Example resolve_highest_priority :
  resolve priority_ruleset (ctx_of [("status", PyStr "VIP")]) = Ok "high".
Proof. vm_compute. reflexivity. Qed.

Example resolve_equal_priority :
  resolve equal_priority_ruleset (ctx_of [("status", PyStr "VIP")]) = Ok "first".
Proof. vm_compute. reflexivity. Qed.

(** [tests/test_explain.py] *)
Example explain_nested_match :
  explain credit_scoring_ruleset
    (ctx_of [("income_level", PyStr "HIGH"); ("credit_score", PyInt 720);
             ("loan_purpose", PyStr "AUTO")])
  = Ok {| matched_rule := Some "High income";
          path := ["High income"; "Top tier approval"];
          tested := ["High income: ✓"];
          result := Some "APPROVE 3.5" |}.
Proof. vm_compute. reflexivity. Qed.

Example explain_fallback_path :
  explain credit_scoring_ruleset
    (ctx_of [("income_level", PyStr "LOW"); ("loan_purpose", PyStr "AUTO");
             ("credit_score", PyInt 550)])
  = Ok {| matched_rule := Some "Default review";
          path := ["Default review"];
          tested := ["High income: ×"; "Medium mortgage: ×"; "Low credit reject: ×";
                     "Default review: ✓"];
          result := Some "REVIEW" |}.
Proof. vm_compute. reflexivity. Qed.

(** The upper bound of a "both" range is compared strictly: 850 falls
    through to the fallback of the nested rule set, for [explain] as
    test_explain.py:57-69 expects and for [resolve] alike (the case
    high-income-upper-boundary of test_resolve.py:79-87 expects APPROVE 3.5
    for the same rule set and score). *)
Example resolve_upper_boundary :
  resolve credit_scoring_ruleset
    (ctx_of [("income_level", PyStr "HIGH"); ("credit_score", PyInt 850);
             ("loan_purpose", PyStr "AUTO")]) = Ok "REVIEW 7.0".
Proof. vm_compute. reflexivity. Qed.

Example explain_nested_fallback :
  explain credit_scoring_ruleset
    (ctx_of [("income_level", PyStr "HIGH"); ("credit_score", PyInt 850)])
  = Ok {| matched_rule := Some "High income";
          path := ["High income"; "High income fallback"];
          tested := ["High income: ✓"];
          result := Some "REVIEW 7.0" |}.
Proof. vm_compute. reflexivity. Qed.

Example explain_no_match :
  explain high_income_only (ctx_of [("income_level", PyStr "LOW")])
  = Ok {| matched_rule := None; path := []; tested := ["High income: ×"];
          result := None |}.
Proof. vm_compute. reflexivity. Qed.

(** [tests/test_analyze.py] *)
Example analyze_first_wins :
  analyze (H:=DiscreteSet (ddomain country)) (DiscreteRef country) false first_wins ∅
  = Ok {| by_rule := [ {| index_path := [0]; value_set := [PyStr "US"; PyStr "RU"];
                          payload := "A" |} ] |}.
Proof. vm_compute. reflexivity. Qed.

Example analyze_priority_wins :
  analyze (H:=DiscreteSet (ddomain country)) (DiscreteRef country) false priority_wins ∅
  = Ok {| by_rule := [ {| index_path := [1]; value_set := [PyStr "US"]; payload := "B" |};
                       {| index_path := [0]; value_set := [PyStr "RU"]; payload := "A" |} ] |}.
Proof. vm_compute. reflexivity. Qed.

Example analyze_with_otherwise :
  analyze (H:=DiscreteSet (ddomain country)) (DiscreteRef country) false with_otherwise ∅
  = Ok {| by_rule := [ {| index_path := [0]; value_set := [PyStr "US"; PyStr "RU"];
                          payload := "A" |};
                       {| index_path := [1]; value_set := [PyStr "FR"];
                          payload := "DEFAULT" |} ] |}.
Proof. vm_compute. reflexivity. Qed.

(** [test_interval_analysis_respects_context_filters]: what the resolver
    does with the rules of that test. *)
Example resolve_amount_50 :
  resolve amount_rules (ctx_of [("program", PyStr "VIP"); ("amount", PyInt 50)])
  = Ok "VIP-LOW".
Proof. vm_compute. reflexivity. Qed.

Example resolve_amount_150 :
  resolve amount_rules (ctx_of [("program", PyStr "VIP"); ("amount", PyInt 150)])
  = Ok "VIP-MID".
Proof. vm_compute. reflexivity. Qed.

Example resolve_amount_250 :
  resolve amount_rules (ctx_of [("program", PyStr "VIP"); ("amount", PyInt 250)])
  = Raise LookupError.
Proof. vm_compute. reflexivity. Qed.

End replay.

(** *** The analysis of a discrete target *)

Lemma nested_projection_mirrors_resolution :
  let target := DiscreteRef Fixtures.country in
  let ctx := Fixtures.ctx_of [("program", PyStr "VIP")] in
  fixes_other_fields target (ruleset_field_refs Fixtures.nested_projection) ctx ∧
  in_domain target (PyStr "US") ∧
  ∃ a, analyze (H:=DiscreteSet (ddomain Fixtures.country)) target false
         Fixtures.nested_projection ctx = Ok a ∧
    (∀ p, resolve Fixtures.nested_projection (<[name target := PyStr "US"]> ctx) = Ok p ↔
          ∃ e, e ∈ by_rule a ∧
               vs_mem (ValueSet:=DiscreteSet (ddomain Fixtures.country)) (PyStr "US")
                 (value_set e) = true ∧
               payload e = p) ∧
    (length (entries_at (H:=DiscreteSet (ddomain Fixtures.country)) (PyStr "US")
               (by_rule a)) ≤ 1)%nat ∧
    (resolve Fixtures.nested_projection (<[name target := PyStr "US"]> ctx)
     = Raise LookupError ↔
     vs_mem (ValueSet:=DiscreteSet (ddomain Fixtures.country)) (PyStr "US")
       (uncovered (H:=DiscreteSet (ddomain Fixtures.country)) a) = true).
Proof.
  intros target ctx.
  assert (fixes_other_fields target (ruleset_field_refs Fixtures.nested_projection) ctx)
    as Hfix.
  { intros f Hf Hne. cbv in Hf.
    repeat (apply elem_of_cons in Hf as [->|Hf]);
      try (by destruct Hne); try (by apply not_elem_of_nil in Hf).
    all: exists (PyStr "VIP"); split; [vm_compute; reflexivity|];
      split; reflexivity. }
  assert (in_domain target (PyStr "US")) as Hv.
  { split; reflexivity. }
  split_and!; [exact Hfix | exact Hv |].
  exact (analysis_mirrors_resolution (H:=Fixtures.digits_parser)
           (H0:=DiscreteSet (ddomain Fixtures.country)) target
           (ExactValueSet0:=DiscreteSet_exact Fixtures.country) false
           Fixtures.nested_projection ctx (PyStr "US") Hfix Hv).
Qed.

(** *** C1 *)


(** *** C2 *)

Lemma C2_witness :
  let b := {| b_field := Fixtures.credit_score; lo := Fixtures.num 700;
              hi := Fixtures.num 850; closed := "both";
              left_closed := true; right_closed := true |} in
  let ctx := Fixtures.ctx_of [("credit_score", Fixtures.fnum 850)] in
  Between_init Fixtures.credit_score (PyInt 700) (PyInt 850) "both" = Ok b ∧
  Between_eval b ctx = Ok false ∧
  ¬ between_matches (lo b) (hi b) "both" (Fixtures.num 850).
Proof.
  intros b ctx.
  assert (Between_init Fixtures.credit_score (PyInt 700) (PyInt 850) "both" = Ok b) as Hb
    by (vm_compute; reflexivity).
  destruct (C2_between_eval Fixtures.credit_score (PyInt 700) (PyInt 850) "both" b ctx
              (Fixtures.fnum 850) (Fixtures.num 850) Hb eq_refl eq_refl)
    as (_ & _ & _ & Hiff & _).
  split_and!; [exact Hb | vm_compute; reflexivity |].
  intros Hm. apply Hiff in Hm. vm_compute in Hm. discriminate Hm.
Defined.

(** *** C3 *)

Lemma C3_witness :
  resolve_set Fixtures.priority_ruleset (Fixtures.ctx_of [("status", PyStr "VIP")])
  = Ok "high".
Proof.
  destruct (C3_resolver_candidate_order Fixtures.priority_ruleset
              (Fixtures.ctx_of [("status", PyStr "VIP")])) as (_ & _ & Hsel).
  exact (Hsel [] (Fixtures.when_value (Fixtures.equals Fixtures.status "VIP") "high" 10 "high")
           [Fixtures.when_value (Fixtures.equals Fixtures.status "VIP") "low" 0 "low"]
           eq_refl (List.Forall_nil _) eq_refl).
Defined.

(** *** The partition law of a discrete target *)

#[local] Existing Instance Fixtures.country_sets.

Lemma first_wins_partition :
  let a := {| by_rule := [ {| index_path := [0]; value_set := [PyStr "US"; PyStr "RU"];
                              payload := "A" |} ] |} in
  analyze (DiscreteRef Fixtures.country) false Fixtures.first_wins ∅ = Ok a ∧
  (∀ v, vs_mem v (vs_union (covered a) (uncovered a)) = vs_mem v vs_universe) ∧
  (∀ v, vs_mem v (vs_intersection (covered a) (uncovered a)) = false) ∧
  (∀ v, vs_mem v vs_universe = true ↔
        vs_mem v (covered a) = true ∨ vs_mem v (uncovered a) = true).
Proof.
  intros a. split; [exact analyze_first_wins|].
  exact (partition_law_of_lawful_sets (H:=Fixtures.country_sets)
           (LawfulValueSet0:=exact_lawful (ExactValueSet:=DiscreteSet_exact Fixtures.country))
           (DiscreteRef Fixtures.country) false Fixtures.first_wins ∅ a
           analyze_first_wins).
Qed.

(** *** C4 *)


(** *** C5 *)

(** NoMatch although a rule matches at the top level and a fallback
    exists: the matched rule leads into a subtree without match. *)
Lemma C5_counterexample :
  let ctx := Fixtures.ctx_of [("income_level", PyStr "HIGH")] in
  validate_context Fixtures.nested_gap ctx = Ok ctx ∧
  resolve Fixtures.nested_gap ctx = Raise LookupError ∧
  ¬ (first_match condition
       (candidate_order priority (policy Fixtures.nested_gap) (rules Fixtures.nested_gap))
       ctx = Ok None ∧
     fallback Fixtures.nested_gap = None).
Proof.
  intros ctx. split_and!; [vm_compute; reflexivity..|].
  intros [_ Hfb]. discriminate Hfb.
Qed.

Lemma C5_witness :
  let ctx := Fixtures.ctx_of [("income_level", PyStr "LOW")] in
  let bad := Fixtures.ctx_of [("income_level", PyStr "ULTRA_HIGH")] in
  let e := ValueError (NotAllowed ContextValue (PyStr "ULTRA_HIGH") "income_level") in
  (validate_context Fixtures.high_income_only ctx = Ok ctx ∧
   resolve Fixtures.high_income_only ctx = Raise LookupError ∧
   explain Fixtures.high_income_only ctx
   = Ok {| matched_rule := None; path := []; tested := ["High income: ×"];
           result := None |}) ∧
  (validate_context Fixtures.credit_scoring_ruleset bad = Raise e ∧
   InvalidValue e ∧
   resolve Fixtures.credit_scoring_ruleset bad = Raise e ∧
   explain Fixtures.credit_scoring_ruleset bad = Raise e).
Proof.
  intros ctx bad e. split.
  - assert (validate_context Fixtures.high_income_only ctx = Ok ctx) as Hval
      by (vm_compute; reflexivity).
    destruct (C5_no_match_and_invalid_value Fixtures.high_income_only ctx) as [_ Hok].
    destruct (Hok ctx Hval) as (_ & _ & _ & _ & Htop & _).
    destruct Htop as [Hres Hex]; [vm_compute; reflexivity | reflexivity |].
    split_and!; [exact Hval | exact Hres | exact Hex].
  - assert (validate_context Fixtures.credit_scoring_ruleset bad = Raise e) as Hval
      by (vm_compute; reflexivity).
    destruct (C5_no_match_and_invalid_value Fixtures.credit_scoring_ruleset bad)
      as [Hfail _].
    destruct (Hfail e Hval) as (Hinv & Hres & Hex).
    split_and!; [exact Hval | | exact Hres | exact Hex].
    apply Hinv. intros i v _ Hv. unfold bad, Fixtures.ctx_of in Hv. simpl in Hv.
    apply lookup_insert_Some in Hv as [[_ <-]|[_ Hv]]; [by vm_compute|].
    by rewrite lookup_empty in Hv.
Defined.

(** *** C6 *)

Lemma C6_witness :
  (dom_hi (idomain Fixtures.credit_score) < Q2Qc (inject_Z (10 ^ 400)))%Qc ∧
  ¬ valid_literal (IntervalRef Fixtures.credit_score, PyInt (10 ^ 400)) ∧
  construct (BetweenArgs Fixtures.credit_score (PyInt (10 ^ 400)) (PyInt 850) "both")
  = Raise OverflowError.
Proof.
  assert (float_of_int (10 ^ 400) = None) as Hz by (vm_compute; reflexivity).
  assert ("both" ∈ closed_tags) as Htag by (by left).
  destruct (C6_overflowing_literal Fixtures.credit_score (10 ^ 400) (PyInt 850) "both"
              Hz Htag) as (Hinvalid & Hraise & _).
  split_and!; [by vm_compute | exact Hinvalid | exact Hraise].
Defined.

(** *** C7 *)

Lemma C7_witness :
  (dom_hi (idomain Fixtures.score) < Q2Qc (inject_Z (10 ^ 400)))%Qc ∧
  coerce Fixtures.score (PyInt (10 ^ 400)) ContextValue = Raise OverflowError.
Proof.
  assert (float_of_int (10 ^ 400) = None) as Hz by (vm_compute; reflexivity).
  destruct (C7_coerce_overflow Fixtures.score (10 ^ 400) ContextValue Hz)
    as (_ & Hraise & _).
  split; [by vm_compute | exact Hraise].
Defined.

(** *** C8 *)

Lemma C8_witness :
  let c := Fixtures.between Fixtures.credit_score 700 850 "both" in
  let ctx := Fixtures.ctx_of [("income_level", PyStr "LOW")] in
  leaf_field c = Some (IntervalRef Fixtures.credit_score) ∧
  ctx !! name (IntervalRef Fixtures.credit_score) = None ∧
  eval c ctx = Ok false.
Proof.
  intros c ctx. split_and!; [reflexivity | reflexivity |].
  exact (C8_missing_field_is_false c (IntervalRef Fixtures.credit_score) ctx eq_refl eq_refl).
Defined.

(** *** C9 *)

(** For an empty context the dictionary returned is the caller's own. *)
Lemma C9_counterexample :
  ∃ ctx : ref, [∅ : Context] !! ctx = Some ∅ ∧
    (validate_context_in Fixtures.score_rules [∅] ctx).2 = Ok ctx.
Proof. exists 0. split; reflexivity. Qed.

Lemma C9_witness :
  let m := Fixtures.ctx_of [("score", PyDecimal (Finite (Fixtures.num 75)));
                            ("status", PyStr "HIGH")] in
  let out := validate_context_in Fixtures.score_rules [m] 0 in
  [m] !! 0 = Some m ∧
  out.1 !! 0 = Some m ∧
  out.2 = Ok 1 ∧
  deref out.1 1 !! "score" = Some (Fixtures.fnum 75).
Proof.
  intros m out.
  destruct (C9_validate_context_effects Fixtures.score_rules [m] 0 m eq_refl)
    as (Hframe & _).
  split_and!; [reflexivity | exact (Hframe 0 m eq_refl) | vm_compute; reflexivity..].
Defined.

(** *** C10 *)

Lemma C10_witness :
  let ctx := Fixtures.ctx_of [("score", PyInt 75)] in
  (∀ f, f ∈ iter_field_refs Fixtures.score_rules → name f ≠ "timezone") ∧
  ∀ n, validate_context Fixtures.score_rules (<["timezone" := PyUnhashable 0]> ctx) = Ok n →
       n !! "timezone" = Some (PyUnhashable 0).
Proof.
  intros ctx.
  assert (∀ f, f ∈ iter_field_refs Fixtures.score_rules → name f ≠ "timezone") as Hk.
  { intros f Hf. cbv in Hf.
    repeat (apply elem_of_cons in Hf as [->|Hf]); try discriminate.
    by apply not_elem_of_nil in Hf. }
  split; [exact Hk|].
  exact (proj1 (proj2 (C10_unreferenced_keys_are_copied Fixtures.score_rules ctx
                         "timezone" (PyUnhashable 0) Hk))).
Defined.

(** ** Further properties of the field references *)

Section extra_field_refs.
Context `{FloatRuntime}.

(** X1.  Normalization is idempotent: a value that [normalize_value]
    returned is accepted again and returned as it is, whatever the role. *)
Theorem X1_normalize_value_idempotent (f : FieldRef) raw r r' v :
  normalize_value f raw r = Ok v → normalize_value f v r' = Ok v.
Proof.
  destruct f as [d|i]; simpl.
  - unfold discrete_normalize_value.
    destruct (discrete_validate_value d raw r) as [[]|] eqn:E; simpl; [|done].
    intros [= <-]. apply discrete_validate_value_Ok in E.
    by rewrite (proj2 (discrete_validate_value_Ok d raw r') E).
  - unfold interval_normalize_value.
    destruct (coerce i raw r) as [q|] eqn:E; simpl; [|done].
    intros [= <-]. apply coerce_Ok in E as (_ & Hlo & Hhi).
    by rewrite (proj2 (coerce_Ok i (PyFloat (Finite q)) r' q)).
Qed.


(** X3.  How [coerce] fails: with the message "is not numeric" exactly when
    [float(raw)] raises [TypeError] or [ValueError] or yields NaN or an
    infinity; with "is outside of allowed range" exactly when it yields a
    finite number below lo or above hi; with the uncaught [OverflowError] of
    [float(raw)] exactly when raw is an [int] beyond the range of doubles;
    and in no other way.  Each message carries the role, the raw value and
    the field name. *)
Theorem X3_coerce_error_messages (f : IntervalFieldRef) raw r :
  (coerce f raw r = Raise (ValueError (NotNumeric r raw (iname f))) ↔
     py_float raw = Raise TypeError ∨ (∃ msg, py_float raw = Raise (ValueError msg)) ∨
     ∃ x, py_float raw = Ok x ∧ isfinite x = false) ∧
  (coerce f raw r = Raise (ValueError (OutsideRange r raw (iname f))) ↔
     ∃ q, py_float raw = Ok (Finite q) ∧
          ((q < dom_lo (idomain f))%Qc ∨ (dom_hi (idomain f) < q)%Qc)) ∧
  (coerce f raw r = Raise OverflowError ↔ ∃ z, raw = PyInt z ∧ float_of_int z = None) ∧
  (∀ e, coerce f raw r = Raise e →
     e = ValueError (NotNumeric r raw (iname f)) ∨
     e = ValueError (OutsideRange r raw (iname f)) ∨
     e = OverflowError).
Proof.
  split_and!.
  - split.
    + intros [[_ Hf]|[[[=] _]|[[=] _]]]%coerce_Raise. naive_solver.
    + unfold coerce. intros [->|[[msg ->]|(x & -> & Hx)]]; [done..|]. by destruct x.
  - split.
    + intros [[[=] _]|[[_ Hf]|[[=] _]]]%coerce_Raise. done.
    + unfold coerce. intros (q & -> & Hq).
      destruct Hq as [Hq|Hq]; [rewrite (bool_decide_eq_true_2 _ Hq); done|].
      rewrite (bool_decide_eq_true_2 (dom_hi (idomain f) < q)%Qc Hq). by rewrite orb_true_r.
  - rewrite coerce_overflow. apply py_float_overflow.
  - intros e [[-> _]|[[-> _]|[-> _]]]%coerce_Raise; eauto.
Qed.

(** X22.  [DiscreteFieldRef.validate_value] accepts a value exactly when it
    is hashable and equal ([==]) to a member of the domain's set; every
    failure is the InvalidValue "is not allowed", also when the containment
    check itself raises [TypeError] for an unhashable value; the outcome does
    not depend on the role except for the message. *)
Theorem X22_discrete_validate_value (f : DiscreteFieldRef) v r :
  (discrete_validate_value f v r = Ok tt ↔
     hashable v = true ∧ ∃ w, w ∈ vals (ddomain f) ∧ py_eq v w = true) ∧
  (contains (vals (ddomain f)) v = Raise TypeError ↔ hashable v = false) ∧
  (discrete_validate_value f v r = Raise (ValueError (NotAllowed r v (dname f))) ↔
     contains (vals (ddomain f)) v = Ok false ∨
     contains (vals (ddomain f)) v = Raise TypeError) ∧
  (∀ e, discrete_validate_value f v r = Raise e →
     e = ValueError (NotAllowed r v (dname f)) ∧ InvalidValue e) ∧
  (∀ r', discrete_validate_value f v r = Ok tt ↔ discrete_validate_value f v r' = Ok tt).
Proof.
  split_and!.
  - rewrite discrete_validate_value_Ok, contains_true, py_in_true. done.
  - unfold contains. destruct (hashable v); naive_solver.
  - unfold discrete_validate_value, contains.
    destruct (hashable v); [destruct (py_in _ v)|]; naive_solver.
  - intros e ->%discrete_validate_value_Raise. done.
  - intros r'. by rewrite !discrete_validate_value_Ok.
Qed.

(** X23.  [coerce] returns q exactly when [float(raw)] is the finite number
    q and lo <= q <= hi, whatever the role; [validate_value] then accepts the
    value and [normalize_value] returns the float q. *)
Theorem X23_coerce_returns_the_float (f : IntervalFieldRef) raw r :
  (∀ q, coerce f raw r = Ok q ↔
     py_float raw = Ok (Finite q) ∧
     (dom_lo (idomain f) <= q)%Qc ∧ (q <= dom_hi (idomain f))%Qc) ∧
  (∀ q r', coerce f raw r = Ok q → coerce f raw r' = Ok q) ∧
  (interval_validate_value f raw r = Ok tt ↔ ∃ q, coerce f raw r = Ok q) ∧
  (∀ v, interval_normalize_value f raw r = Ok v ↔
     ∃ q, coerce f raw r = Ok q ∧ v = PyFloat (Finite q)).
Proof.
  split_and!.
  - intros q. apply coerce_Ok.
  - intros q r'. rewrite !coerce_Ok. done.
  - unfold interval_validate_value. destruct (coerce f raw r); simpl; naive_solver.
  - intros v. unfold interval_normalize_value.
    destruct (coerce f raw r) as [q|e]; simpl; [|naive_solver].
    split; [intros [= <-]; eauto | intros (q' & [= <-] & ->); done].
Qed.

End extra_field_refs.

(** ** Further properties of the interval conditions *)

Section extra_conditions.
Context `{FloatRuntime}.

(** The boolean [Between.eval] returns, for a constructed condition and a
    context that binds the field to a finite number. *)
Lemma between_eval_finite (f : IntervalFieldRef) olo ohi tag b (ctx : Context) v q :
  Between_init f olo ohi tag = Ok b →
  ctx !! iname f = Some v →
  as_number v = Ok (Finite q) →
  tag ∈ closed_tags ∧
  (Between_eval b ctx = Ok true ↔
     (if bool_decide (tag ∈ ["left"; "both"]) then lo b < q else lo b <= q)%Qc ∧
     (if bool_decide (tag ∈ ["right"; "both"]) then q < hi b else q <= hi b)%Qc).
Proof.
  intros (Htag & _ & _ & Hle & <- & <- & Hl & Hr)%Between_init_Ok Hv Hq.
  split; [done|].
  unfold Between_eval; rewrite Hv, Hl, Hr;
    unfold py_gt, py_ge, py_lt, py_le; rewrite Hq; simpl.
  do 2 (case_bool_decide; simpl);
    repeat (match goal with |- context [bool_decide ?P] => destruct (bool_decide_reflect P) end);
    simpl; naive_solver.
Qed.

(** X4.  The checks of [Between.__post_init__] run in a fixed order: a
    malformed tag is reported whatever the bounds are; with a well-formed tag
    an invalid lower bound is reported (in the role "Lower bound") whatever
    the upper bound is; then an invalid upper bound; reversed bounds are
    reported last, with the values as they were passed. *)
Theorem X4_between_init_error_order (f : IntervalFieldRef) olo ohi tag :
  ((tag ∉ closed_tags) →
     Between_init f olo ohi tag = Raise (ValueError (InvalidClosed tag (iname f)))) ∧
  (tag ∈ closed_tags → ∀ e, coerce f olo LowerBound = Raise e →
     Between_init f olo ohi tag = Raise e) ∧
  (tag ∈ closed_tags → ∀ l e, coerce f olo LowerBound = Ok l →
     coerce f ohi UpperBound = Raise e →
     Between_init f olo ohi tag = Raise e) ∧
  (tag ∈ closed_tags → ∀ l h, coerce f olo LowerBound = Ok l →
     coerce f ohi UpperBound = Ok h → (h < l)%Qc →
     Between_init f olo ohi tag = Raise (ValueError (BoundsReversed olo ohi (iname f)))).
Proof.
  unfold Between_init. split_and!.
  - intros Htag. by rewrite bool_decide_eq_true_2.
  - intros Htag e He. rewrite bool_decide_eq_false_2 by (by intros ?). by rewrite He.
  - intros Htag l e Hl He. rewrite bool_decide_eq_false_2 by (by intros ?).
    by rewrite Hl, He.
  - intros Htag l h Hl Hh Hlt. rewrite bool_decide_eq_false_2 by (by intros ?).
    rewrite Hl, Hh. simpl. by rewrite bool_decide_eq_true_2.
Qed.

(** X5.  A constructed condition keeps its literals inside the domain of
    its field: lo <= lower bound <= upper bound <= hi for a [Between], and
    lo <= value <= hi for [Gt], [Ge], [Lt] and [Le]. *)
Theorem X5_constructed_literals_in_domain (f : IntervalFieldRef) :
  (∀ olo ohi tag b, Between_init f olo ohi tag = Ok b →
     (dom_lo (idomain f) <= lo b)%Qc ∧ (lo b <= hi b)%Qc ∧ (hi b <= dom_hi (idomain f))%Qc) ∧
  (∀ raw c, Gt_init f raw = Ok c ∨ Ge_init f raw = Ok c ∨
            Lt_init f raw = Ok c ∨ Le_init f raw = Ok c →
     ∃ x, (c = Gt f x ∨ c = Ge f x ∨ c = Lt f x ∨ c = Le f x) ∧
          (dom_lo (idomain f) <= x)%Qc ∧ (x <= dom_hi (idomain f))%Qc).
Proof.
  split.
  - intros olo ohi tag b (_ & Hlo & Hhi & Hle & _)%Between_init_Ok.
    apply coerce_Ok in Hlo as (_ & ? & _). apply coerce_Ok in Hhi as (_ & _ & ?). done.
  - intros raw c. unfold Gt_init, Ge_init, Lt_init, Le_init.
    destruct (coerce f raw ConditionValue) as [x|] eqn:E; simpl; [|naive_solver].
    apply coerce_Ok in E as (_ & ? & ?). intros Hc. exists x. naive_solver.
Qed.

(** X6.  Constructing a [Between] again from the fields of a constructed
    one gives the same object. *)
Theorem X6_between_rebuild (f : IntervalFieldRef) olo ohi tag b :
  Between_init f olo ohi tag = Ok b →
  Between_init (b_field b) (PyFloat (Finite (lo b))) (PyFloat (Finite (hi b))) (closed b)
  = Ok b.
Proof.
  intros Hb. pose proof Hb as (Htag & Hlo & Hhi & Hle & Hf & Hc & Hl & Hr)%Between_init_Ok.
  apply Between_init_Ok. rewrite Hf, Hc.
  apply coerce_Ok in Hlo as (_ & ? & ?). apply coerce_Ok in Hhi as (_ & ? & ?).
  split_and!; try done; by apply coerce_Ok.
Qed.

(** X7.  A [Between] whose bounds coincide matches the bound itself when
    its tag is "none" and nothing otherwise. *)
Theorem X7_between_single_point (f : IntervalFieldRef) olo ohi tag b (ctx : Context) v q :
  Between_init f olo ohi tag = Ok b →
  lo b = hi b →
  ctx !! iname f = Some v →
  as_number v = Ok (Finite q) →
  Between_eval b ctx = Ok true ↔ tag = "none" ∧ q = lo b.
Proof.
  intros Hb Heq Hv Hq.
  destruct (between_eval_finite f olo ohi tag b ctx v q Hb Hv Hq) as (Htag & Hiff).
  rewrite Hiff, <- Heq. clear Hiff.
  repeat (apply elem_of_cons in Htag as [->|Htag]); [..|by apply not_elem_of_nil in Htag];
    simpl; split.
  - intros [H1 H2]. exfalso. by apply (Qclt_not_le _ _ H1), Qclt_le_weak.
  - by intros [? _].
  - intros [H1 H2]. exfalso. by apply (Qclt_not_le _ _ H1).
  - by intros [? _].
  - intros [H1 H2]. exfalso. by apply (Qclt_not_le _ _ H2).
  - by intros [? _].
  - intros [H1 H2]. split; [done|]. by apply Qcle_antisym.
  - intros [_ ->]. split; apply Qcle_refl.
Qed.

End extra_conditions.

Section extra_eval.
Context `{FloatRuntime}.

Lemma Between_eval_finite (b : Between) (ctx : Context) v q :
  ctx !! iname (b_field b) = Some v →
  as_number v = Ok (Finite q) →
  Between_eval b ctx
  = Ok ((if left_closed b then bool_decide (lo b < q)%Qc else bool_decide (lo b <= q)%Qc)
        && (if right_closed b then bool_decide (q < hi b)%Qc
            else bool_decide (q <= hi b)%Qc)).
Proof.
  intros Hv Hq. unfold Between_eval. rewrite Hv.
  unfold py_gt, py_ge, py_lt, py_le. rewrite Hq. simpl.
  by destruct (left_closed b), (right_closed b).
Qed.

(** X8.  The numbers a [Between] matches form a range without holes:
    a number between two matching numbers matches. *)
Theorem X8_between_matches_a_range (b : Between) (ctx1 ctx ctx2 : Context) v1 v v2 q1 q q2 :
  ctx1 !! iname (b_field b) = Some v1 → as_number v1 = Ok (Finite q1) →
  ctx !! iname (b_field b) = Some v → as_number v = Ok (Finite q) →
  ctx2 !! iname (b_field b) = Some v2 → as_number v2 = Ok (Finite q2) →
  (q1 <= q)%Qc → (q <= q2)%Qc →
  Between_eval b ctx1 = Ok true →
  Between_eval b ctx2 = Ok true →
  Between_eval b ctx = Ok true.
Proof.
  intros Hv1 Hq1 Hv Hq Hv2 Hq2 Hle1 Hle2.
  rewrite (Between_eval_finite b ctx1 v1 q1), (Between_eval_finite b ctx v q),
    (Between_eval_finite b ctx2 v2 q2) by done.
  intros [= [Hl1 _]%andb_true_iff] [= [_ Hr2]%andb_true_iff]. f_equal.
  apply andb_true_iff. split.
  - destruct (left_closed b); apply bool_decide_eq_true; apply bool_decide_eq_true in Hl1.
    + by eapply Qclt_le_trans.
    + by etrans.
  - destruct (right_closed b); apply bool_decide_eq_true; apply bool_decide_eq_true in Hr2.
    + by eapply Qcle_lt_trans.
    + by etrans.
Qed.

(** X9.  A constructed [Between] matches only finite numbers of the
    domain of its field: where it evaluates to true, the context holds for the
    field a number that is finite and lies within the bounds of the domain;
    an infinity, a NaN and a number outside the domain are not matched. *)
Theorem X9_between_matches_within_domain (f : IntervalFieldRef) olo ohi tag b
    (ctx : Context) :
  Between_init f olo ohi tag = Ok b →
  Between_eval b ctx = Ok true →
  ∃ v q, ctx !! iname f = Some v ∧ as_number v = Ok (Finite q) ∧
         (dom_lo (idomain f) <= q)%Qc ∧ (q <= dom_hi (idomain f))%Qc.
Proof.
  intros Hb.
  pose proof Hb as (_ & Hlo & Hhi & _ & Hf & _)%Between_init_Ok.
  apply coerce_Ok in Hlo as (_ & Hlo & _). apply coerce_Ok in Hhi as (_ & _ & Hhi).
  unfold Between_eval. rewrite Hf.
  destruct (ctx !! iname f) as [v|] eqn:Hv; [|done].
  unfold py_gt, py_ge, py_lt, py_le.
  destruct (as_number v) as [[q| | |]|e] eqn:Hx; simpl;
    try (by destruct (left_closed b), (right_closed b)).
  intros Heval. exists v, q. split_and!; [done..| |].
  - destruct (left_closed b); simpl in Heval;
      destruct (bool_decide_reflect (lo b < q)%Qc), (bool_decide_reflect (lo b <= q)%Qc);
      try (by destruct (right_closed b)).
    + apply Qclt_le_weak. by eapply Qcle_lt_trans.
    + apply Qclt_le_weak. by eapply Qcle_lt_trans.
    + by etrans.
    + by etrans.
  - destruct (left_closed b), (right_closed b); simpl in Heval;
      repeat (match type of Heval with
              | context [bool_decide ?P] => destruct (bool_decide_reflect P)
              end); simpl in Heval; try done;
      first [by etrans | apply Qclt_le_weak; by eapply Qclt_le_trans].
Qed.

(** X10.  On a context that binds the field to a finite number v: [Gt]
    holds iff v > value, [Ge] iff v >= value, [Lt] iff v < value, [Le] iff
    v <= value; so [Le] holds exactly where [Gt] does not, and [Lt] exactly
    where [Ge] does not. *)
Theorem X10_comparisons (f : IntervalFieldRef) (x : Qc) (ctx : Context) v q :
  ctx !! iname f = Some v →
  as_number v = Ok (Finite q) →
  (interval_eval (Gt f x) ctx = Ok true ↔ (x < q)%Qc) ∧
  (interval_eval (Ge f x) ctx = Ok true ↔ (x <= q)%Qc) ∧
  (interval_eval (Lt f x) ctx = Ok true ↔ (q < x)%Qc) ∧
  (interval_eval (Le f x) ctx = Ok true ↔ (q <= x)%Qc) ∧
  (interval_eval (Le f x) ctx = Ok true ↔ interval_eval (Gt f x) ctx = Ok false) ∧
  (interval_eval (Lt f x) ctx = Ok true ↔ interval_eval (Ge f x) ctx = Ok false).
Proof.
  intros Hv Hq. simpl. rewrite Hv. unfold py_gt, py_ge, py_lt, py_le. rewrite Hq. simpl.
  split_and!.
  - split; [intros [= ?%bool_decide_eq_true]; done | intros ?; f_equal; by apply bool_decide_eq_true].
  - split; [intros [= ?%bool_decide_eq_true]; done | intros ?; f_equal; by apply bool_decide_eq_true].
  - split; [intros [= ?%bool_decide_eq_true]; done | intros ?; f_equal; by apply bool_decide_eq_true].
  - split; [intros [= ?%bool_decide_eq_true]; done | intros ?; f_equal; by apply bool_decide_eq_true].
  - destruct (bool_decide_reflect (q <= x)%Qc) as [Hle|Hle];
      destruct (bool_decide_reflect (x < q)%Qc) as [Hlt|Hlt]; try done.
    + exfalso. by apply (Qclt_not_le _ _ Hlt).
    + exfalso. apply Hle. apply Qcnot_lt_le. done.
  - destruct (bool_decide_reflect (q < x)%Qc) as [Hlt|Hlt];
      destruct (bool_decide_reflect (x <= q)%Qc) as [Hle|Hle]; try done.
    + exfalso. by apply (Qclt_not_le _ _ Hlt).
    + exfalso. apply Hle. apply Qcnot_lt_le. done.
Qed.

(** X11.  When the context holds a value for the field, evaluating an
    interval condition raises exactly what the comparison of that value with
    a float raises: [TypeError] when the value is no number ([None], a
    string, ...), [decimal.InvalidOperation] when it is the NaN of [Decimal];
    otherwise it returns a boolean.  [eval] itself validates and converts
    nothing. *)
Theorem X11_eval_type_error (c : IntervalCond) (ctx : Context) v :
  ctx !! iname (interval_field c) = Some v →
  (interval_eval c ctx = Raise TypeError ↔ numeric v = None) ∧
  (interval_eval c ctx = Raise InvalidOperation ↔ v = PyDecimal NaN) ∧
  ((∃ answer, interval_eval c ctx = Ok answer) ↔ ∃ x, as_number v = Ok x) ∧
  (∀ e, interval_eval c ctx = Raise e →
     as_number v = Raise e ∧ (e = TypeError ∨ e = InvalidOperation)).
Proof.
  intros Hv.
  assert (∀ e, interval_eval c ctx = Raise e ↔ as_number v = Raise e) as Hraise.
  { intros e. destruct c as [b|f x|f x|f x|f x]; simpl in *; unfold Between_eval; rewrite Hv;
      unfold py_gt, py_ge, py_lt, py_le; destruct (as_number v) as [y|e']; simpl;
      try (destruct (left_closed b), (right_closed b); simpl); naive_solver. }
  split_and!.
  - rewrite Hraise. destruct v as [| | | |[]| |]; simpl; naive_solver.
  - rewrite Hraise. destruct v as [| | |[]|[]| |]; simpl; naive_solver.
  - clear Hraise.
    destruct c as [b|f x|f x|f x|f x]; simpl in *; unfold Between_eval; rewrite Hv;
      unfold py_gt, py_ge, py_lt, py_le; destruct (as_number v) as [y|e']; simpl;
      try (destruct (left_closed b), (right_closed b); simpl); naive_solver.
  - intros e He. apply Hraise in He. split; [done|]. by apply as_number_Raise in He.
Qed.

(** X12.  A float NaN in the context matches no interval condition: every
    comparison with it is false. *)
Theorem X12_nan_matches_nothing (c : IntervalCond) (ctx : Context) v :
  ctx !! iname (interval_field c) = Some v →
  as_number v = Ok NaN →
  v = PyFloat NaN ∧ interval_eval c ctx = Ok false.
Proof.
  intros Hv Hn. split.
  - destruct v as [|[]| |[]|[]| |]; simpl in Hn; congruence.
  - destruct c as [b|f x|f x|f x|f x]; simpl in *; unfold Between_eval; rewrite Hv;
      unfold py_gt, py_ge, py_lt, py_le; rewrite Hn; simpl; try done.
    by destruct (left_closed b), (right_closed b).
Qed.

End extra_eval.

(** ** Further properties of the context validation *)

Section extra_ctx.
Context `{FloatRuntime} {V : Type}.

(** A normalized value is accepted again, as it is. *)
Lemma normalize_value_fixpoint (f : FieldRef) raw r r' v :
  normalize_value f raw r = Ok v → normalize_value f v r' = Ok v.
Proof.
  destruct f as [d|i]; simpl.
  - unfold discrete_normalize_value.
    destruct (discrete_validate_value d raw r) as [[]|] eqn:E; simpl; [|done].
    intros [= <-]. apply discrete_validate_value_Ok in E.
    by rewrite (proj2 (discrete_validate_value_Ok d raw r') E).
  - unfold interval_normalize_value.
    destruct (coerce i raw r) as [q|] eqn:E; simpl; [|done].
    intros [= <-]. apply coerce_Ok in E as (_ & Hlo & Hhi).
    by rewrite (proj2 (coerce_Ok i (PyFloat (Finite q)) r' q)).
Qed.

(** An interval condition on a number evaluates to a truth value. *)
Lemma interval_eval_numeric (c : IntervalCond) (ctx : Context) v :
  ctx !! iname (interval_field c) = Some v → (∃ x, as_number v = Ok x) →
  ∃ answer, interval_eval c ctx = Ok answer.
Proof.
  intros Hv [y Hy].
  destruct c as [b|f x|f x|f x|f x]; simpl in *; unfold Between_eval; rewrite Hv;
    unfold py_gt, py_ge, py_lt, py_le; rewrite Hy; simpl;
    try (destruct (left_closed b), (right_closed b); simpl); eauto.
Qed.

(** The field whose value the loop rejects is the first one yielded with
    its name. *)
Lemma normalize_fields_Raise_first fields (ctx : Context) seen nz n' e :
  normalize_fields fields ctx seen nz = (n', Raise e) →
  ∃ f raw, field_named fields (name f) = Some f ∧ (name f ∉ seen) ∧
           ctx !! name f = Some raw ∧
           normalize_value f raw ContextValue = Raise e.
Proof.
  revert seen nz. induction fields as [|f fields IH]; intros seen nz; simpl; [done|].
  destruct (ctx !! name f) as [raw0|] eqn:Hctx; [case_bool_decide as Hseen|].
  - intros (f' & raw & Hf' & Hs & Hraw & Hn)%IH. exists f', raw.
    split_and!; try done. rewrite field_named_cons. case_decide; [congruence|done].
  - destruct (normalize_value f raw0 ContextValue) as [v0|e'] eqn:Hnorm.
    + intros (f' & raw & Hf' & Hs & Hraw & Hn)%IH. exists f', raw.
      split_and!; try done; [|set_solver].
      rewrite field_named_cons. case_decide as Hname; [|done]. set_solver.
    + intros [= _ <-]. exists f, raw0. split_and!; try done.
      rewrite field_named_cons. by case_decide.
  - intros (f' & raw & Hf' & Hs & Hraw & Hn)%IH. exists f', raw.
    split_and!; try done. rewrite field_named_cons. case_decide; [congruence|done].
Qed.

Lemma validate_context_Raise_first (rs : RuleSet V) (ctx : Context) e :
  validate_context rs ctx = Raise e →
  ∃ f raw, field_named (iter_field_refs rs) (name f) = Some f ∧
           ctx !! name f = Some raw ∧
           normalize_value f raw ContextValue = Raise e.
Proof.
  unfold validate_context. case_bool_decide as Hempty; [done|].
  destruct (normalize_fields (iter_field_refs rs) ctx ∅ ctx) as [n' [[]|e']] eqn:Hrun;
    simpl; [done|].
  intros [= <-]. apply normalize_fields_Raise_first in Hrun as (f & raw & ? & _ & ? & ?).
  eauto.
Qed.

(** X13.  Context validation is idempotent: the context it returns is
    valid and is its own normal form. *)
Theorem X13_validate_context_idempotent (rs : RuleSet V) (ctx n : Context) :
  validate_context rs ctx = Ok n → validate_context rs n = Ok n.
Proof.
  intros Hval. pose proof (validate_context_Ok rs ctx n Hval) as Hn.
  assert (∀ k v f, n !! k = Some v → field_named (iter_field_refs rs) k = Some f →
            normalize_value f v ContextValue = Ok v) as Hidem.
  { intros k v f Hv Hf. specialize (Hn k).
    destruct (ctx !! k) as [raw|]; [|congruence].
    destruct Hn as (v' & Hv' & Hnorm). assert (v' = v) as -> by congruence.
    unfold normalized_as in Hnorm. rewrite Hf in Hnorm.
    by eapply normalize_value_fixpoint. }
  destruct (validate_context rs n) as [n2|e] eqn:Hval2.
  - f_equal. apply map_eq. intros k.
    pose proof (validate_context_Ok rs n n2 Hval2 k) as Hk.
    destruct (n !! k) as [v|] eqn:Hv; [|done].
    destruct Hk as (v2 & -> & Hnorm). f_equal. unfold normalized_as in Hnorm.
    destruct (field_named (iter_field_refs rs) k) as [f|] eqn:Hf; [|done].
    rewrite (Hidem k v f Hv Hf) in Hnorm. congruence.
  - apply validate_context_Raise_first in Hval2 as (f & raw & Hf & Hraw & Hnorm).
    rewrite (Hidem (name f) raw f Hraw Hf) in Hnorm. done.
Qed.

(** X14.  Context validation neither adds nor removes a key. *)
Theorem X14_validate_context_keeps_keys (rs : RuleSet V) (ctx n : Context) :
  validate_context rs ctx = Ok n → dom n = dom ctx.
Proof.
  intros Hval. apply set_eq. intros k. rewrite !elem_of_dom.
  pose proof (validate_context_Ok rs ctx n Hval k) as Hk.
  destruct (ctx !! k) as [raw|].
  - destruct Hk as (v & -> & _). split; eauto.
  - rewrite Hk. done.
Qed.

(** X15.  What the validated context holds under a key of the caller's
    context: the caller's value itself when the key names a discrete field
    (the value then is hashable and equal to a member of the domain) or no
    field at all, and the
    float in [lo,hi] that [float()] makes of the caller's value when the key
    names an interval field. *)
Theorem X15_validated_values (rs : RuleSet V) (ctx n : Context) k raw :
  validate_context rs ctx = Ok n →
  ctx !! k = Some raw →
  match field_named (iter_field_refs rs) k with
  | None => n !! k = Some raw
  | Some (DiscreteRef d) =>
      n !! k = Some raw ∧ hashable raw = true ∧
      ∃ w, w ∈ vals (ddomain d) ∧ py_eq raw w = true
  | Some (IntervalRef i) =>
      ∃ q, n !! k = Some (PyFloat (Finite q)) ∧ py_float raw = Ok (Finite q) ∧
           (dom_lo (idomain i) <= q)%Qc ∧ (q <= dom_hi (idomain i))%Qc
  end.
Proof.
  intros Hval Hraw. pose proof (validate_context_Ok rs ctx n Hval k) as Hk.
  rewrite Hraw in Hk. destruct Hk as (v & Hv & Hnorm). unfold normalized_as in Hnorm.
  destruct (field_named (iter_field_refs rs) k) as [[d|i]|]; simpl in Hnorm.
  - unfold discrete_normalize_value in Hnorm.
    destruct (discrete_validate_value d raw ContextValue) as [[]|] eqn:E; [|done].
    simpl in Hnorm. injection Hnorm as <-.
    apply discrete_validate_value_Ok, contains_true in E as [? ?%py_in_true]. done.
  - unfold interval_normalize_value in Hnorm.
    destruct (coerce i raw ContextValue) as [q|] eqn:E; [|done].
    simpl in Hnorm. injection Hnorm as <-.
    apply coerce_Ok in E as (? & ? & ?). eauto.
  - by subst.
Qed.

(** X16.  The engine's [validate_context] and [FieldRef.validate_context]
    agree: the engine accepts a context that every field reference of the
    rule set accepts; an error of the engine is the error of one of the field
    references; and when field names are unique, the engine accepts only
    contexts that every field reference accepts. *)
Theorem X16_engine_and_field_validation (rs : RuleSet V) (ctx : Context) :
  ((∀ f, f ∈ iter_field_refs rs → fieldref_validate_context f ctx = Ok tt) →
     ∃ n, validate_context rs ctx = Ok n) ∧
  (∀ e, validate_context rs ctx = Raise e →
     ∃ f, f ∈ iter_field_refs rs ∧ fieldref_validate_context f ctx = Raise e) ∧
  (unique_names (iter_field_refs rs) →
     ∀ n, validate_context rs ctx = Ok n →
     ∀ f, f ∈ iter_field_refs rs → fieldref_validate_context f ctx = Ok tt).
Proof.
  assert (∀ e, validate_context rs ctx = Raise e →
     ∃ f, f ∈ iter_field_refs rs ∧ fieldref_validate_context f ctx = Raise e) as Hraise.
  { intros e (_ & f & raw & Hf & Hraw & Hnorm)%validate_context_Raise.
    exists f. split; [done|]. unfold fieldref_validate_context. by rewrite Hraw, Hnorm. }
  split_and!; [|exact Hraise|].
  - intros Hall. destruct (validate_context rs ctx) as [n|e] eqn:Hval; [eauto|].
    destruct (Hraise e eq_refl) as (f & Hf & He). rewrite (Hall f Hf) in He. done.
  - intros Huniq n Hval f Hf. unfold fieldref_validate_context.
    pose proof (validate_context_Ok rs ctx n Hval (name f)) as Hk.
    destruct (ctx !! name f) as [raw|]; [|done].
    destruct Hk as (v & _ & Hnorm). unfold normalized_as in Hnorm.
    destruct (field_named (iter_field_refs rs) (name f)) as [g|] eqn:Hg.
    + apply field_named_Some in Hg as [Hgin Hname].
      assert (g = f) as -> by (by apply Huniq). by rewrite Hnorm.
    + rewrite field_named_None in Hg. by destruct (Hg f Hf).
Qed.

(** Field references that the loop skips can be left out. *)
Lemma normalize_fields_skip (keep : FieldRef → Prop) `{∀ g, Decision (keep g)}
    fields (ctx : Context) seen nz :
  (∀ g, g ∈ fields → ¬ keep g → name g ∈ seen ∨ ctx !! name g = None) →
  normalize_fields fields ctx seen nz = normalize_fields (filter keep fields) ctx seen nz.
Proof.
  revert seen nz. induction fields as [|g fields IH]; intros seen nz Hskip; [done|].
  assert (∀ seen', seen ⊆ seen' →
            ∀ g', g' ∈ fields → ¬ keep g' → name g' ∈ seen' ∨ ctx !! name g' = None) as Hrest.
  { intros seen' Hsub g' Hg' Hk. destruct (Hskip g') as [?|?]; [by right|done|left|by right].
    set_solver. }
  rewrite filter_cons. destruct (decide (keep g)) as [Hk|Hk]; simpl.
  - destruct (ctx !! name g) as [raw0|]; [case_bool_decide|]; try (by apply IH, Hrest).
    destruct (normalize_value g raw0 ContextValue); [|done]. apply IH, Hrest. set_solver.
  - destruct (Hskip g) as [Hs|Hn]; [by left|done|..].
    + destruct (ctx !! name g); [|by apply IH, Hrest].
      rewrite bool_decide_eq_true_2 by done. by apply IH, Hrest.
    + rewrite Hn. by apply IH, Hrest.
Qed.

(** X17.  A field reference that repeats the name of an earlier one is
    never consulted: the loop of [validate_context] runs as if it were not
    yielded. *)
Theorem X17_repeated_names_are_skipped (f : FieldRef) fields (ctx : Context) seen nz :
  normalize_fields (f :: fields) ctx seen nz
  = normalize_fields (f :: filter (λ g, name g ≠ name f) fields) ctx seen nz.
Proof.
  simpl. destruct (ctx !! name f) as [raw0|] eqn:Hctx; [case_bool_decide as Hseen|].
  - apply normalize_fields_skip. intros g _ Hg. left. apply dec_stable in Hg. by rewrite Hg.
  - destruct (normalize_value f raw0 ContextValue); [|done].
    apply normalize_fields_skip. intros g _ Hg. left. apply dec_stable in Hg.
    rewrite Hg. set_solver.
  - apply normalize_fields_skip. intros g _ Hg. right. apply dec_stable in Hg. by rewrite Hg.
Qed.

(** X18.  After validation the interval conditions of the rule set
    evaluate without error, when field names are unique. *)
Theorem X18_eval_after_validation (rs : RuleSet V) (ctx n : Context) (c : IntervalCond) :
  unique_names (iter_field_refs rs) →
  validate_context rs ctx = Ok n →
  IntervalRef (interval_field c) ∈ iter_field_refs rs →
  ∃ answer, interval_eval c n = Ok answer.
Proof.
  intros Huniq Hval Hc.
  pose proof (validate_context_numeric rs ctx n Huniq Hval) as Hnum.
  destruct (n !! iname (interval_field c)) as [v|] eqn:Hv.
  - apply (interval_eval_numeric c n v Hv).
    apply (Hnum (interval_field c) v); [|done].
    unfold iter_field_refs in Hc. by rewrite elem_of_dedup in Hc.
  - exists false. destruct c; simpl in *; unfold Between_eval; by rewrite Hv.
Qed.

(** X19.  A context that holds none of the fields of the rule set is
    returned as it is. *)
Theorem X19_nothing_to_validate (rs : RuleSet V) (ctx : Context) :
  (∀ f, f ∈ iter_field_refs rs → ctx !! name f = None) →
  validate_context rs ctx = Ok ctx.
Proof.
  intros Hnone. destruct (validate_context rs ctx) as [n|e] eqn:Hval.
  - f_equal. apply map_eq. intros k.
    pose proof (validate_context_Ok rs ctx n Hval k) as Hk.
    destruct (ctx !! k) as [raw|] eqn:Hraw; [|done].
    destruct Hk as (v & -> & Hnorm). unfold normalized_as in Hnorm.
    destruct (field_named (iter_field_refs rs) k) as [f|] eqn:Hf; [|by subst].
    apply field_named_Some in Hf as [Hin <-]. rewrite (Hnone f Hin) in Hraw. done.
  - apply validate_context_Raise in Hval as (_ & f & raw & Hf & Hraw & _).
    rewrite (Hnone f Hf) in Hraw. done.
Qed.

End extra_ctx.

(** ** Composition of the comparisons and the order of the errors *)

Section extra_more.
Context `{FloatRuntime} {V : Type}.

(** X20.  A [Between] is the conjunction of two one-sided comparisons: it
    holds exactly when [Gt] (side tagged closed) or [Ge] (otherwise) holds
    for the lower bound and [Lt] (side tagged closed) or [Le] (otherwise)
    holds for the upper bound; and it raises exactly when the lower
    comparison does. *)
Theorem X20_between_as_two_comparisons (b : Between) (ctx : Context) :
  let lower := (if left_closed b then Gt else Ge) (b_field b) (lo b) in
  let upper := (if right_closed b then Lt else Le) (b_field b) (hi b) in
  (Between_eval b ctx = Ok true ↔
     interval_eval lower ctx = Ok true ∧ interval_eval upper ctx = Ok true) ∧
  (∀ e, Between_eval b ctx = Raise e ↔ interval_eval lower ctx = Raise e).
Proof.
  intros lower upper. unfold Between_eval.
  destruct (ctx !! iname (b_field b)) as [v|] eqn:Hv.
  - assert (∀ x y : bool, Ok (x && y) = Ok true ↔ @Ok bool x = Ok true ∧ @Ok bool y = Ok true)
      as Hand by (intros [] []; naive_solver).
    subst lower upper.
    destruct (left_closed b), (right_closed b); simpl; rewrite Hv;
      unfold py_gt, py_ge, py_lt, py_le; destruct (as_number v) as [y|]; simpl;
      (split; [first [apply Hand | naive_solver] | naive_solver]).
  - subst lower upper.
    destruct (left_closed b), (right_closed b); simpl; rewrite Hv; naive_solver.
Qed.

(** The loop stops at the first field that is present, not yet seen and
    not valid. *)
Lemma normalize_fields_first_error pre f post (ctx : Context) seen nz raw e :
  (∀ g, g ∈ pre → fieldref_validate_context g ctx = Ok tt) →
  (∀ g, g ∈ pre → name g ≠ name f) →
  name f ∉ seen →
  ctx !! name f = Some raw →
  normalize_value f raw ContextValue = Raise e →
  (normalize_fields (pre ++ f :: post) ctx seen nz).2 = Raise e.
Proof.
  revert seen nz. induction pre as [|g pre IH]; intros seen nz Hok Hne Hseen Hraw Hnorm; simpl.
  - rewrite Hraw, bool_decide_eq_false_2 by done. by rewrite Hnorm.
  - assert (∀ g', g' ∈ pre → fieldref_validate_context g' ctx = Ok tt) as Hok'
      by (intros; apply Hok; set_solver).
    assert (∀ g', g' ∈ pre → name g' ≠ name f) as Hne' by (intros; apply Hne; set_solver).
    pose proof (Hok g ltac:(set_solver)) as Hg. unfold fieldref_validate_context in Hg.
    destruct (ctx !! name g) as [raw0|]; [case_bool_decide|]; try (by apply IH).
    destruct (normalize_value g raw0 ContextValue) as [v0|]; [|done].
    apply IH; try done. pose proof (Hne g ltac:(set_solver)). set_solver.
Qed.

(** X21.  Which error [validate_context] raises: the one of the first
    field reference, in the order the rule set yields them, whose value in
    the context is not valid.  Later fields are not looked at. *)
Theorem X21_first_invalid_field_is_reported (rs : RuleSet V) (ctx : Context)
    pre f post raw e :
  iter_field_refs rs = pre ++ f :: post →
  (∀ g, g ∈ pre → fieldref_validate_context g ctx = Ok tt) →
  (∀ g, g ∈ pre → name g ≠ name f) →
  ctx !! name f = Some raw →
  normalize_value f raw ContextValue = Raise e →
  validate_context rs ctx = Raise e.
Proof.
  intros Hfields Hok Hne Hraw Hnorm. unfold validate_context.
  rewrite bool_decide_eq_false_2 by (intros ->; by rewrite lookup_empty in Hraw).
  pose proof (normalize_fields_first_error pre f post ctx ∅ ctx raw e Hok Hne
                ltac:(set_solver) Hraw Hnorm) as Hrun.
  rewrite <- Hfields in Hrun.
  destruct (normalize_fields (iter_field_refs rs) ctx ∅ ctx) as [n' r]. simpl in Hrun.
  by subst.
Qed.

End extra_more.

(** ** The further properties at the rule sets of the test-suite *)

Lemma X1_witness :
  normalize_value (IntervalRef Fixtures.score) (PyStr "75") ContextValue
  = Ok (Fixtures.fnum 75) ∧
  normalize_value (IntervalRef Fixtures.score) (Fixtures.fnum 75) ConditionValue
  = Ok (Fixtures.fnum 75).
Proof.
  assert (normalize_value (IntervalRef Fixtures.score) (PyStr "75") ContextValue
          = Ok (Fixtures.fnum 75)) as Hn by (vm_compute; reflexivity).
  split; [exact Hn|].
  exact (X1_normalize_value_idempotent (IntervalRef Fixtures.score) (PyStr "75")
           ContextValue ConditionValue (Fixtures.fnum 75) Hn).
Defined.

Lemma X6_witness :
  let b := {| b_field := Fixtures.credit_score; lo := Fixtures.num 700;
              hi := Fixtures.num 850; closed := "both";
              left_closed := true; right_closed := true |} in
  Between_init Fixtures.credit_score (PyStr "700") (PyInt 850) "both" = Ok b ∧
  Between_init Fixtures.credit_score (Fixtures.fnum 700) (Fixtures.fnum 850) "both" = Ok b.
Proof.
  intros b.
  assert (Between_init Fixtures.credit_score (PyStr "700") (PyInt 850) "both" = Ok b) as Hb
    by (vm_compute; reflexivity).
  split; [exact Hb|].
  exact (X6_between_rebuild Fixtures.credit_score (PyStr "700") (PyInt 850) "both" b Hb).
Defined.

Lemma X7_witness :
  let b := {| b_field := Fixtures.score; lo := Fixtures.num 50; hi := Fixtures.num 50;
              closed := "none"; left_closed := false; right_closed := false |} in
  let ctx := Fixtures.ctx_of [("score", Fixtures.fnum 50)] in
  Between_init Fixtures.score (PyInt 50) (PyInt 50) "none" = Ok b ∧
  Between_eval b ctx = Ok true.
Proof.
  intros b ctx.
  assert (Between_init Fixtures.score (PyInt 50) (PyInt 50) "none" = Ok b) as Hb
    by (vm_compute; reflexivity).
  split; [exact Hb|].
  apply (X7_between_single_point Fixtures.score (PyInt 50) (PyInt 50) "none" b ctx
           (Fixtures.fnum 50) (Fixtures.num 50) Hb eq_refl eq_refl eq_refl).
  split; reflexivity.
Defined.

Lemma X8_witness :
  let b := {| b_field := Fixtures.credit_score; lo := Fixtures.num 700;
              hi := Fixtures.num 850; closed := "both";
              left_closed := true; right_closed := true |} in
  Between_eval b (Fixtures.ctx_of [("credit_score", Fixtures.fnum 701)]) = Ok true ∧
  Between_eval b (Fixtures.ctx_of [("credit_score", Fixtures.fnum 849)]) = Ok true ∧
  Between_eval b (Fixtures.ctx_of [("credit_score", Fixtures.fnum 800)]) = Ok true.
Proof.
  intros b.
  assert (Between_eval b (Fixtures.ctx_of [("credit_score", Fixtures.fnum 701)]) = Ok true)
    as H1 by (vm_compute; reflexivity).
  assert (Between_eval b (Fixtures.ctx_of [("credit_score", Fixtures.fnum 849)]) = Ok true)
    as H2 by (vm_compute; reflexivity).
  split_and!; [exact H1 | exact H2 |].
  apply (X8_between_matches_a_range b
           (Fixtures.ctx_of [("credit_score", Fixtures.fnum 701)])
           (Fixtures.ctx_of [("credit_score", Fixtures.fnum 800)])
           (Fixtures.ctx_of [("credit_score", Fixtures.fnum 849)])
           (Fixtures.fnum 701) (Fixtures.fnum 800) (Fixtures.fnum 849)
           (Fixtures.num 701) (Fixtures.num 800) (Fixtures.num 849)
           eq_refl eq_refl eq_refl eq_refl eq_refl eq_refl);
    [by vm_compute | by vm_compute | exact H1 | exact H2].
Defined.

Lemma X9_witness :
  let b := {| b_field := Fixtures.credit_score; lo := Fixtures.num 700;
              hi := Fixtures.num 850; closed := "none";
              left_closed := false; right_closed := false |} in
  let ctx := Fixtures.ctx_of [("credit_score", Fixtures.fnum 850)] in
  Between_init Fixtures.credit_score (PyInt 700) (PyInt 850) "none" = Ok b ∧
  Between_eval b ctx = Ok true ∧
  ∃ v q, ctx !! "credit_score" = Some v ∧ as_number v = Ok (Finite q) ∧
         (Fixtures.num 300 <= q)%Qc ∧ (q <= Fixtures.num 850)%Qc.
Proof.
  intros b ctx.
  assert (Between_init Fixtures.credit_score (PyInt 700) (PyInt 850) "none" = Ok b) as Hb
    by (vm_compute; reflexivity).
  assert (Between_eval b ctx = Ok true) as He by (vm_compute; reflexivity).
  split_and!; [exact Hb | exact He |].
  exact (X9_between_matches_within_domain Fixtures.credit_score (PyInt 700) (PyInt 850)
           "none" b ctx Hb He).
Defined.

Lemma X10_witness :
  let ctx := Fixtures.ctx_of [("score", Fixtures.fnum 75)] in
  interval_eval (Gt Fixtures.score (Fixtures.num 50)) ctx = Ok true ∧
  interval_eval (Le Fixtures.score (Fixtures.num 50)) ctx = Ok false.
Proof.
  intros ctx.
  destruct (X10_comparisons Fixtures.score (Fixtures.num 50) ctx (Fixtures.fnum 75)
              (Fixtures.num 75) eq_refl eq_refl) as (Hgt & _ & _ & _ & _ & _).
  split; [apply Hgt; by vm_compute | vm_compute; reflexivity].
Defined.

Lemma X11_witness :
  interval_eval (Gt Fixtures.score (Fixtures.num 50))
    (Fixtures.ctx_of [("score", PyStr "75")]) = Raise TypeError ∧
  interval_eval (Gt Fixtures.score (Fixtures.num 50))
    (Fixtures.ctx_of [("score", PyDecimal NaN)]) = Raise InvalidOperation.
Proof.
  destruct (X11_eval_type_error (Gt Fixtures.score (Fixtures.num 50))
              (Fixtures.ctx_of [("score", PyStr "75")]) (PyStr "75") eq_refl)
    as (Htype & _).
  destruct (X11_eval_type_error (Gt Fixtures.score (Fixtures.num 50))
              (Fixtures.ctx_of [("score", PyDecimal NaN)]) (PyDecimal NaN) eq_refl)
    as (_ & Hnan & _).
  split; [apply Htype | apply Hnan]; reflexivity.
Defined.

Lemma X12_witness :
  let b := {| b_field := Fixtures.credit_score; lo := Fixtures.num 700;
              hi := Fixtures.num 850; closed := "none";
              left_closed := false; right_closed := false |} in
  Between_eval b (Fixtures.ctx_of [("credit_score", PyFloat NaN)]) = Ok false.
Proof.
  intros b.
  exact (proj2 (X12_nan_matches_nothing (CBetween b)
                  (Fixtures.ctx_of [("credit_score", PyFloat NaN)]) (PyFloat NaN)
                  eq_refl eq_refl)).
Defined.

Lemma X13_witness :
  let ctx := Fixtures.ctx_of [("score", PyStr "75"); ("status", PyStr "HIGH")] in
  let n := Fixtures.ctx_of [("score", Fixtures.fnum 75); ("status", PyStr "HIGH")] in
  validate_context Fixtures.score_rules ctx = Ok n ∧
  validate_context Fixtures.score_rules n = Ok n.
Proof.
  intros ctx n.
  assert (validate_context Fixtures.score_rules ctx = Ok n) as Hval
    by (vm_compute; reflexivity).
  split; [exact Hval|].
  exact (X13_validate_context_idempotent Fixtures.score_rules ctx n Hval).
Defined.

Lemma X14_witness :
  let ctx := Fixtures.ctx_of [("score", PyStr "75"); ("timezone", PyStr "UTC")] in
  let n := Fixtures.ctx_of [("score", Fixtures.fnum 75); ("timezone", PyStr "UTC")] in
  validate_context Fixtures.score_rules ctx = Ok n ∧ dom n = dom ctx.
Proof.
  intros ctx n.
  assert (validate_context Fixtures.score_rules ctx = Ok n) as Hval
    by (vm_compute; reflexivity).
  split; [exact Hval|].
  exact (X14_validate_context_keeps_keys Fixtures.score_rules ctx n Hval).
Defined.

Lemma X15_witness :
  let ctx := Fixtures.ctx_of [("score", PyStr "75"); ("status", PyStr "HIGH")] in
  let n := Fixtures.ctx_of [("score", Fixtures.fnum 75); ("status", PyStr "HIGH")] in
  validate_context Fixtures.score_rules ctx = Ok n ∧
  ∃ q, n !! "score" = Some (PyFloat (Finite q)) ∧
       py_float (PyStr "75") = Ok (Finite q) ∧
       (Fixtures.num 0 <= q)%Qc ∧ (q <= Fixtures.num 100)%Qc.
Proof.
  intros ctx n.
  assert (validate_context Fixtures.score_rules ctx = Ok n) as Hval
    by (vm_compute; reflexivity).
  split; [exact Hval|].
  exact (X15_validated_values Fixtures.score_rules ctx n "score" (PyStr "75") Hval eq_refl).
Defined.

Lemma score_rules_fields :
  iter_field_refs Fixtures.score_rules
  = [IntervalRef Fixtures.score; DiscreteRef Fixtures.status_level].
Proof. vm_compute. reflexivity. Qed.

Lemma X18_witness :
  let ctx := Fixtures.ctx_of [("score", PyStr "75")] in
  let n := Fixtures.ctx_of [("score", Fixtures.fnum 75)] in
  unique_names (iter_field_refs Fixtures.score_rules) ∧
  validate_context Fixtures.score_rules ctx = Ok n ∧
  ∃ answer, interval_eval (Gt Fixtures.score (Fixtures.num 50)) n = Ok answer.
Proof.
  intros ctx n.
  assert (unique_names (iter_field_refs Fixtures.score_rules)) as Huniq.
  { rewrite score_rules_fields. intros f g Hf Hg.
    repeat (apply elem_of_cons in Hf as [->|Hf]); [..|by apply not_elem_of_nil in Hf];
      (repeat (apply elem_of_cons in Hg as [->|Hg]); [..|by apply not_elem_of_nil in Hg]);
      done. }
  assert (validate_context Fixtures.score_rules ctx = Ok n) as Hval
    by (vm_compute; reflexivity).
  split_and!; [exact Huniq | exact Hval |].
  apply (X18_eval_after_validation Fixtures.score_rules ctx n
           (Gt Fixtures.score (Fixtures.num 50)) Huniq Hval).
  rewrite score_rules_fields. apply elem_of_cons. by left.
Defined.

Lemma X19_witness :
  let ctx := Fixtures.ctx_of [("timezone", PyStr "UTC")] in
  validate_context Fixtures.score_rules ctx = Ok ctx.
Proof.
  intros ctx. apply X19_nothing_to_validate.
  intros f Hf. rewrite score_rules_fields in Hf.
  repeat (apply elem_of_cons in Hf as [->|Hf]); [reflexivity..|].
  by apply not_elem_of_nil in Hf.
Defined.

Lemma X21_witness :
  let ctx := Fixtures.ctx_of [("score", PyInt 75); ("status", PyStr "OTHER")] in
  validate_context Fixtures.score_rules ctx
  = Raise (ValueError (NotAllowed ContextValue (PyStr "OTHER") "status")).
Proof.
  intros ctx.
  apply (X21_first_invalid_field_is_reported Fixtures.score_rules ctx
           [IntervalRef Fixtures.score] (DiscreteRef Fixtures.status_level) []
           (PyStr "OTHER")).
  - exact score_rules_fields.
  - intros g Hg. apply elem_of_cons in Hg as [->|Hg]; [vm_compute; reflexivity|].
    by apply not_elem_of_nil in Hg.
  - intros g Hg. apply elem_of_cons in Hg as [->|Hg]; [done|].
    by apply not_elem_of_nil in Hg.
  - reflexivity.
  - vm_compute. reflexivity.
Defined.
